(** * Node-local resynthesis pipeline of mockturtle: a shallow embedding

    The development follows three source files:
    - [algorithms/resyn_engines/mig_enumerative.hpp]: the enumerative
      majority resynthesis engine ([mig_enumerative_resyn::operator()]);
    - [views/coi_view.hpp]: the cone-of-influence view;
    - [algorithms/refactor.hpp]: the refactor driver.

    Conventions of the embedding.
    - A truth table of [w] bits is a [Z] in [0, 2^w); the bit-parallel
      operations are the [Z] bit operations, complement masks to [w] bits.
    - [uint32_t] arithmetic is [Z] arithmetic followed by [u32] (reduction
      modulo [2^32]).
    - The build is the one with assertions enabled: a failing [assert]
      ends the call with [AssertFails].
    - Dereferencing an iterator outside its range is undefined behaviour
      in the source; the model ends the call with [OutOfRange].
    - Recursion over the fan-in graph is driven by a fuel argument;
      [OutOfFuel] is an artefact of the model, never of the source. *)

From Stdlib Require Import ZArith List Lia Bool Sorting.Permutation Sorting.Sorted.
From stdpp Require Import base option gmap list sorting.
Import ListNotations.

#[local] Open Scope Z_scope.

(** ** Outcomes of a call *)

Inductive outcome (A : Type) : Type :=
| Returns (a : A)
| AssertFails
| OutOfRange
| OutOfFuel.

Arguments Returns {A} a.
Arguments AssertFails {A}.
Arguments OutOfRange {A}.
Arguments OutOfFuel {A}.

#[export] Instance outcome_ret : MRet outcome := fun A a => Returns a.

#[export] Instance outcome_bind : MBind outcome := fun A B f m =>
  match m with
  | Returns a => f a
  | AssertFails => AssertFails
  | OutOfRange => OutOfRange
  | OutOfFuel => OutOfFuel
  end.

(** An iterator dereference: [None] is an access outside the range. *)
Definition deref {A : Type} (o : option A) : outcome A :=
  match o with
  | Some a => Returns a
  | None => OutOfRange
  end.

Definition u32 (z : Z) : Z := z mod 2 ^ 32.

(** ** Truth tables *)

Module kitty.

(** Modelled from the spec: the truth-table library (kitty) is an
    external collaborator, "bit-parallel Boolean vectors with
    AND/OR/XOR/NOT, equality, ternary-majority, implication, all-0/all-1
    tests".  A table of [w] bits is the integer whose bit [i] is the
    value of the function on minterm [i]. *)
Definition wf (w : nat) (x : Z) : Prop := 0 <= x < 2 ^ Z.of_nat w.

Definition wfb (w : nat) (x : Z) : bool := (0 <=? x) && (x <? 2 ^ Z.of_nat w).

Definition tt_not (w : nat) (x : Z) : Z := Z.land (Z.lnot x) (Z.ones (Z.of_nat w)).

Definition tt_and (x y : Z) : Z := Z.land x y.

Definition tt_or (x y : Z) : Z := Z.lor x y.

Definition ternary_majority (a b c : Z) : Z :=
  Z.lxor (Z.land a (Z.lxor b c)) (Z.land b c).

Definition is_const0 (x : Z) : bool := x =? 0.

Definition implies (w : nat) (a b : Z) : bool := is_const0 (Z.land a (tt_not w b)).

Definition equal (x y : Z) : bool := x =? y.

(** The all-true table of [w] bits. *)
Definition const1 (w : nat) : Z := Z.ones (Z.of_nat w).

End kitty.

(** ** Index lists *)

Module index_list.

(** Modelled from the spec: [utils/index_list.hpp] is not part of the
    sources at hand.  "An input count, an ordered sequence of (3-literal)
    gate entries, and declared output literals"; "a literal encodes
    (index, polarity); index 0 is the constant, indices >= 1 address an
    original input (by position) or a prior entry (by sequence
    position)". *)
Record mig_index_list : Type := mk_index_list {
  num_pis : Z;
  gates : list (Z * Z * Z);
  outputs : list Z
}.

Definition create (n : Z) : mig_index_list :=
  {| num_pis := n; gates := []; outputs := [] |}.

Definition num_gates (il : mig_index_list) : Z := Z.of_nat (length (gates il)).

(** Appends a gate entry and returns the literal that addresses it. *)
Definition add_maj (il : mig_index_list) (l0 l1 l2 : Z) : mig_index_list * Z :=
  let il' := {| num_pis := num_pis il;
                gates := gates il ++ [(l0, l1, l2)];
                outputs := outputs il |} in
  (il', (num_gates il' + num_pis il') * 2).

Definition add_output (il : mig_index_list) (lit : Z) : mig_index_list :=
  {| num_pis := num_pis il; gates := gates il; outputs := outputs il ++ [lit] |}.

(** Replay of an index list over truth tables of [w] bits.  [vals] holds
    the constant at position 0, then the inputs, then the entries
    already replayed. *)
Definition lit_value (w : nat) (vals : list Z) (lit : Z) : option Z :=
  if lit <? 0 then None
  else
    match vals !! Z.to_nat (lit / 2) with
    | Some v => Some (if Z.odd lit then kitty.tt_not w v else v)
    | None => None
    end.

Fixpoint replay_gates (w : nat) (vals : list Z) (gs : list (Z * Z * Z))
  : option (list Z) :=
  match gs with
  | [] => Some vals
  | (a, b, c) :: gs' =>
      match lit_value w vals a, lit_value w vals b, lit_value w vals c with
      | Some va, Some vb, Some vc =>
          replay_gates w (vals ++ [kitty.ternary_majority va vb vc]) gs'
      | _, _, _ => None
      end
  end.

Fixpoint lit_values (w : nat) (vals : list Z) (lits : list Z) : option (list Z) :=
  match lits with
  | [] => Some []
  | l :: lits' =>
      match lit_value w vals l, lit_values w vals lits' with
      | Some v, Some vs => Some (v :: vs)
      | _, _ => None
      end
  end.

(** The truth tables of the declared outputs, or [None] when the list is
    not well formed for the given inputs. *)
Definition evaluate (w : nat) (il : mig_index_list) (inputs : list Z)
  : option (list Z) :=
  if num_pis il =? Z.of_nat (length inputs) then
    match replay_gates w (0 :: inputs) (gates il) with
    | Some vals => lit_values w vals (outputs il)
    | None => None
    end
  else None.

End index_list.

(** ** The enumerative resynthesis engine *)

Module mig_enumerative.
Import kitty index_list.

(** [make_lit] of the source, on [uint32_t]. *)
Definition make_lit (var : Z) (inv : bool) : Z := u32 ((var + 1) * 2 + Z.b2z inv).

Section engine.
(** [K] is what the candidate iterators point to, [tts] the truth-table
    storage indexed by it, [w] the number of bits of every table. *)
Context {K : Type}.
Variable w : nat.
Variable tts : K -> Z.

(** [begin + (lit / 2) - 1], dereferenced. *)
Definition get_tt_from_lit (lit : Z) (cands : list K) : option Z :=
  if lit / 2 =? 0 then None
  else
    match cands !! Z.to_nat (lit / 2 - 1) with
    | Some it => Some (if Z.odd lit then tt_not w (tts it) else tts it)
    | None => None
    end.

(** 0-resub: the loop over the candidates, [its] the remaining range
    and [i] the running [uint32_t] counter. *)
Fixpoint resub0 (target ntarget : Z) (il : mig_index_list) (its : list K) (i : Z)
  : option mig_index_list :=
  match its with
  | [] => None
  | it :: its' =>
      if equal target (tts it) then Some (add_output il (make_lit i false))
      else if equal ntarget (tts it) then Some (add_output il (make_lit i true))
      else resub0 target ntarget il its' (u32 (i + 1))
  end.

(** The four-way test of one candidate pair. *)
Definition maj_filter (target ti tj : Z) (i j : Z) : list (Z * Z) :=
  if equal (ternary_majority ti tj target) target
  then [(make_lit i false, make_lit j false)]
  else if equal (ternary_majority (tt_not w ti) tj target) target
  then [(make_lit i true, make_lit j false)]
  else if equal (ternary_majority ti (tt_not w tj) target) target
  then [(make_lit i false, make_lit j true)]
  else if equal (ternary_majority (tt_not w ti) (tt_not w tj) target) target
  then [(make_lit i true, make_lit j true)]
  else [].

(** The four-way implication test of one candidate. *)
Definition imp_filter (target ti : Z) (i : Z) : list (Z * Z) :=
  if implies w ti target then [(make_lit i false, 1)]
  else if implies w (tt_not w ti) target then [(make_lit i true, 1)]
  else if implies w target ti then [(make_lit i false, 0)]
  else if implies w target (tt_not w ti) then [(make_lit i true, 0)]
  else [].

(** The inner loop [for (jt = it + 1, j = i + 1; jt != end; ++jt, ++j)]. *)
Fixpoint collect_inner (target ti : Z) (i : Z) (jts : list K) (j : Z)
  : list (Z * Z) :=
  match jts with
  | [] => []
  | jt :: jts' =>
      maj_filter target ti (tts jt) i j
        ++ collect_inner target ti i jts' (u32 (j + 1))
  end.

(** The outer loop that fills [maj1pairs]. *)
Fixpoint collect_maj1pairs (target : Z) (its : list K) (i : Z) : list (Z * Z) :=
  match its with
  | [] => []
  | it :: its' =>
      collect_inner target (tts it) i its' (u32 (i + 1))
        ++ imp_filter target (tts it) i
        ++ collect_maj1pairs target its' (u32 (i + 1))
  end.

(** [il.add_output( il.add_maj( a, b, c ) ); return il;] *)
Definition emit (il : mig_index_list) (a b c : Z) : outcome (option mig_index_list) :=
  let '(il', lit) := add_maj il a b c in
  Returns (Some (add_output il' lit)).

(** 1-resub, inner loop when [maj1pairs[i].second < 2]: [(a, c)] is
    [maj1pairs[i]], [x] its first table, [rest] the pairs from [i + 1]. *)
Fixpoint resub1_const (target : Z) (cands : list K) (il : mig_index_list)
  (a c x : Z) (rest : list (Z * Z)) : outcome (option mig_index_list) :=
  match rest with
  | [] => Returns None
  | (b1, b2) :: rest' =>
      y1 ← deref (get_tt_from_lit b1 cands);
      if (c =? 0) && equal target (tt_and x y1) then emit il a c b1
      else if (c =? 1) && equal target (tt_or x y1) then emit il a c b1
      else if b2 <? 2 then resub1_const target cands il a c x rest'
      else
        y2 ← deref (get_tt_from_lit b2 cands);
        if (c =? 0) && equal target (tt_and x y2) then emit il a c b2
        else if (c =? 1) && equal target (tt_or x y2) then emit il a c b2
        else resub1_const target cands il a c x rest'
  end.

(** 1-resub, inner loop when [maj1pairs[i].second >= 2]. *)
Fixpoint resub1_maj (target : Z) (cands : list K) (il : mig_index_list)
  (a c x y : Z) (rest : list (Z * Z)) : outcome (option mig_index_list) :=
  match rest with
  | [] => Returns None
  | (b1, b2) :: rest' =>
      z1 ← deref (get_tt_from_lit b1 cands);
      if equal target (ternary_majority x y z1) then emit il a c b1
      else if b2 <? 2 then
        if (b2 =? 0) && equal target (tt_and x y) then emit il a c b2
        else if (b2 =? 1) && equal target (tt_or x y) then emit il a c b2
        else resub1_maj target cands il a c x y rest'
      else
        z2 ← deref (get_tt_from_lit b2 cands);
        if equal target (ternary_majority x y z2) then emit il a c b2
        else resub1_maj target cands il a c x y rest'
  end.

(** 1-resub, outer loop over [maj1pairs]. *)
Fixpoint resub1 (target : Z) (cands : list K) (il : mig_index_list)
  (pairs : list (Z * Z)) : outcome (option mig_index_list) :=
  match pairs with
  | [] => Returns None
  | (a, c) :: rest =>
      x ← deref (get_tt_from_lit a cands);
      r ← (if c <? 2 then resub1_const target cands il a c x rest
           else
             y ← deref (get_tt_from_lit c cands);
             resub1_maj target cands il a c x y rest);
      match r with
      | Some il' => Returns (Some il')
      | None => resub1 target cands il rest
      end
  end.

(** [mig_enumerative_resyn::operator()]: [cands] is the range
    [begin .. end], the result [None] is [std::nullopt]. *)
Definition mig_enumerative_resyn (target care : Z) (cands : list K) (max_size : Z)
  : outcome (option mig_index_list) :=
  if negb (is_const0 (tt_not w care)) then AssertFails
  else
    let il := create (Z.of_nat (length cands)) in
    let ntarget := tt_not w target in
    if is_const0 target then Returns (Some (add_output il 0))
    else if is_const0 ntarget then Returns (Some (add_output il 1))
    else
      match resub0 target ntarget il cands 0 with
      | Some il' => Returns (Some il')
      | None =>
          if max_size =? 0 then Returns None
          else
            let maj1pairs := collect_maj1pairs target cands 0 in
            r ← resub1 target cands il maj1pairs;
            match r with
            | Some il' => Returns (Some il')
            | None => if max_size =? 1 then Returns None else Returns None
            end
      end.

End engine.

(** A storage that holds the tables themselves. *)
Definition table (z : Z) : Z := z.

(** A table under a sign: [true] complements. *)
Definition sign (w : nat) (inv : bool) (x : Z) : Z := if inv then tt_not w x else x.

(** The sign combinations of a pair in the order the source tries them,
    and the first one that passes the majority test. *)
Definition sign_combinations : list (bool * bool) :=
  [(false, false); (true, false); (false, true); (true, true)].

Definition passes_maj (w : nat) (target a b : Z) (s : bool * bool) : bool :=
  equal (ternary_majority (sign w (fst s) a) (sign w (snd s) b) target) target.

Definition first_sign_combination (w : nat) (target a b : Z) : option (bool * bool) :=
  List.find (passes_maj w target a b) sign_combinations.

(** The implications of a candidate against the target in the order the
    source tries them: the second component is the constant slot that
    is recorded, [1] for "candidate implies target" and [0] for "target
    implies candidate". *)
Definition implications : list (bool * Z) :=
  [(false, 1); (true, 1); (false, 0); (true, 0)].

Definition passes_imp (w : nat) (target a : Z) (s : bool * Z) : bool :=
  if snd s =? 1 then implies w (sign w (fst s) a) target
  else implies w target (sign w (fst s) a).

Definition first_implication (w : nat) (target a : Z) : option (bool * Z) :=
  List.find (passes_imp w target a) implications.

(** Literals are unsigned. *)
Definition nonneg_pair (p : Z * Z) : Prop := 0 <= fst p /\ 0 <= snd p.

(** Replaying [il] over the candidates' tables yields the target at its
    one declared output. *)
Definition realizes {K : Type} (w : nat) (tts : K -> Z) (target : Z)
  (cands : list K) (il : mig_index_list) : Prop :=
  evaluate w il (map tts cands) = Some [target].

(** A literal that [get_tt_from_lit] can read, and a recorded pair whose
    reads in the 1-resub loops stay in range. *)
Definition valid_lit {K : Type} (w : nat) (tts : K -> Z) (cands : list K)
  (lit : Z) : Prop :=
  is_Some (get_tt_from_lit w tts lit cands).

Definition valid_pair {K : Type} (w : nat) (tts : K -> Z) (cands : list K)
  (p : Z * Z) : Prop :=
  valid_lit w tts cands (fst p)
  /\ ((snd p <? 2) = true \/ valid_lit w tts cands (snd p)).

(** The prefilter read as recording every passing combination. *)
Definition records_every_combination {K : Type} (w : nat) (tts : K -> Z)
  (target : Z) (cands : list K) : Prop :=
  (forall (i j : nat) (a b : K) (s : bool * bool),
      (i < j)%nat -> cands !! i = Some a -> cands !! j = Some b ->
      passes_maj w target (tts a) (tts b) s = true ->
      In (make_lit (Z.of_nat i) (fst s), make_lit (Z.of_nat j) (snd s))
         (collect_maj1pairs w tts target cands 0))
  /\ (forall (i : nat) (a : K) (s : bool * Z),
         cands !! i = Some a -> In s implications ->
         passes_imp w target (tts a) s = true ->
         In (make_lit (Z.of_nat i) (fst s), snd s)
            (collect_maj1pairs w tts target cands 0)).

End mig_enumerative.

(** ** Logic networks *)

#[local] Close Scope Z_scope.

Module network.

(** Modelled from the spec: the concrete network types ([aig_network]
    and the like) are not part of the sources at hand.  A network is "an
    arena of Nodes indexed by integer id; Signal is a value type
    {id, polarity}"; a node "has an ordered fan-in list of Signals,
    fan-out count, liveness flag". *)
Definition node : Type := nat.

Record signal : Type := mk_signal { index : node; complement : bool }.

Inductive node_kind : Type :=
| Constant (value : bool)
| PrimaryInput
| Gate.

Record node_data : Type := mk_node {
  kind : node_kind;
  children : list signal;
  fanout : nat;
  dead : bool
}.

Record t : Type := mk_network {
  storage : list node_data;
  outputs : list signal;
  constant_true : signal
}.

Definition get_node (f : signal) : node := index f.

Definition make_signal (n : node) : signal := mk_signal n false.

Definition get_constant (ntk : t) (value : bool) : signal :=
  if value then constant_true ntk else mk_signal 0 false.

Definition size (ntk : t) : nat := length (storage ntk).

(** Every query on a node reads its record in the arena. *)
Definition node_at (ntk : t) (n : node) : outcome node_data :=
  deref (storage ntk !! n).

Definition is_constant (ntk : t) (n : node) : outcome bool :=
  d ← node_at ntk n;
  Returns (match kind d with Constant _ => true | _ => false end).

Definition is_pi (ntk : t) (n : node) : outcome bool :=
  d ← node_at ntk n;
  Returns (match kind d with PrimaryInput => true | _ => false end).

(** The networks at hand are combinational: the combinational inputs
    are the primary inputs. *)
Definition is_ci (ntk : t) (n : node) : outcome bool := is_pi ntk n.

Definition is_dead (ntk : t) (n : node) : outcome bool :=
  d ← node_at ntk n; Returns (dead d).

Definition fanout_size (ntk : t) (n : node) : outcome nat :=
  d ← node_at ntk n; Returns (fanout d).

(** The range of [foreach_fanin]: empty on constants and inputs. *)
Definition fanins (ntk : t) (n : node) : outcome (list signal) :=
  d ← node_at ntk n;
  Returns (match kind d with Gate => children d | _ => [] end).

(** [detail::foreach_element] with a callback that returns [bool]:
    [true] goes on to the next element, [false] ends the iteration. *)
Fixpoint foreach_element {A S : Type} (fn : A -> S -> outcome (bool * S))
  (xs : list A) (s : S) : outcome S :=
  match xs with
  | [] => Returns s
  | x :: xs' =>
      fn x s ≫= fun r : bool * S =>
        if fst r then foreach_element fn xs' (snd r) else Returns (snd r)
  end.

(** Every fan-in of a node was created before the node. *)
Definition dag_ordered (ntk : t) : Prop :=
  forall n d f, storage ntk !! n = Some d -> In f (children d) -> (index f < n)%nat.

Definition dag_orderedb (ntk : t) : bool :=
  forallb (fun nd : nat * node_data =>
             forallb (fun f => Nat.ltb (index f) (fst nd)) (children (snd nd)))
          (combine (seq 0 (length (storage ntk))) (storage ntk)).

(** [a] is in the transitive fan-in of [b]. *)
Inductive ancestor (ntk : t) : node -> node -> Prop :=
| ancestor_fanin a b fs f :
    fanins ntk b = Returns fs -> In f fs -> get_node f = a -> ancestor ntk a b
| ancestor_trans a b c :
    ancestor ntk a b -> ancestor ntk b c -> ancestor ntk a c.

(** Modelled from the spec: simulation ([algorithms/simulation.hpp]) is
    not part of the sources at hand.  The nodes are valued in arena
    order, the k-th primary input takes the k-th value of the
    assignment, a gate applies the gate function of the network type to
    the values of its fan-in signals. *)
Definition signal_value (vals : list bool) (f : signal) : bool :=
  xorb (nth (index f) vals false) (complement f).

Fixpoint simulate_nodes (gate_fn : list bool -> bool) (ds : list node_data)
  (vals : list bool) (pis : list bool) : list bool :=
  match ds with
  | [] => vals
  | d :: ds' =>
      match kind d with
      | Constant v => simulate_nodes gate_fn ds' (vals ++ [v]) pis
      | PrimaryInput => simulate_nodes gate_fn ds' (vals ++ [hd false pis]) (tl pis)
      | Gate =>
          simulate_nodes gate_fn ds'
            (vals ++ [gate_fn (map (signal_value vals) (children d))]) pis
      end
  end.

Definition simulate (gate_fn : list bool -> bool) (ntk : t) (pis : list bool)
  : list bool :=
  map (signal_value (simulate_nodes gate_fn (storage ntk) [] pis)) (outputs ntk).

(** Number of live gates. *)
Definition num_gates (ntk : t) : nat :=
  length (List.filter (fun d => match kind d with Gate => negb (dead d) | _ => false end)
                      (storage ntk)).

End network.

(** ** The cone-of-influence view *)

Module coi.
Import network.

Record coi_view : Type := mk_view {
  ntk : network.t;
  _constants : list node;
  _nodes : list node;
  _leaves : list node;
  _pivots : list node;
  _inner : list node;
  _topo : list node;
  _colors : list nat;
  _node_to_index : gmap node nat;
  _num_constants : nat;
  _sequential_wrap_around : bool
}.

(** The members [topo_sort_rec] works on. *)
Record topo_state : Type := mk_topo {
  t_index : gmap node nat;
  t_colors : list nat;
  t_topo : list node
}.

(** [_node_to_index.emplace( n, _node_to_index.size() )]: an existing
    key keeps its index. *)
Definition emplace (m : gmap node nat) (n : node) : gmap node nat :=
  match m !! n with
  | Some _ => m
  | None => <[n := base.size m]> m
  end.

(** [_node_to_index[n]]: a missing key is inserted with index 0. *)
Definition index_of (m : gmap node nat) (n : node) : nat * gmap node nat :=
  match m !! n with
  | Some i => (i, m)
  | None => (0%nat, <[n := 0%nat]> m)
  end.

(** [_colors[idx] = c]. *)
Definition set_color (colors : list nat) (idx c : nat) : outcome (list nat) :=
  if Nat.ltb idx (length colors) then Returns (<[idx := c]> colors) else OutOfRange.

Definition get_color (colors : list nat) (idx : nat) : outcome nat :=
  deref (colors !! idx).

(** [if ( l.empty() || l.back() != n ) l.push_back( n )]. *)
Definition push_back_unless_last (l : list node) (n : node) : list node :=
  match last l with
  | Some m => if decide (m = n) then l else l ++ [n]
  | None => l ++ [n]
  end.

(** [collect_recurse]: a constant adds nothing, a primary input adds
    itself once, a gate walks its fan-ins; the callback answers [false]
    on a fan-in that is already collected, which ends the walk over the
    fan-ins of that gate. *)
Fixpoint collect_recurse (fuel : nat) (ntk : network.t) (n : node) (nodes : list node)
  : outcome (list node) :=
  match fuel with
  | O => OutOfFuel
  | S fuel' =>
      c ← is_constant ntk n;
      if (c : bool) then Returns nodes
      else
        p ← is_pi ntk n;
        if (p : bool) then
          Returns (if bool_decide (n ∈ nodes) then nodes else nodes ++ [n])
        else
          fs ← fanins ntk n;
          foreach_element
            (fun f nodes =>
               if bool_decide (get_node f ∈ nodes) then Returns (false, nodes)
               else
                 nodes' ← collect_recurse fuel' ntk (get_node f) (nodes ++ [get_node f]);
                 Returns (true, nodes'))
            fs nodes
  end.

(** [topo_sort_rec]: colour 2 is the permanent mark, colour 1 the
    temporary one; every fan-in is visited before the node is
    appended. *)
Fixpoint topo_sort_rec (fuel : nat) (ntk : network.t) (n : node) (st : topo_state)
  : outcome topo_state :=
  match fuel with
  | O => OutOfFuel
  | S fuel' =>
      let '(idx, m) := index_of (t_index st) n in
      c ← get_color (t_colors st) idx;
      if Nat.eqb c 2 then Returns (mk_topo m (t_colors st) (t_topo st))
      else
        colors ← set_color (t_colors st) idx 1;
        fs ← fanins ntk n;
        st' ← foreach_element
                (fun f st => st' ← topo_sort_rec fuel' ntk (get_node f) st;
                             Returns (true, st'))
                fs (mk_topo m colors (t_topo st));
        colors' ← set_color (t_colors st') idx 2;
        Returns (mk_topo (t_index st') colors' (t_topo st' ++ [n]))
  end.

(** The recursion follows fan-in edges; in a network whose fan-ins
    precede their node, [S n] levels are enough from node [n]. *)
Definition fuel_for (n : node) : nat := S n.

(** The loop of [compute_sets] that splits the sorted nodes. *)
Fixpoint split_nodes (ntk : network.t) (ns leaves inner : list node)
  : outcome (list node * list node) :=
  match ns with
  | [] => Returns (leaves, inner)
  | n :: ns' =>
      c ← is_constant ntk n;
      if (c : bool) then split_nodes ntk ns' leaves inner
      else
        ci ← is_ci ntk n;
        if (ci : bool) then split_nodes ntk ns' (push_back_unless_last leaves n) inner
        else split_nodes ntk ns' leaves (push_back_unless_last inner n)
  end.

(** [_colors[_node_to_index[l]] = 2u] for every leaf. *)
Fixpoint color_leaves (ls : list node) (m : gmap node nat) (colors : list nat)
  : outcome (gmap node nat * list nat) :=
  match ls with
  | [] => Returns (m, colors)
  | l :: ls' =>
      let '(idx, m') := index_of m l in
      colors' ← set_color colors idx 2;
      color_leaves ls' m' colors'
  end.

(** [for ( i = 0; i < _num_constants; ++i ) _colors[i] = 2u]. *)
Fixpoint color_constants (idxs : list nat) (colors : list nat) : outcome (list nat) :=
  match idxs with
  | [] => Returns colors
  | i :: idxs' => colors' ← set_color colors i 2; color_constants idxs' colors'
  end.

Fixpoint topo_sort_pivots (ntk : network.t) (ps : list node) (st : topo_state)
  : outcome topo_state :=
  match ps with
  | [] => Returns st
  | p :: ps' =>
      st' ← topo_sort_rec (fuel_for p) ntk p st;
      topo_sort_pivots ntk ps' st'
  end.

(** [compute_sets]: sort, split into leaves and inner nodes, index,
    append the pivots, sort topologically, and assert that every inner
    node was sorted. *)
Definition compute_sets (v : coi_view) : outcome coi_view :=
  let nodes := merge_sort le (_nodes v) in
  li ← split_nodes (ntk v) nodes (_leaves v) (_inner v);
  let leaves := fst li in
  let inner0 := snd li in
  let m1 := fold_left emplace leaves (_node_to_index v) in
  let m2 := fold_left emplace inner0 m1 in
  let inner := inner0 ++ _pivots v in
  let m3 := fold_left emplace (_pivots v) m2 in
  let _size := (_num_constants v + length inner + length leaves)%nat in
  mc ← color_leaves leaves m3 (replicate _size 0%nat);
  colors ← color_constants (seq 0 (_num_constants v)) (snd mc);
  st ← topo_sort_pivots (ntk v) (_pivots v) (mk_topo (fst mc) colors []);
  if negb (Nat.eqb (length inner) (length (t_topo st))) then AssertFails
  else
    Returns {| ntk := ntk v;
               _constants := _constants v;
               _nodes := nodes;
               _leaves := leaves;
               _pivots := _pivots v;
               _inner := t_topo st;
               _topo := t_topo st;
               _colors := t_colors st;
               _node_to_index := t_index st;
               _num_constants := _num_constants v;
               _sequential_wrap_around := _sequential_wrap_around v |}.

Fixpoint collect_pivots (ntk : network.t) (ps : list node) (nodes : list node)
  : outcome (list node) :=
  match ps with
  | [] => Returns nodes
  | p :: ps' =>
      nodes' ← collect_recurse (fuel_for p) ntk p nodes;
      collect_pivots ntk ps' nodes'
  end.

(** [update]: the leaves and inner nodes are cleared, [_nodes] and
    [_node_to_index] are kept. *)
Definition update (v : coi_view) : outcome coi_view :=
  nodes ← collect_pivots (ntk v) (_pivots v) (_nodes v);
  compute_sets {| ntk := ntk v;
                  _constants := _constants v;
                  _nodes := nodes;
                  _leaves := [];
                  _pivots := _pivots v;
                  _inner := [];
                  _topo := _topo v;
                  _colors := _colors v;
                  _node_to_index := _node_to_index v;
                  _num_constants := _num_constants v;
                  _sequential_wrap_around := _sequential_wrap_around v |}.

(** The constructor. *)
Definition create (ntk : network.t) (pivots : list node) (sequential_wrap_around : bool)
  : outcome coi_view :=
  let c0 := get_node (get_constant ntk false) in
  let c1 := get_node (get_constant ntk true) in
  let two := negb (Nat.eqb c1 c0) in
  let m0 := emplace ∅ c0 in
  update {| ntk := ntk;
            _constants := if two then [c0; c1] else [c0];
            _nodes := [];
            _leaves := [];
            _pivots := pivots;
            _inner := [];
            _topo := [];
            _colors := [];
            _node_to_index := if two then emplace m0 c1 else m0;
            _num_constants := if two then 2%nat else 1%nat;
            _sequential_wrap_around := sequential_wrap_around |}.

(** The exposed surface. *)
Definition size (v : coi_view) : nat :=
  (_num_constants v + length (_leaves v) + length (_inner v))%nat.
Definition num_pis (v : coi_view) : nat := length (_leaves v).
Definition num_pos (v : coi_view) : nat := length (_pivots v).
Definition num_gates (v : coi_view) : nat := length (_inner v).
Definition foreach_pi (v : coi_view) : list node := _leaves v.
Definition foreach_gate (v : coi_view) : list node := _inner v.
Definition foreach_node (v : coi_view) : list node :=
  _constants v ++ _leaves v ++ _inner v.
(** [index_to_node]: the three ranges of [foreach_node]; an index past
    the last inner node reads outside [_inner]. *)
Definition index_to_node (v : coi_view) (index : nat) : outcome node :=
  if Nat.ltb index (_num_constants v) then deref (_constants v !! index)
  else if Nat.ltb index (_num_constants v + length (_leaves v))
  then deref (_leaves v !! (index - _num_constants v))
  else deref (_inner v !! (index - _num_constants v - length (_leaves v))).

(** [is_pi] of the view: membership among the leaves. *)
Definition view_is_pi (v : coi_view) (n : node) : bool :=
  bool_decide (n ∈ _leaves v).

(** [foreach_po]: the pivots as signals. *)
Definition foreach_po (v : coi_view) : list signal := map make_signal (_pivots v).

(** [_node_to_index.at( n )]: [None] is the exception of [at]. *)
Definition node_to_index (v : coi_view) (n : node) : option nat :=
  _node_to_index v !! n.

(** *** Properties of a view *)

(** Every fan-in of every inner node is a node of the view. *)
Definition fanin_closed (v : coi_view) : Prop :=
  forall n fs f,
    In n (_inner v) -> fanins (ntk v) n = Returns fs -> In f fs ->
    In (get_node f) (foreach_node v).

(** In the order of [foreach_node], every fan-in of an inner node stands
    before the node. *)
Definition topologically_ordered (v : coi_view) : Prop :=
  forall i n fs f,
    foreach_node v !! i = Some n -> In n (_inner v) ->
    fanins (ntk v) n = Returns fs -> In f fs ->
    exists j, (j < i)%nat /\ foreach_node v !! j = Some (get_node f).

(** The first step of [collect_recurse] from [n] finds nothing to add. *)
Definition root_settled (ntk : network.t) (nodes : list node) (n : node) : Prop :=
  exists d, storage ntk !! n = Some d /\
    match kind d with
    | Constant _ => True
    | PrimaryInput => n ∈ nodes
    | Gate => match children d with
              | [] => True
              | f :: _ => get_node f ∈ nodes
              end
    end.

(** What [_node_to_index[n]] reads: the index of a key, 0 for a key that
    is missing. *)
Definition lookup0 (m : gmap node nat) (n : node) : nat := default 0 (m !! n).

(** A map grown by reads of missing keys. *)
Definition same_reads (m m' : gmap node nat) : Prop :=
  m ⊆ m' /\ forall n, lookup0 m' n = lookup0 m n.

(** In the list [l] every fan-in of a node that is itself in [l] stands
    before the node. *)
Definition fanins_first (ntk : network.t) (l : list node) : Prop :=
  forall pre x post fs f,
    l = pre ++ x :: post ->
    fanins ntk x = Returns fs -> In f fs ->
    In (get_node f) l -> In (get_node f) pre.

(** [x] is [n] or in the transitive fan-in of [n]. *)
Definition in_cone (ntk : network.t) (n x : node) : Prop :=
  x = n \/ ancestor ntk x n.

(** The same state over another index map. *)
Definition with_index (m : gmap node nat) (st : topo_state) : topo_state :=
  mk_topo m (t_colors st) (t_topo st).

(** A permanently marked index. *)
Definition blocked (colors : list nat) (i : nat) : Prop := colors !! i = Some 2.

(** The nodes sorted so far are distinct and permanently marked. *)
Definition topo_inv (st : topo_state) : Prop :=
  NoDup (t_topo st)
  /\ forall x, In x (t_topo st) -> blocked (t_colors st) (lookup0 (t_index st) x).

(** How [topo_sort_rec] moves the state: the map grows by reads only,
    marks stay, and the nodes appended are below [b] and were not marked
    before. *)
Definition topo_le (b : nat) (st st' : topo_state) : Prop :=
  same_reads (t_index st) (t_index st')
  /\ length (t_colors st') = length (t_colors st)
  /\ (forall i, blocked (t_colors st) i -> blocked (t_colors st') i)
  /\ (exists added,
        t_topo st' = t_topo st ++ added
        /\ Forall (fun x => (x < b)%nat
                           /\ ~ blocked (t_colors st) (lookup0 (t_index st) x)) added)
  /\ (topo_inv st -> topo_inv st').

(** Every fan-in of a sorted node is permanently marked, and stands
    before the node when it is sorted itself. *)
Definition topo_order_inv (ntk : network.t) (st : topo_state) : Prop :=
  forall pre x post fs f,
    t_topo st = pre ++ x :: post ->
    fanins ntk x = Returns fs -> In f fs ->
    blocked (t_colors st) (lookup0 (t_index st) (get_node f))
    /\ (In (get_node f) (t_topo st) -> In (get_node f) pre).

(** The indices of a map filled by [emplace] alone: below the size of
    the map, and no two keys share one. *)
Definition dense_index (m : gmap node nat) : Prop :=
  forall k i, m !! k = Some i ->
    (i < base.size m)%nat /\ forall k', m !! k' = Some i -> k' = k.

End coi.

(** ** The refactor driver *)

Module refactor.
Import network.

Record refactor_params : Type := mk_params {
  max_pis : nat;
  skip_fanout_limit_for_roots : nat;
  progress : bool;
  verbose : bool
}.

Definition default_params : refactor_params :=
  {| max_pis := 8; skip_fanout_limit_for_roots := 1000;
     progress := false; verbose := true |}.

(** The run-time fields of [refactor_stats] are clock readings and are
    left out. *)
Record refactor_stats : Type := mk_stats { estimated_gain : nat }.

(** The nodes [foreach_gate] visits, with their running count. *)
Definition gate_range (ntk : network.t) : list (node * nat) :=
  let gs := List.filter
              (fun n => match storage ntk !! n with
                        | Some d => match kind d with Gate => true | _ => false end
                        | None => false
                        end)
              (seq 0 (length (storage ntk))) in
  combine gs (seq 0 (length gs)).

(** The gates the sweep does not skip: alive, and with at most
    [skip_fanout_limit_for_roots] fan-outs. *)
Definition is_root (ps : refactor_params) (ntk : network.t) (n : node) : bool :=
  match storage ntk !! n with
  | Some d => negb (dead d) && negb (Nat.ltb (skip_fanout_limit_for_roots ps) (fanout d))
  | None => false
  end.

Definition roots (ps : refactor_params) (ntk : network.t) : list node :=
  List.filter (is_root ps ntk) (map fst (gate_range ntk)).

Section driver.
(** Modelled from the spec: the cut collaborator ([reconv_cut2.hpp])
    is not part of the sources at hand; "given a network, a pivot
    Node, and a max-leaf-count, returns an ordered leaf list".  It
    keeps its own manager and reads the network. *)
Variable cut_manager : Type.
Variable make_cut_manager : nat -> cut_manager.
Variable reconv_driven_cut :
  cut_manager -> network.t -> node -> cut_manager * list node.

Record impl_state : Type := mk_impl {
  i_ntk : network.t;
  i_mgr : cut_manager;
  i_st : refactor_stats;
  i_candidates : nat
}.

(** [node_refactor]: "not implemented". *)
Definition node_refactor (s : impl_state) (r : node) (leaves : list node)
  : impl_state := s.

(** The callback of [foreach_gate] in [run]. *)
Definition visit (ps : refactor_params) (size : nat) (ni : node * nat)
  (s : impl_state) : outcome (bool * impl_state) :=
  let '(n, i) := ni in
  if Nat.leb size i then Returns (false, s)
  else
    d ← is_dead (i_ntk s) n;
    if (d : bool) then Returns (true, s)
    else
      fo ← fanout_size (i_ntk s) n;
      if Nat.ltb (skip_fanout_limit_for_roots ps) fo then Returns (true, s)
      else
        let '(mgr, leaves) := reconv_driven_cut (i_mgr s) (i_ntk s) n in
        let s' := {| i_ntk := i_ntk s; i_mgr := mgr;
                     i_st := i_st s; i_candidates := i_candidates s |} in
        Returns (true, node_refactor s' n leaves).

(** The cut manager after one cut for each node of [ns], in order. *)
Definition cut_each (ntk : network.t) (ns : list node) (mgr : cut_manager)
  : cut_manager :=
  fold_left (fun mgr n => fst (reconv_driven_cut mgr ntk n)) ns mgr.

Definition run (ps : refactor_params) (ntk : network.t) : outcome impl_state :=
  foreach_element (visit ps (network.size ntk)) (gate_range ntk)
    {| i_ntk := ntk; i_mgr := make_cut_manager (max_pis ps);
       i_st := {| estimated_gain := 0 |}; i_candidates := 0 |}.

(** [refactor( ntk, ps, pst )]: the network after the sweep and the
    statistics. *)
Definition refactor (ntk : network.t) (ps : refactor_params)
  : outcome (network.t * refactor_stats) :=
  s ← run ps ntk;
  Returns (i_ntk s, i_st s).

End driver.
End refactor.

(** ** The networks of the test suite *)

Module examples.
Import network.

Definition pi : node_data := mk_node PrimaryInput [] 0 false.
Definition and_gate (a b : node) : node_data :=
  mk_node Gate [mk_signal a false; mk_signal b false] 0 false.

(** [test/views/coi_view.cpp]: five inputs (nodes 1..5), gates
    [f1 .. f8] at nodes 6..13. *)
Definition coi_test_aig : network.t :=
  {| storage :=
       [ mk_node (Constant false) [] 0 false; pi; pi; pi; pi; pi;
         and_gate 1 2; and_gate 3 4; and_gate 6 7; and_gate 5 7;
         and_gate 6 8; and_gate 7 8; and_gate 10 11; and_gate 9 12 ];
     outputs := [mk_signal 13 false];
     constant_true := mk_signal 0 true |}.

(** [test/algorithms/refactor.cpp]: [f = a & (b & a)]. *)
Definition refactor_test_aig : network.t :=
  {| storage :=
       [ mk_node (Constant false) [] 0 false; pi; pi;
         and_gate 1 2; and_gate 1 3 ];
     outputs := [mk_signal 4 false];
     constant_true := mk_signal 0 true |}.

Definition aig_gate (ins : list bool) : bool := forallb (fun b => b) ins.

(** A network with a cycle, as a sequential structure that wraps around
    gives: the gates 2 and 3 are the first fan-in of each other. *)
Definition cyclic_net : network.t :=
  {| storage :=
       [ mk_node (Constant false) [] 0 false; pi; and_gate 3 1; and_gate 2 1 ];
     outputs := [mk_signal 3 false];
     constant_true := mk_signal 0 true |}.

End examples.

(** * Proofs *)

Import kitty index_list mig_enumerative.

#[local] Open Scope Z_scope.

(** * Truth-table algebra *)

Lemma wf_high_bits (w : nat) (x : Z) :
  wf w x -> forall n, Z.of_nat w <= n -> Z.testbit x n = false.
Proof.
  intros [Hlo Hhi] n Hn.
  apply (proj1 (Z.bounded_iff_bits_nonneg (Z.of_nat w) x ltac:(lia) Hlo) Hhi n Hn).
Qed.

Lemma wfb_wf (w : nat) (x : Z) : wfb w x = true <-> wf w x.
Proof. unfold wfb, wf. rewrite andb_true_iff, Z.leb_le, Z.ltb_lt. tauto. Qed.

Lemma testbit_tt_not (w : nat) (x n : Z) :
  0 <= n ->
  Z.testbit (tt_not w x) n = negb (Z.testbit x n) && (n <? Z.of_nat w).
Proof.
  intros Hn. unfold tt_not.
  rewrite Z.land_spec, Z.lnot_spec, Z.testbit_ones_nonneg by lia. reflexivity.
Qed.

Ltac bitwise n Hn :=
  apply Z.bits_inj'; intros n Hn;
  unfold tt_and, tt_or, ternary_majority, const1;
  repeat first
    [ rewrite Z.land_spec | rewrite Z.lor_spec | rewrite Z.lxor_spec
    | rewrite testbit_tt_not by exact Hn
    | rewrite Z.testbit_ones_nonneg by lia
    | rewrite Z.bits_0 ].

Lemma wf_tt_not (w : nat) (x : Z) : wf w (tt_not w x).
Proof.
  unfold tt_not, wf. rewrite Z.land_ones by lia.
  apply Z.mod_pos_bound. apply Z.pow_pos_nonneg; lia.
Qed.

Lemma wf_const1 (w : nat) : wf w (const1 w).
Proof.
  unfold const1, wf. rewrite Z.ones_equiv.
  assert (0 < 2 ^ Z.of_nat w) by (apply Z.pow_pos_nonneg; lia). lia.
Qed.

Lemma tt_not_involutive (w : nat) (x : Z) : wf w x -> tt_not w (tt_not w x) = x.
Proof.
  intros Hx. bitwise n Hn.
  destruct (Z.ltb_spec n (Z.of_nat w)) as [Hlt | Hge].
  - destruct (Z.testbit x n); reflexivity.
  - rewrite (wf_high_bits w x Hx n Hge). reflexivity.
Qed.

Lemma tt_not_const0 (w : nat) : tt_not w 0 = const1 w.
Proof. bitwise n Hn. reflexivity. Qed.

Lemma is_const0_eq (x : Z) : is_const0 x = true <-> x = 0.
Proof. unfold is_const0. apply Z.eqb_eq. Qed.

Lemma equal_eq (x y : Z) : equal x y = true <-> x = y.
Proof. unfold equal. apply Z.eqb_eq. Qed.

Lemma tt_not_zero_all_true (w : nat) (x : Z) :
  wf w x -> tt_not w x = 0 -> x = const1 w.
Proof.
  intros Hx H0. bitwise n Hn.
  assert (Hb := f_equal (fun z => Z.testbit z n) H0). cbv beta in Hb.
  rewrite testbit_tt_not, Z.bits_0 in Hb by exact Hn.
  destruct (Z.ltb_spec n (Z.of_nat w)) as [Hlt | Hge].
  - destruct (Z.testbit x n); [reflexivity | discriminate].
  - apply (wf_high_bits w x Hx n Hge).
Qed.

Lemma tt_not_all_true (w : nat) : tt_not w (const1 w) = 0.
Proof.
  bitwise n Hn. destruct (n <? Z.of_nat w); reflexivity.
Qed.

Lemma tt_not_zero_bit (w : nat) (x i : Z) :
  0 <= i < Z.of_nat w -> Z.testbit x i = false -> tt_not w x <> 0.
Proof.
  intros Hi Hb H0.
  assert (Hc := f_equal (fun z => Z.testbit z i) H0). cbv beta in Hc.
  rewrite testbit_tt_not, Z.bits_0, Hb in Hc by lia.
  destruct (Z.ltb_spec i (Z.of_nat w)); [discriminate | lia].
Qed.

Lemma maj_const0_mid (x y : Z) : ternary_majority x 0 y = tt_and x y.
Proof. bitwise n Hn. destruct (Z.testbit x n), (Z.testbit y n); reflexivity. Qed.

Lemma maj_const0_last (x y : Z) : ternary_majority x y 0 = tt_and x y.
Proof. bitwise n Hn. destruct (Z.testbit x n), (Z.testbit y n); reflexivity. Qed.

Lemma maj_const1_mid (w : nat) (x y : Z) :
  wf w x -> wf w y -> ternary_majority x (const1 w) y = tt_or x y.
Proof.
  intros Hx Hy. bitwise n Hn.
  destruct (Z.ltb_spec n (Z.of_nat w)) as [Hlt | Hge].
  - destruct (Z.testbit x n), (Z.testbit y n); reflexivity.
  - rewrite (wf_high_bits w x Hx n Hge), (wf_high_bits w y Hy n Hge). reflexivity.
Qed.

Lemma maj_const1_last (w : nat) (x y : Z) :
  wf w x -> wf w y -> ternary_majority x y (const1 w) = tt_or x y.
Proof.
  intros Hx Hy. bitwise n Hn.
  destruct (Z.ltb_spec n (Z.of_nat w)) as [Hlt | Hge].
  - destruct (Z.testbit x n), (Z.testbit y n); reflexivity.
  - rewrite (wf_high_bits w x Hx n Hge), (wf_high_bits w y Hy n Hge). reflexivity.
Qed.

(** * The engine *)

Lemma u32_small (z : Z) : 0 <= z < 2 ^ 32 -> u32 z = z.
Proof. intros H. unfold u32. apply Z.mod_small. exact H. Qed.

Lemma u32_nonneg (z : Z) : 0 <= u32 z.
Proof. unfold u32. apply Z.mod_pos_bound. reflexivity. Qed.

Lemma make_lit_small (i : Z) (inv : bool) :
  0 <= i -> i + 1 < 2 ^ 31 -> make_lit i inv = (i + 1) * 2 + Z.b2z inv.
Proof.
  intros H0 H1. unfold make_lit. apply u32_small.
  change (2 ^ 32) with (2 ^ 31 * 2). destruct inv; simpl; lia.
Qed.

Lemma u32_idem (z : Z) : u32 (u32 z) = u32 z.
Proof. unfold u32. apply Z.mod_mod. discriminate. Qed.

Lemma u32_succ_congr (a b : Z) : u32 a = u32 b -> u32 (a + 1) = u32 (b + 1).
Proof.
  unfold u32. intros H.
  rewrite <- (Zplus_mod_idemp_l a), <- (Zplus_mod_idemp_l b), H. reflexivity.
Qed.

Lemma make_lit_congr (a b : Z) (inv : bool) :
  u32 a = u32 b -> make_lit a inv = make_lit b inv.
Proof.
  intros H. apply u32_succ_congr in H. unfold make_lit, u32 in *.
  rewrite <- (Zplus_mod_idemp_l ((a + 1) * 2)), <- (Zmult_mod_idemp_l (a + 1)), H.
  rewrite Zmult_mod_idemp_l, Zplus_mod_idemp_l. reflexivity.
Qed.

Lemma make_lit_nonneg (i : Z) (inv : bool) : 0 <= make_lit i inv.
Proof. apply u32_nonneg. Qed.

Lemma make_lit_half (i : Z) (inv : bool) :
  0 <= i -> i + 1 < 2 ^ 31 -> make_lit i inv / 2 = i + 1.
Proof.
  intros H0 H1. rewrite make_lit_small by assumption.
  rewrite Z.div_add_l by lia. destruct inv; simpl; rewrite ?Z.add_0_r; reflexivity.
Qed.

Lemma make_lit_odd (i : Z) (inv : bool) :
  0 <= i -> i + 1 < 2 ^ 31 -> Z.odd (make_lit i inv) = inv.
Proof.
  intros H0 H1. rewrite make_lit_small by assumption.
  replace ((i + 1) * 2 + Z.b2z inv) with (Z.b2z inv + 2 * (i + 1)) by lia.
  rewrite Z.odd_add_mul_2. destruct inv; reflexivity.
Qed.

Lemma lookup_map {A B : Type} (f : A -> B) (l : list A) (i : nat) :
  map f l !! i = option_map f (l !! i).
Proof.
  revert i. induction l as [| a l IH]; intros [| i]; simpl; try reflexivity. apply IH.
Qed.

Section engine_facts.
Context {K : Type}.
Variable w : nat.
Variable tts : K -> Z.

Lemma get_tt_lit_value (lit : Z) (cands : list K) (v : Z) :
  0 <= lit ->
  get_tt_from_lit w tts lit cands = Some v ->
  lit_value w (0 :: map tts cands) lit = Some v.
Proof.
  intros Hlit. unfold get_tt_from_lit, lit_value.
  destruct (Z.eqb_spec (lit / 2) 0) as [| Hne]; [discriminate |].
  assert (Hpos : 0 <= lit / 2) by (apply Z.div_pos; lia).
  destruct (Z.ltb_spec lit 0); [lia |].
  replace (Z.to_nat (lit / 2)) with (S (Z.to_nat (lit / 2 - 1))) by lia.
  simpl. rewrite lookup_map.
  destruct (cands !! Z.to_nat (lit / 2 - 1)) as [it |]; simpl; [| discriminate].
  destruct (Z.odd lit); exact (fun H => H).
Qed.

Lemma get_tt_wf (lit : Z) (cands : list K) (v : Z) :
  Forall (fun c => wf w (tts c)) cands ->
  get_tt_from_lit w tts lit cands = Some v -> wf w v.
Proof.
  intros Hall. unfold get_tt_from_lit.
  destruct (lit / 2 =? 0); [discriminate |].
  destruct (cands !! Z.to_nat (lit / 2 - 1)) as [it |] eqn:Hit; [| discriminate].
  intros H. injection H as <-.
  destruct (Z.odd lit); [apply wf_tt_not |].
  rewrite Forall_forall in Hall. apply Hall.
  eapply list_elem_of_lookup_2. exact Hit.
Qed.

Lemma get_tt_make_lit (cands : list K) (i : nat) (it : K) (inv : bool) :
  cands !! i = Some it ->
  Z.of_nat (length cands) < 2 ^ 31 ->
  get_tt_from_lit w tts (make_lit (Z.of_nat i) inv) cands
  = Some (if inv then tt_not w (tts it) else tts it).
Proof.
  intros Hit Hlen.
  assert (Hi : (i < length cands)%nat) by (eapply lookup_lt_Some; exact Hit).
  unfold get_tt_from_lit.
  rewrite make_lit_half, make_lit_odd by lia.
  destruct (Z.eqb_spec (Z.of_nat i + 1) 0); [lia |].
  replace (Z.to_nat (Z.of_nat i + 1 - 1)) with i by lia.
  rewrite Hit. reflexivity.
Qed.

Lemma lit_value_const0 (vals : list Z) : lit_value w (0 :: vals) 0 = Some 0.
Proof. reflexivity. Qed.

Lemma lit_value_const1 (vals : list Z) : lit_value w (0 :: vals) 1 = Some (const1 w).
Proof. unfold lit_value. simpl. rewrite tt_not_const0. reflexivity. Qed.

Lemma evaluate_output_only (n : Z) (inputs : list Z) (lit v : Z) :
  n = Z.of_nat (length inputs) ->
  lit_value w (0 :: inputs) lit = Some v ->
  evaluate w (add_output (create n) lit) inputs = Some [v].
Proof.
  intros -> Hv. unfold evaluate. simpl. rewrite Z.eqb_refl, Hv. reflexivity.
Qed.

Lemma lit_value_app (vals : list Z) (g lit v : Z) :
  lit_value w vals lit = Some v -> lit_value w (vals ++ [g]) lit = Some v.
Proof.
  unfold lit_value. destruct (lit <? 0); [discriminate |].
  destruct (vals !! Z.to_nat (lit / 2)) as [x |] eqn:Hx; [| discriminate].
  rewrite (lookup_app_l_Some _ _ _ _ Hx). exact (fun H => H).
Qed.

Lemma lit_value_last (vals : list Z) (g lit : Z) :
  lit = Z.of_nat (length vals) * 2 ->
  lit_value w (vals ++ [g]) lit = Some g.
Proof.
  intros ->. unfold lit_value.
  destruct (Z.ltb_spec (Z.of_nat (length vals) * 2) 0); [lia |].
  rewrite Z.div_mul by lia. rewrite Nat2Z.id.
  rewrite Z.mul_comm, Z.odd_mul. simpl.
  rewrite list_lookup_middle by reflexivity. reflexivity.
Qed.

Lemma evaluate_emit (n : Z) (inputs : list Z) (a b c va vb vc : Z)
  (il : mig_index_list) :
  n = Z.of_nat (length inputs) ->
  lit_value w (0 :: inputs) a = Some va ->
  lit_value w (0 :: inputs) b = Some vb ->
  lit_value w (0 :: inputs) c = Some vc ->
  emit (create n) a b c = Returns (Some il) ->
  evaluate w il inputs = Some [ternary_majority va vb vc].
Proof.
  intros -> Ha Hb Hc Hemit. unfold emit in Hemit. simpl in Hemit.
  injection Hemit as <-. unfold evaluate. simpl.
  rewrite Z.eqb_refl, Ha, Hb, Hc. cbn [replay_gates lit_values].
  change (0 :: inputs ++ [ternary_majority va vb vc])
    with ((0 :: inputs) ++ [ternary_majority va vb vc]).
  rewrite lit_value_last; [reflexivity |].
  unfold num_gates. simpl length. lia.
Qed.

End engine_facts.

Section engine_soundness.
Context {K : Type}.
Variable w : nat.
Variable tts : K -> Z.
Variable target : Z.
Variable cands : list K.
Hypothesis target_wf : wf w target.
Hypothesis cands_wf : Forall (fun c => wf w (tts c)) cands.

Local Abbreviation inputs := (map tts cands).
Local Abbreviation ninputs := (Z.of_nat (length cands)).
Local Abbreviation realizes := (mig_enumerative.realizes w tts target cands).

Lemma n_inputs : ninputs = Z.of_nat (length inputs).
Proof. rewrite length_map. reflexivity. Qed.

Lemma resub0_sound (its : list K) :
  forall (pre : list K) (i : Z) (il' : mig_index_list),
    cands = pre ++ its ->
    i = Z.of_nat (length pre) ->
    ninputs < 2 ^ 31 ->
    resub0 tts target (tt_not w target) (create ninputs) its i = Some il' ->
    realizes il'.
Proof.
  induction its as [| it its IH]; intros pre i il' Hc Hi Hn H; simpl in H.
  - discriminate.
  - assert (Hlen : Z.of_nat (length pre) + 1 <= ninputs).
    { rewrite Hc, length_app. simpl. lia. }
    assert (Hit : cands !! length pre = Some it).
    { rewrite Hc. apply list_lookup_middle. reflexivity. }
    assert (Hv : forall inv,
               lit_value w (0 :: inputs) (make_lit i inv)
               = Some (if inv then tt_not w (tts it) else tts it)).
    { intros inv. apply get_tt_lit_value; [apply make_lit_nonneg |].
      subst i. apply get_tt_make_lit; [exact Hit | exact Hn]. }
    destruct (equal target (tts it)) eqn:E1.
    + injection H as <-. apply equal_eq in E1.
      unfold mig_enumerative.realizes. rewrite (evaluate_output_only w ninputs inputs _ _ n_inputs (Hv false)).
      rewrite E1. reflexivity.
    + destruct (equal (tt_not w target) (tts it)) eqn:E2.
      * injection H as <-. apply equal_eq in E2.
        unfold mig_enumerative.realizes. rewrite (evaluate_output_only w ninputs inputs _ _ n_inputs (Hv true)).
        rewrite <- E2, tt_not_involutive by exact target_wf. reflexivity.
      * apply (IH (pre ++ [it]) (u32 (i + 1)) il').
        -- rewrite <- app_assoc. exact Hc.
        -- rewrite length_app. simpl. subst i. rewrite u32_small; lia.
        -- exact Hn.
        -- exact H.
Qed.

Lemma emit_realizes (a b c va vb vc : Z) (il' : mig_index_list) :
  lit_value w (0 :: inputs) a = Some va ->
  lit_value w (0 :: inputs) b = Some vb ->
  lit_value w (0 :: inputs) c = Some vc ->
  target = ternary_majority va vb vc ->
  emit (create ninputs) a b c = Returns (Some il') ->
  realizes il'.
Proof.
  intros Ha Hb Hc Ht He. unfold mig_enumerative.realizes.
  rewrite (evaluate_emit w ninputs inputs a b c va vb vc il' n_inputs Ha Hb Hc He).
  rewrite Ht. reflexivity.
Qed.

Lemma resub1_const_sound (a c x : Z) (rest : list (Z * Z)) (il' : mig_index_list) :
  lit_value w (0 :: inputs) a = Some x ->
  wf w x ->
  Forall nonneg_pair rest ->
  resub1_const w tts target cands (create ninputs) a c x rest = Returns (Some il') ->
  realizes il'.
Proof.
  intros Ha Hx Hrest. induction Hrest as [| [b1 b2] rest [Hb1 Hb2] Hrest IH];
    simpl; intros H; [discriminate |].
  simpl in Hb1, Hb2.
  destruct (get_tt_from_lit w tts b1 cands) as [y1 |] eqn:Hy1; simpl in H; [| discriminate].
  assert (Hy1wf := get_tt_wf w tts _ _ _ cands_wf Hy1).
  apply get_tt_lit_value in Hy1; [| exact Hb1].
  destruct ((c =? 0) && equal target (tt_and x y1)) eqn:E1.
  { apply andb_true_iff in E1 as [Ec Et]. apply Z.eqb_eq in Ec. apply equal_eq in Et.
    subst c. eapply emit_realizes; [exact Ha | apply lit_value_const0 | exact Hy1 | | exact H].
    rewrite maj_const0_mid. exact Et. }
  destruct ((c =? 1) && equal target (tt_or x y1)) eqn:E2.
  { apply andb_true_iff in E2 as [Ec Et]. apply Z.eqb_eq in Ec. apply equal_eq in Et.
    subst c. eapply emit_realizes; [exact Ha | apply lit_value_const1 | exact Hy1 | | exact H].
    rewrite (maj_const1_mid w) by assumption. exact Et. }
  destruct (b2 <? 2); [apply IH; exact H |].
  destruct (get_tt_from_lit w tts b2 cands) as [y2 |] eqn:Hy2; simpl in H; [| discriminate].
  assert (Hy2wf := get_tt_wf w tts _ _ _ cands_wf Hy2).
  apply get_tt_lit_value in Hy2; [| exact Hb2].
  destruct ((c =? 0) && equal target (tt_and x y2)) eqn:E3.
  { apply andb_true_iff in E3 as [Ec Et]. apply Z.eqb_eq in Ec. apply equal_eq in Et.
    subst c. eapply emit_realizes; [exact Ha | apply lit_value_const0 | exact Hy2 | | exact H].
    rewrite maj_const0_mid. exact Et. }
  destruct ((c =? 1) && equal target (tt_or x y2)) eqn:E4.
  { apply andb_true_iff in E4 as [Ec Et]. apply Z.eqb_eq in Ec. apply equal_eq in Et.
    subst c. eapply emit_realizes; [exact Ha | apply lit_value_const1 | exact Hy2 | | exact H].
    rewrite (maj_const1_mid w) by assumption. exact Et. }
  apply IH. exact H.
Qed.

Lemma resub1_maj_sound (a c x y : Z) (rest : list (Z * Z)) (il' : mig_index_list) :
  lit_value w (0 :: inputs) a = Some x ->
  lit_value w (0 :: inputs) c = Some y ->
  wf w x -> wf w y ->
  Forall nonneg_pair rest ->
  resub1_maj w tts target cands (create ninputs) a c x y rest = Returns (Some il') ->
  realizes il'.
Proof.
  intros Ha Hc Hx Hy Hrest. induction Hrest as [| [b1 b2] rest [Hb1 Hb2] Hrest IH];
    simpl; intros H; [discriminate |].
  simpl in Hb1, Hb2.
  destruct (get_tt_from_lit w tts b1 cands) as [z1 |] eqn:Hz1; simpl in H; [| discriminate].
  apply get_tt_lit_value in Hz1; [| exact Hb1].
  destruct (equal target (ternary_majority x y z1)) eqn:E1.
  { apply equal_eq in E1.
    eapply emit_realizes; [exact Ha | exact Hc | exact Hz1 | exact E1 | exact H]. }
  destruct (b2 <? 2).
  - destruct ((b2 =? 0) && equal target (tt_and x y)) eqn:E2.
    { apply andb_true_iff in E2 as [Ec Et]. apply Z.eqb_eq in Ec. apply equal_eq in Et.
      subst b2. eapply emit_realizes; [exact Ha | exact Hc | apply lit_value_const0 | | exact H].
      rewrite maj_const0_last. exact Et. }
    destruct ((b2 =? 1) && equal target (tt_or x y)) eqn:E3.
    { apply andb_true_iff in E3 as [Ec Et]. apply Z.eqb_eq in Ec. apply equal_eq in Et.
      subst b2. eapply emit_realizes; [exact Ha | exact Hc | apply lit_value_const1 | | exact H].
      rewrite (maj_const1_last w) by assumption. exact Et. }
    apply IH. exact H.
  - destruct (get_tt_from_lit w tts b2 cands) as [z2 |] eqn:Hz2; simpl in H; [| discriminate].
    apply get_tt_lit_value in Hz2; [| exact Hb2].
    destruct (equal target (ternary_majority x y z2)) eqn:E4.
    { apply equal_eq in E4.
      eapply emit_realizes; [exact Ha | exact Hc | exact Hz2 | exact E4 | exact H]. }
    apply IH. exact H.
Qed.

Lemma resub1_sound (pairs : list (Z * Z)) (il' : mig_index_list) :
  Forall nonneg_pair pairs ->
  resub1 w tts target cands (create ninputs) pairs = Returns (Some il') ->
  realizes il'.
Proof.
  intros Hp. induction Hp as [| [a c] rest [Ha Hc] Hrest IH];
    simpl; intros H; [discriminate |].
  simpl in Ha, Hc.
  destruct (get_tt_from_lit w tts a cands) as [x |] eqn:Hx; simpl in H; [| discriminate].
  assert (Hxwf := get_tt_wf w tts _ _ _ cands_wf Hx).
  apply get_tt_lit_value in Hx; [| exact Ha].
  destruct (c <? 2).
  - destruct (resub1_const w tts target cands (create ninputs) a c x rest) as [[r |] | | |] eqn:Hr;
      simpl in H; try discriminate.
    + injection H as <-. exact (resub1_const_sound a c x rest r Hx Hxwf Hrest Hr).
    + apply IH. exact H.
  - destruct (get_tt_from_lit w tts c cands) as [y |] eqn:Hy; simpl in H; [| discriminate].
    assert (Hywf := get_tt_wf w tts _ _ _ cands_wf Hy).
    apply get_tt_lit_value in Hy; [| exact Hc].
    destruct (resub1_maj w tts target cands (create ninputs) a c x y rest) as [[r |] | | |] eqn:Hr;
      simpl in H; try discriminate.
    + injection H as <-.
      exact (resub1_maj_sound a c x y rest r Hx Hy Hxwf Hywf Hrest Hr).
    + apply IH. exact H.
Qed.

End engine_soundness.

Section pairs_shape.
Context {K : Type}.
Variable w : nat.
Variable tts : K -> Z.

Lemma maj_filter_nonneg (target ti tj i j : Z) :
  Forall nonneg_pair (maj_filter w target ti tj i j).
Proof.
  unfold maj_filter.
  repeat match goal with |- context [if ?b then _ else _] => destruct b end;
    repeat constructor; apply make_lit_nonneg.
Qed.

Lemma imp_filter_nonneg (target ti i : Z) :
  Forall nonneg_pair (imp_filter w target ti i).
Proof.
  unfold imp_filter.
  repeat match goal with |- context [if ?b then _ else _] => destruct b end;
    repeat constructor; simpl; try apply make_lit_nonneg; lia.
Qed.

Lemma collect_inner_nonneg (target ti i : Z) (jts : list K) :
  forall j, Forall nonneg_pair (collect_inner w tts target ti i jts j).
Proof.
  induction jts as [| jt jts IH]; intros j; simpl; [constructor |].
  apply Forall_app. split; [apply maj_filter_nonneg | apply IH].
Qed.

Lemma collect_maj1pairs_nonneg (target : Z) (its : list K) :
  forall i, Forall nonneg_pair (collect_maj1pairs w tts target its i).
Proof.
  induction its as [| it its IH]; intros i; simpl; [constructor |].
  apply Forall_app. split; [apply collect_inner_nonneg |].
  apply Forall_app. split; [apply imp_filter_nonneg | apply IH].
Qed.

End pairs_shape.

(** ** Shape of the results *)

Section engine_shape.
Context {K : Type}.
Variable w : nat.
Variable tts : K -> Z.

Lemma resub0_gates (target ntarget : Z) (il : mig_index_list) (its : list K) :
  forall i il', resub0 tts target ntarget il its i = Some il' -> gates il' = gates il.
Proof.
  induction its as [| it its IH]; intros i il' H; simpl in H; [discriminate |].
  destruct (equal target (tts it)); [injection H as <-; reflexivity |].
  destruct (equal ntarget (tts it)); [injection H as <-; reflexivity |].
  eapply IH. exact H.
Qed.

Lemma emit_gates (il il' : mig_index_list) (a b c : Z) :
  emit il a b c = Returns (Some il') -> length (gates il') = S (length (gates il)).
Proof.
  unfold emit. simpl. intros H. injection H as <-. simpl.
  rewrite length_app. simpl. lia.
Qed.

Ltac walk H :=
  repeat match type of H with
    | context [deref ?o] => destruct o; simpl in H; [| discriminate]
    | (if ?b then _ else _) = _ => destruct b
    | emit _ _ _ _ = _ => exact (emit_gates _ _ _ _ _ H)
    end.

Lemma resub1_const_gates (target : Z) (cands : list K) (il il' : mig_index_list)
  (a c x : Z) (rest : list (Z * Z)) :
  resub1_const w tts target cands il a c x rest = Returns (Some il') ->
  length (gates il') = S (length (gates il)).
Proof.
  induction rest as [| [b1 b2] rest IH]; simpl; intros H; [discriminate |].
  walk H; try (apply IH; exact H).
Qed.

Lemma resub1_maj_gates (target : Z) (cands : list K) (il il' : mig_index_list)
  (a c x y : Z) (rest : list (Z * Z)) :
  resub1_maj w tts target cands il a c x y rest = Returns (Some il') ->
  length (gates il') = S (length (gates il)).
Proof.
  induction rest as [| [b1 b2] rest IH]; simpl; intros H; [discriminate |].
  walk H; try (apply IH; exact H).
Qed.

Lemma resub1_gates (target : Z) (cands : list K) (il il' : mig_index_list)
  (pairs : list (Z * Z)) :
  resub1 w tts target cands il pairs = Returns (Some il') ->
  length (gates il') = S (length (gates il)).
Proof.
  induction pairs as [| [a c] rest IH]; simpl; intros H; [discriminate |].
  destruct (get_tt_from_lit w tts a cands) as [x |]; simpl in H; [| discriminate].
  destruct (c <? 2).
  - destruct (resub1_const w tts target cands il a c x rest) as [[r |] | | |] eqn:Hr;
      simpl in H; try discriminate.
    + injection H as <-. eapply resub1_const_gates. exact Hr.
    + apply IH. exact H.
  - destruct (get_tt_from_lit w tts c cands) as [y |]; simpl in H; [| discriminate].
    destruct (resub1_maj w tts target cands il a c x y rest) as [[r |] | | |] eqn:Hr;
      simpl in H; try discriminate.
    + injection H as <-. eapply resub1_maj_gates. exact Hr.
    + apply IH. exact H.
Qed.

(** The loops of 1-resub hold no assertion. *)
Ltac no_assert H IH :=
  repeat match type of H with
    | context [deref ?o] => destruct o; simpl in H; [| discriminate]
    | (if ?b then _ else _) = _ => destruct b
    | emit _ _ _ _ = _ => discriminate
    | Returns _ = _ => discriminate
    | _ => exact (IH H)
    end.

Lemma resub1_const_no_assert (target : Z) (cands : list K) (il : mig_index_list)
  (a c x : Z) (rest : list (Z * Z)) :
  resub1_const w tts target cands il a c x rest <> AssertFails.
Proof.
  induction rest as [| [b1 b2] rest IH]; simpl; intros H; [discriminate |].
  no_assert H IH.
Qed.

Lemma resub1_maj_no_assert (target : Z) (cands : list K) (il : mig_index_list)
  (a c x y : Z) (rest : list (Z * Z)) :
  resub1_maj w tts target cands il a c x y rest <> AssertFails.
Proof.
  induction rest as [| [b1 b2] rest IH]; simpl; intros H; [discriminate |].
  no_assert H IH.
Qed.

Lemma resub1_no_assert (target : Z) (cands : list K) (il : mig_index_list)
  (pairs : list (Z * Z)) :
  resub1 w tts target cands il pairs <> AssertFails.
Proof.
  induction pairs as [| [a c] rest IH]; simpl; intros H; [discriminate |].
  destruct (get_tt_from_lit w tts a cands) as [x |]; simpl in H; [| discriminate].
  destruct (c <? 2).
  - destruct (resub1_const w tts target cands il a c x rest) as [[r |] | | |] eqn:Hr;
      simpl in H; try discriminate.
    + exact (IH H).
    + exact (resub1_const_no_assert _ _ _ _ _ _ _ Hr).
  - destruct (get_tt_from_lit w tts c cands) as [y |]; simpl in H; [| discriminate].
    destruct (resub1_maj w tts target cands il a c x y rest) as [[r |] | | |] eqn:Hr;
      simpl in H; try discriminate.
    + exact (IH H).
    + exact (resub1_maj_no_assert _ _ _ _ _ _ _ _ Hr).
Qed.

(** Every way out of the engine, spelled out. *)
Lemma resyn_cases (target care : Z) (cands : list K) (max_size : Z)
  (r : outcome (option mig_index_list)) :
  mig_enumerative_resyn w tts target care cands max_size = r ->
  let il := create (Z.of_nat (length cands)) in
  (tt_not w care <> 0 /\ r = AssertFails)
  \/ tt_not w care = 0 /\
     ((target = 0 /\ r = Returns (Some (add_output il 0)))
      \/ (target <> 0 /\ tt_not w target = 0 /\ r = Returns (Some (add_output il 1)))
      \/ (target <> 0 /\ tt_not w target <> 0 /\
          ((exists il', resub0 tts target (tt_not w target) il cands 0 = Some il'
                        /\ r = Returns (Some il'))
           \/ (resub0 tts target (tt_not w target) il cands 0 = None /\
               ((max_size = 0 /\ r = Returns None)
                \/ (max_size <> 0 /\
                    match resub1 w tts target cands il
                            (collect_maj1pairs w tts target cands 0) with
                    | Returns (Some il') => r = Returns (Some il')
                    | Returns None => r = Returns None
                    | AssertFails => r = AssertFails
                    | OutOfRange => r = OutOfRange
                    | OutOfFuel => r = OutOfFuel
                    end)))))).
Proof.
  intros <-. unfold mig_enumerative_resyn. cbv zeta.
  unfold is_const0.
  destruct (Z.eqb_spec (tt_not w care) 0) as [Hc | Hc]; simpl; [right | left; tauto].
  split; [exact Hc |].
  destruct (Z.eqb_spec target 0) as [Ht | Ht]; [left; tauto | right].
  destruct (Z.eqb_spec (tt_not w target) 0) as [Hn | Hn]; [left; tauto | right].
  split; [exact Ht |]. split; [exact Hn |].
  destruct (resub0 tts target (tt_not w target) _ cands 0) as [il' |] eqn:H0.
  - left. exists il'. tauto.
  - right. split; [reflexivity |].
    destruct (Z.eqb_spec max_size 0) as [Hm | Hm]; [left; tauto | right].
    split; [exact Hm |].
    destruct (resub1 w tts target cands _ _) as [[il' |] | | |]; simpl; try reflexivity.
    destruct (max_size =? 1); reflexivity.
Qed.

End engine_shape.

(** ** The engine reads the candidates through their truth tables only *)

Section engine_tables.
Context {K : Type}.
Variable w : nat.
Variable tts : K -> Z.

Lemma get_tt_tables (lit : Z) (cands : list K) :
  get_tt_from_lit w tts lit cands = get_tt_from_lit w table lit (map tts cands).
Proof.
  unfold get_tt_from_lit. destruct (lit / 2 =? 0); [reflexivity |].
  rewrite lookup_map. destruct (cands !! Z.to_nat (lit / 2 - 1)); reflexivity.
Qed.

Lemma resub0_tables (target ntarget : Z) (il : mig_index_list) (its : list K) :
  forall i, resub0 tts target ntarget il its i
            = resub0 table target ntarget il (map tts its) i.
Proof.
  induction its as [| it its IH]; intros i; simpl; [reflexivity |].
  rewrite IH. reflexivity.
Qed.

Lemma collect_inner_tables (target ti i : Z) (jts : list K) :
  forall j, collect_inner w tts target ti i jts j
            = collect_inner w table target ti i (map tts jts) j.
Proof.
  induction jts as [| jt jts IH]; intros j; simpl; [reflexivity |].
  rewrite IH. reflexivity.
Qed.

Lemma collect_maj1pairs_tables (target : Z) (its : list K) :
  forall i, collect_maj1pairs w tts target its i
            = collect_maj1pairs w table target (map tts its) i.
Proof.
  induction its as [| it its IH]; intros i; simpl; [reflexivity |].
  rewrite IH, collect_inner_tables. reflexivity.
Qed.

Lemma resub1_const_tables (target : Z) (cands : list K) (il : mig_index_list)
  (a c x : Z) (rest : list (Z * Z)) :
  resub1_const w tts target cands il a c x rest
  = resub1_const w table target (map tts cands) il a c x rest.
Proof.
  induction rest as [| [b1 b2] rest IH]; simpl; [reflexivity |].
  rewrite IH, !get_tt_tables. reflexivity.
Qed.

Lemma resub1_maj_tables (target : Z) (cands : list K) (il : mig_index_list)
  (a c x y : Z) (rest : list (Z * Z)) :
  resub1_maj w tts target cands il a c x y rest
  = resub1_maj w table target (map tts cands) il a c x y rest.
Proof.
  induction rest as [| [b1 b2] rest IH]; simpl; [reflexivity |].
  rewrite IH, !get_tt_tables. reflexivity.
Qed.

Lemma resub1_tables (target : Z) (cands : list K) (il : mig_index_list)
  (pairs : list (Z * Z)) :
  resub1 w tts target cands il pairs
  = resub1 w table target (map tts cands) il pairs.
Proof.
  induction pairs as [| [a c] rest IH]; simpl; [reflexivity |].
  rewrite IH, !get_tt_tables.
  destruct (get_tt_from_lit w table a (map tts cands)) as [x |]; simpl; [| reflexivity].
  rewrite resub1_const_tables.
  destruct (get_tt_from_lit w table c (map tts cands)) as [y |]; simpl;
    [rewrite resub1_maj_tables |]; reflexivity.
Qed.

Lemma resyn_tables (target care : Z) (cands : list K) (max_size : Z) :
  mig_enumerative_resyn w tts target care cands max_size
  = mig_enumerative_resyn w table target care (map tts cands) max_size.
Proof.
  unfold mig_enumerative_resyn.
  rewrite length_map, resub0_tables, collect_maj1pairs_tables, resub1_tables.
  reflexivity.
Qed.

End engine_tables.

(** ** The recorded relations, by position *)

Section prefilter_positions.
Context {K : Type}.
Variable w : nat.
Variable tts : K -> Z.
Variable target : Z.

(** The counters are [uint32_t] and enter the record through [make_lit]
    only, which works modulo [2^32]. *)
Lemma maj_filter_congr (ti tj i i' j j' : Z) :
  u32 i = u32 i' -> u32 j = u32 j' ->
  maj_filter w target ti tj i j = maj_filter w target ti tj i' j'.
Proof.
  intros Hi Hj. unfold maj_filter.
  rewrite !(make_lit_congr i i' _ Hi), !(make_lit_congr j j' _ Hj). reflexivity.
Qed.

Lemma imp_filter_congr (ti i i' : Z) :
  u32 i = u32 i' -> imp_filter w target ti i = imp_filter w target ti i'.
Proof.
  intros Hi. unfold imp_filter. rewrite !(make_lit_congr i i' _ Hi). reflexivity.
Qed.

Lemma counter_next (c : Z) (pre : list K) (it : K) :
  u32 c = u32 (Z.of_nat (length pre)) ->
  u32 (u32 (c + 1)) = u32 (Z.of_nat (length (pre ++ [it]))).
Proof.
  intros Hc. rewrite u32_idem, length_app. simpl.
  rewrite Nat2Z.inj_add. apply u32_succ_congr. exact Hc.
Qed.

Lemma collect_inner_In (ti i i' : Z) (jts : list K) :
  forall (pre : list K) (j : Z) (k : nat) (b : K) (p : Z * Z),
    u32 i = u32 i' ->
    u32 j = u32 (Z.of_nat (length pre)) ->
    jts !! k = Some b ->
    In p (maj_filter w target ti (tts b) i' (Z.of_nat (length pre + k))) ->
    In p (collect_inner w tts target ti i jts j).
Proof.
  induction jts as [| jt jts IH]; intros pre j k b p Hi Hj Hk Hp; [discriminate |].
  simpl. apply in_or_app. destruct k as [| k].
  - left. injection Hk as ->. rewrite Nat.add_0_r in Hp.
    rewrite (maj_filter_congr _ _ i i' j _ Hi Hj). exact Hp.
  - right. apply (IH (pre ++ [jt]) _ k b p Hi (counter_next _ _ _ Hj) Hk).
    rewrite length_app. simpl.
    replace (length pre + 1 + k)%nat with (length pre + S k)%nat by lia. exact Hp.
Qed.

Lemma collect_maj1pairs_In_pair (its : list K) :
  forall (pre : list K) (i0 : Z) (i j : nat) (a b : K) (p : Z * Z),
    u32 i0 = u32 (Z.of_nat (length pre)) ->
    (i < j)%nat ->
    its !! i = Some a ->
    its !! j = Some b ->
    In p (maj_filter w target (tts a) (tts b)
            (Z.of_nat (length pre + i)) (Z.of_nat (length pre + j))) ->
    In p (collect_maj1pairs w tts target its i0).
Proof.
  induction its as [| it its IH]; intros pre i0 i j a b p Hi0 Hij Ha Hb Hp;
    [discriminate |].
  simpl. destruct j as [| j]; [lia |]. simpl in Hb.
  destruct i as [| i].
  - injection Ha as Heq; subst a. apply in_or_app. left.
    rewrite Nat.add_0_r in Hp.
    apply (collect_inner_In _ i0 _ its (pre ++ [it]) _ j b p Hi0
             (counter_next _ _ _ Hi0) Hb).
    rewrite length_app. simpl.
    replace (length pre + 1 + j)%nat with (length pre + S j)%nat by lia. exact Hp.
  - simpl in Ha. apply in_or_app. right. apply in_or_app. right.
    apply (IH (pre ++ [it]) _ i j a b p (counter_next _ _ _ Hi0)
             ltac:(lia) Ha Hb).
    rewrite length_app. simpl.
    replace (length pre + 1 + i)%nat with (length pre + S i)%nat by lia.
    replace (length pre + 1 + j)%nat with (length pre + S j)%nat by lia. exact Hp.
Qed.

Lemma collect_maj1pairs_In_single (its : list K) :
  forall (pre : list K) (i0 : Z) (i : nat) (a : K) (p : Z * Z),
    u32 i0 = u32 (Z.of_nat (length pre)) ->
    its !! i = Some a ->
    In p (imp_filter w target (tts a) (Z.of_nat (length pre + i))) ->
    In p (collect_maj1pairs w tts target its i0).
Proof.
  induction its as [| it its IH]; intros pre i0 i a p Hi0 Ha Hp; [discriminate |].
  simpl. apply in_or_app. right. apply in_or_app. destruct i as [| i].
  - left. injection Ha as Heq; subst a. rewrite Nat.add_0_r in Hp.
    rewrite (imp_filter_congr _ i0 _ Hi0). exact Hp.
  - right. simpl in Ha. apply (IH (pre ++ [it]) _ i a p (counter_next _ _ _ Hi0) Ha).
    rewrite length_app. simpl.
    replace (length pre + 1 + i)%nat with (length pre + S i)%nat by lia. exact Hp.
Qed.

End prefilter_positions.

(** ** The engine never reads outside the candidate range *)

Section engine_returns.
Context {K : Type}.
Variable w : nat.
Variable tts : K -> Z.
Variable target : Z.
Variable cands : list K.
Hypothesis cands_bound : Z.of_nat (length cands) < 2 ^ 31.

Local Abbreviation valid_lit := (mig_enumerative.valid_lit w tts cands).
Local Abbreviation valid_pair := (mig_enumerative.valid_pair w tts cands).

Lemma valid_make_lit (i : nat) (it : K) (inv : bool) :
  cands !! i = Some it -> valid_lit (make_lit (Z.of_nat i) inv).
Proof.
  intros Hit. unfold mig_enumerative.valid_lit.
  rewrite (get_tt_make_lit w tts cands i it inv Hit cands_bound). eexists. reflexivity.
Qed.

Lemma maj_filter_valid (ti tj i j : Z) :
  (forall inv, valid_lit (make_lit i inv)) ->
  (forall inv, valid_lit (make_lit j inv)) ->
  Forall valid_pair (maj_filter w target ti tj i j).
Proof.
  intros Hi Hj. unfold maj_filter.
  repeat match goal with |- context [if ?b then _ else _] => destruct b end;
    try (apply List.Forall_cons; [split; simpl; [apply Hi | right; apply Hj] |]);
    apply List.Forall_nil.
Qed.

Lemma imp_filter_valid (ti i : Z) :
  (forall inv, valid_lit (make_lit i inv)) ->
  Forall valid_pair (imp_filter w target ti i).
Proof.
  intros Hi. unfold imp_filter.
  repeat match goal with |- context [if ?b then _ else _] => destruct b end;
    try (apply List.Forall_cons; [split; simpl; [apply Hi | left; reflexivity] |]);
    apply List.Forall_nil.
Qed.

Lemma collect_inner_valid (ti i : Z) (jts : list K) :
  forall (pre : list K) (j : Z),
    cands = pre ++ jts ->
    j = Z.of_nat (length pre) ->
    (forall inv, valid_lit (make_lit i inv)) ->
    Forall valid_pair (collect_inner w tts target ti i jts j).
Proof.
  induction jts as [| jt jts IH]; intros pre j Hc Hj Hi; simpl; [constructor |].
  assert (Hlen : Z.of_nat (length pre) + 1 < 2 ^ 31).
  { pose proof cands_bound as Hb. rewrite Hc, length_app in Hb. simpl in Hb. lia. }
  apply Forall_app. split.
  - apply maj_filter_valid; [exact Hi |]. intros inv. subst j.
    apply (valid_make_lit (length pre) jt). rewrite Hc. apply list_lookup_middle. reflexivity.
  - apply (IH (pre ++ [jt])).
    + rewrite <- app_assoc. exact Hc.
    + rewrite length_app. simpl. subst j. rewrite u32_small; lia.
    + exact Hi.
Qed.

Lemma collect_maj1pairs_valid (its : list K) :
  forall (pre : list K) (i : Z),
    cands = pre ++ its ->
    i = Z.of_nat (length pre) ->
    Forall valid_pair (collect_maj1pairs w tts target its i).
Proof.
  induction its as [| it its IH]; intros pre i Hc Hi; simpl; [constructor |].
  assert (Hlen : Z.of_nat (length pre) + 1 < 2 ^ 31).
  { pose proof cands_bound as Hb. rewrite Hc, length_app in Hb. simpl in Hb. lia. }
  assert (Hv : forall inv, valid_lit (make_lit i inv)).
  { intros inv. subst i. apply (valid_make_lit (length pre) it).
    rewrite Hc. apply list_lookup_middle. reflexivity. }
  assert (Hnext : u32 (i + 1) = Z.of_nat (length (pre ++ [it]))).
  { rewrite length_app. simpl. subst i. rewrite u32_small; lia. }
  assert (Hc' : cands = (pre ++ [it]) ++ its) by (rewrite <- app_assoc; exact Hc).
  apply Forall_app. split; [| apply Forall_app; split].
  - apply (collect_inner_valid _ _ _ (pre ++ [it])); assumption.
  - apply imp_filter_valid. exact Hv.
  - apply (IH (pre ++ [it])); assumption.
Qed.

Lemma emit_returns (il : mig_index_list) (a b c : Z) :
  exists r, emit il a b c = Returns r.
Proof. unfold emit. simpl. eexists. reflexivity. Qed.

Ltac finish IH :=
  repeat match goal with
    | |- exists r, (if ?b then _ else _) = Returns r => destruct b
    | |- exists r, emit _ _ _ _ = Returns r => apply emit_returns
    | |- exists r, Returns _ = Returns r => eexists; reflexivity
    | |- _ => exact IH
    end.

Lemma resub1_const_returns (il : mig_index_list) (a c x : Z) (rest : list (Z * Z)) :
  Forall valid_pair rest ->
  exists r, resub1_const w tts target cands il a c x rest = Returns r.
Proof.
  intros Hrest. induction Hrest as [| [b1 b2] rest [[y1 Hb1] Hb2] Hrest IH]; simpl.
  - eexists. reflexivity.
  - simpl in Hb1, Hb2. rewrite Hb1. simpl.
    destruct Hb2 as [Hlt | [y2 Hb2]].
    + rewrite Hlt. finish IH.
    + rewrite Hb2. simpl. finish IH.
Qed.

Lemma resub1_maj_returns (il : mig_index_list) (a c x y : Z) (rest : list (Z * Z)) :
  Forall valid_pair rest ->
  exists r, resub1_maj w tts target cands il a c x y rest = Returns r.
Proof.
  intros Hrest. induction Hrest as [| [b1 b2] rest [[z1 Hb1] Hb2] Hrest IH]; simpl.
  - eexists. reflexivity.
  - simpl in Hb1, Hb2. rewrite Hb1. simpl.
    destruct Hb2 as [Hlt | [z2 Hb2]].
    + rewrite Hlt. finish IH.
    + rewrite Hb2. simpl. finish IH.
Qed.

Lemma resub1_returns (il : mig_index_list) (pairs : list (Z * Z)) :
  Forall valid_pair pairs ->
  exists r, resub1 w tts target cands il pairs = Returns r.
Proof.
  intros Hp. induction Hp as [| [a c] rest [[x Ha] Hc] Hrest IH]; simpl.
  - eexists. reflexivity.
  - simpl in Ha, Hc. rewrite Ha. simpl.
    destruct (c <? 2) eqn:Hlt.
    + destruct (resub1_const_returns il a c x rest Hrest) as [[r |] ->]; simpl.
      * eexists. reflexivity.
      * exact IH.
    + destruct Hc as [Hc | [y Hc]]; [discriminate |]. rewrite Hc. simpl.
      destruct (resub1_maj_returns il a c x y rest Hrest) as [[r |] ->]; simpl.
      * eexists. reflexivity.
      * exact IH.
Qed.

End engine_returns.

(** * Properties of the enumerative engine *)

Section engine_properties.
Context {K : Type}.
Variable w : nat.
Variable tts : K -> Z.

(** Shared by the theorems below: whatever the engine returns realizes the
    target. *)
Lemma resyn_sound (target care : Z) (cands : list K) (max_size : Z)
  (il : mig_index_list) :
  wf w target ->
  Forall (fun c => wf w (tts c)) cands ->
  Z.of_nat (length cands) < 2 ^ 31 ->
  mig_enumerative_resyn w tts target care cands max_size = Returns (Some il) ->
  realizes w tts target cands il.
Proof.
  intros Ht Hc Hn H. apply resyn_cases in H. cbv zeta in H.
  destruct H as [[_ H] | [_ H]]; [discriminate |].
  destruct H as [[H0 H] | [[H0 [H1 H]] | [H0 [H1 H]]]].
  - injection H as ->. subst target. unfold realizes.
    apply evaluate_output_only; [rewrite length_map; reflexivity | reflexivity].
  - injection H as ->. unfold realizes.
    rewrite (tt_not_zero_all_true w target Ht H1).
    apply evaluate_output_only; [rewrite length_map; reflexivity |].
    apply lit_value_const1.
  - destruct H as [[il' [Hr H]] | [_ [[_ H] | [_ H]]]].
    + injection H as ->.
      apply (resub0_sound w tts target cands Ht cands [] 0 il'
               eq_refl eq_refl Hn Hr).
    + discriminate.
    + destruct (resub1 w tts target cands _ _) as [[il' |] | | |] eqn:Hr;
        try discriminate.
      injection H as ->.
      apply (resub1_sound w tts target cands Hc _ il'
               (collect_maj1pairs_nonneg w tts target cands 0) Hr).
Qed.

(** Shared by the theorems below: a returned index list has no gate or
    one gate. *)
Lemma resyn_gates (target care : Z) (cands : list K) (max_size : Z)
  (il : mig_index_list) :
  mig_enumerative_resyn w tts target care cands max_size = Returns (Some il) ->
  (length (gates il) <= 1)%nat.
Proof.
  intros H. apply resyn_cases in H. cbv zeta in H.
  destruct H as [[_ H] | [_ H]]; [discriminate |].
  destruct H as [[H0 H] | [[H0 [H1 H]] | [H0 [H1 H]]]].
  - injection H as ->. simpl. lia.
  - injection H as ->. simpl. lia.
  - destruct H as [[il' [Hr H]] | [_ [[_ H] | [_ H]]]].
    + injection H as ->. rewrite (resub0_gates tts _ _ _ _ _ _ Hr). simpl. lia.
    + discriminate.
    + destruct (resub1 w tts target cands _ _) as [[il' |] | | |] eqn:Hr;
        try discriminate.
      injection H as ->. rewrite (resub1_gates w tts _ _ _ _ _ Hr). simpl. lia.
Qed.

(** Shared by the theorems below: with an all-true care set and a
    candidate range that literals can address, the engine returns. *)
Lemma resyn_returns (target : Z) (cands : list K) (max_size : Z) :
  Z.of_nat (length cands) < 2 ^ 31 ->
  exists r, mig_enumerative_resyn w tts target (const1 w) cands max_size = Returns r.
Proof.
  intros Hn.
  destruct (resyn_cases w tts target (const1 w) cands max_size _ eq_refl)
    as [[Hc _] | [_ H]].
  { exfalso. apply Hc. apply tt_not_all_true. }
  destruct H as [[_ ->] | [[_ [_ ->]] | [_ [_ H]]]]; try (eexists; reflexivity).
  destruct H as [[il' [_ ->]] | [_ [[_ ->] | [_ H]]]]; try (eexists; reflexivity).
  destruct (resub1_returns w tts target cands (create (Z.of_nat (length cands)))
              (collect_maj1pairs w tts target cands 0)
              (collect_maj1pairs_valid w tts target cands Hn cands [] 0 eq_refl eq_refl))
    as [r Hr].
  rewrite Hr in H. destruct r as [il' |]; rewrite H; eexists; reflexivity.
Qed.

(** Shared by the theorems below: a positive size budget is not looked
    at. *)
Lemma resyn_budget (target care : Z) (cands : list K) (m1 m2 : Z) :
  m1 <> 0 -> m2 <> 0 ->
  mig_enumerative_resyn w tts target care cands m1
  = mig_enumerative_resyn w tts target care cands m2.
Proof.
  intros H1 H2. unfold mig_enumerative_resyn.
  destruct (Z.eqb_spec m1 0); [contradiction |].
  destruct (Z.eqb_spec m2 0); [contradiction |].
  destruct (m1 =? 1), (m2 =? 1); reflexivity.
Qed.

(** C1.  For every target, all-true care set and candidate list with
    well-formed truth tables, an index list returned by the engine,
    replayed over the candidates' tables (literal 0 the constant false,
    odd literals complemented, every gate entry a ternary majority),
    yields exactly the target at its declared output. *)
Theorem resyn_replay_reproduces_target (target care : Z) (cands : list K)
  (max_size : Z) (il : mig_index_list) :
  wf w target ->
  Forall (fun c => wf w (tts c)) cands ->
  Z.of_nat (length cands) < 2 ^ 31 ->
  care = const1 w ->
  mig_enumerative_resyn w tts target care cands max_size = Returns (Some il) ->
  evaluate w il (map tts cands) = Some [target].
Proof.
  intros Ht Hc Hn _ H.
  exact (resyn_sound target care cands max_size il Ht Hc Hn H).
Qed.



End engine_properties.

(** C7.  Two calls with the same target, all-true care sets, the same size
    budget and candidate ranges that carry the same truth tables in the
    same order return the same result, whatever the candidates are and
    wherever the tables are stored. *)
Theorem resyn_deterministic {K1 K2 : Type} (w : nat) (tts1 : K1 -> Z) (tts2 : K2 -> Z)
  (target care1 care2 : Z) (cands1 : list K1) (cands2 : list K2) (max_size : Z) :
  care1 = const1 w ->
  care2 = const1 w ->
  map tts1 cands1 = map tts2 cands2 ->
  mig_enumerative_resyn w tts1 target care1 cands1 max_size
  = mig_enumerative_resyn w tts2 target care2 cands2 max_size.
Proof.
  intros -> -> Htables.
  rewrite (resyn_tables w tts1), (resyn_tables w tts2), Htables. reflexivity.
Qed.


(** * Further properties of the enumerative engine *)

Lemma u32_add_l (a b : Z) : u32 (u32 a + b) = u32 (a + b).
Proof. unfold u32. apply Zplus_mod_idemp_l. Qed.

(** X1.  [make_lit] followed by [get_tt_from_lit] reads the candidate at the
    encoded position, complemented exactly when the polarity bit is
    set. *)
Theorem literal_round_trip {K : Type} (w : nat) (tts : K -> Z) (cands : list K)
  (i : nat) (it : K) (inv : bool) :
  cands !! i = Some it ->
  Z.of_nat (length cands) < 2 ^ 31 ->
  get_tt_from_lit w tts (make_lit (Z.of_nat i) inv) cands = Some (sign w inv (tts it)).
Proof. intros Hit Hn. apply get_tt_make_lit; assumption. Qed.

(** X2.  Below [2^31 - 1] the literals of [make_lit] are at least 2, below
    [2^32] and pairwise distinct, so none takes a constant slot; at
    [2^31 - 1] the doubling wraps around and the literal is the constant
    slot 0 or 1. *)
Theorem make_lit_range (a b : Z) (ia ib : bool) :
  0 <= a < 2 ^ 31 - 1 ->
  0 <= b < 2 ^ 31 - 1 ->
  2 <= make_lit a ia < 2 ^ 32
  /\ (make_lit a ia = make_lit b ib -> a = b /\ ia = ib)
  /\ make_lit (2 ^ 31 - 1) ia = Z.b2z ia.
Proof.
  intros Ha Hb. rewrite !make_lit_small by lia. split; [| split].
  - change (2 ^ 32) with (2 ^ 31 * 2). destruct ia; simpl; lia.
  - intros H. destruct ia, ib; simpl in H; split; try reflexivity; lia.
  - destruct ia; reflexivity.
Qed.

Section engine_more.
Context {K : Type}.
Variable w : nat.
Variable tts : K -> Z.

(** X3.  The size budget is kept: a returned index list has at most
  [max_size] gates, and none when the budget is 0. *)
Theorem resyn_within_budget (target care : Z) (cands : list K) (max_size : Z)
(il : mig_index_list) :
0 <= max_size ->
mig_enumerative_resyn w tts target care cands max_size = Returns (Some il) ->
Z.of_nat (length (gates il)) <= max_size.
Proof.
intros Hm H.
pose proof (resyn_gates w tts target care cands max_size il H) as Hg.
apply resyn_cases in H. cbv zeta in H.
destruct H as [[_ H] | [_ H]]; [discriminate |].
destruct H as [[H0 H] | [[H0 [H1 H]] | [H0 [H1 H]]]].
- injection H as ->. simpl. lia.
- injection H as ->. simpl. lia.
- destruct H as [[il' [Hr H]] | [_ [[_ H] | [Hne _]]]].
  + injection H as ->. rewrite (resub0_gates tts _ _ _ _ _ _ Hr). simpl. lia.
  + discriminate.
  + lia.
Qed.

Lemma resub0_first_match (target ntarget : Z) (il : mig_index_list) (c : K)
(post : list K) (pre : list K) :
forall i,
  Forall (fun k => tts k <> target /\ tts k <> ntarget) pre ->
  tts c = target \/ tts c = ntarget ->
  resub0 tts target ntarget il (pre ++ c :: post) i
  = Some (add_output il (make_lit (i + Z.of_nat (length pre))
                           (negb (equal target (tts c))))).
Proof.
induction pre as [| k pre IH]; intros i Hpre Hc; simpl.
- rewrite Z.add_0_r. destruct (equal target (tts c)) eqn:E1; [reflexivity |].
  destruct Hc as [Hc | Hc].
  + rewrite Hc in E1. unfold equal in E1. rewrite Z.eqb_refl in E1. discriminate.
  + rewrite Hc. unfold equal at 1. rewrite Z.eqb_refl. reflexivity.
- apply Forall_cons in Hpre as [[Hk1 Hk2] Hpre].
  destruct (equal target (tts k)) eqn:E1.
  { apply equal_eq in E1. congruence. }
  destruct (equal ntarget (tts k)) eqn:E2.
  { apply equal_eq in E2. congruence. }
  rewrite (IH _ Hpre Hc). do 2 f_equal. apply make_lit_congr.
  rewrite u32_add_l. f_equal. lia.
Qed.

(** X4.  Direct match: when the target is not constant and some candidate
  carries the target or its complement, the engine returns the gate-free
  index list whose output is the literal of the first such candidate,
  complemented when that candidate carries the complement. *)
Theorem resyn_direct_match (target care : Z) (pre : list K) (c : K) (post : list K)
(max_size : Z) :
care = const1 w ->
target <> 0 ->
tt_not w target <> 0 ->
Forall (fun k => tts k <> target /\ tts k <> tt_not w target) pre ->
tts c = target \/ tts c = tt_not w target ->
mig_enumerative_resyn w tts target care (pre ++ c :: post) max_size
= Returns (Some (add_output (create (Z.of_nat (length (pre ++ c :: post))))
                   (make_lit (Z.of_nat (length pre)) (negb (equal target (tts c)))))).
Proof.
intros -> Ht Hn Hpre Hc. unfold mig_enumerative_resyn.
rewrite tt_not_all_true. unfold is_const0 at 1. simpl negb. cbv iota.
cbv zeta. unfold is_const0.
destruct (Z.eqb_spec target 0); [contradiction |].
destruct (Z.eqb_spec (tt_not w target) 0); [contradiction |].
rewrite (resub0_first_match _ _ _ c post pre 0 Hpre Hc). reflexivity.
Qed.

(** X5.  With no candidate the constant targets are the only ones with a
  solution. *)
Theorem resyn_no_candidates (target : Z) (max_size : Z) :
mig_enumerative_resyn w tts target (const1 w) [] max_size
= Returns (if is_const0 target then Some (add_output (create 0) 0)
           else if is_const0 (tt_not w target) then Some (add_output (create 0) 1)
           else None).
Proof.
unfold mig_enumerative_resyn. rewrite tt_not_all_true. simpl.
destruct (is_const0 target); [reflexivity |].
destruct (is_const0 (tt_not w target)); [reflexivity |].
destruct (max_size =? 0); [reflexivity |].
destruct (max_size =? 1); reflexivity.
Qed.

Lemma resub1_one_pair (target : Z) (cands : list K) (il il' : mig_index_list)
(pairs : list (Z * Z)) :
(length pairs <= 1)%nat ->
resub1 w tts target cands il pairs <> Returns (Some il').
Proof.
destruct pairs as [| [a c] [| q pairs]]; simpl; intros Hlen H; try discriminate; [| lia].
destruct (get_tt_from_lit w tts a cands); simpl in H; [| discriminate].
destruct (c <? 2); simpl in H; [discriminate |].
destruct (get_tt_from_lit w tts c cands); simpl in H; discriminate.
Qed.

Lemma maj_filter_length (target ti tj i j : Z) :
(length (maj_filter w target ti tj i j) <= 1)%nat.
Proof.
unfold maj_filter.
repeat match goal with |- context [if ?b then _ else _] => destruct b end; simpl; lia.
Qed.

Lemma imp_filter_length (target ti i : Z) :
(length (imp_filter w target ti i) <= 1)%nat.
Proof.
unfold imp_filter.
repeat match goal with |- context [if ?b then _ else _] => destruct b end; simpl; lia.
Qed.

Lemma collect_inner_length (target ti i : Z) (jts : list K) :
forall j, (length (collect_inner w tts target ti i jts j) <= length jts)%nat.
Proof.
induction jts as [| jt jts IH]; intros j; simpl; [lia |].
rewrite length_app. pose proof (maj_filter_length target ti (tts jt) i j).
specialize (IH (u32 (j + 1))). lia.
Qed.

(** X6.  A gate needs two recorded relations, and one candidate gives at most
  one: with at most one candidate no returned index list has a gate. *)
Theorem resyn_one_candidate_no_gate (target care : Z) (cands : list K)
(max_size : Z) (il : mig_index_list) :
(length cands <= 1)%nat ->
mig_enumerative_resyn w tts target care cands max_size = Returns (Some il) ->
gates il = [].
Proof.
intros Hlen H. apply resyn_cases in H. cbv zeta in H.
destruct H as [[_ H] | [_ H]]; [discriminate |].
destruct H as [[H0 H] | [[H0 [H1 H]] | [H0 [H1 H]]]].
- injection H as ->. reflexivity.
- injection H as ->. reflexivity.
- destruct H as [[il' [Hr H]] | [_ [[_ H] | [_ H]]]].
  + injection H as ->. rewrite (resub0_gates tts _ _ _ _ _ _ Hr). reflexivity.
  + discriminate.
  + exfalso.
    destruct (resub1 w tts target cands _ _) as [[il' |] | | |] eqn:Hr;
      try discriminate.
    revert Hr. apply resub1_one_pair.
    destruct cands as [| c [| c' cands]]; simpl in Hlen |- *; [lia | | lia].
    rewrite app_nil_r. apply imp_filter_length.
Qed.

(** X7.  The prefilter records at most one relation per candidate pair and one
  per candidate: over [k] candidates at most [k (k + 1) / 2]. *)
Theorem prefilter_size (target : Z) (cands : list K) (i : Z) :
(2 * length (collect_maj1pairs w tts target cands i)
 <= length cands * (length cands + 1))%nat.
Proof.
revert i. induction cands as [| c cands IH]; intros i; simpl; [lia |].
rewrite !length_app.
pose proof (collect_inner_length target (tts c) i cands (u32 (i + 1))).
pose proof (imp_filter_length target (tts c) i).
specialize (IH (u32 (i + 1))). nia.
Qed.

Lemma maj_filter_sound (target ti tj i j l1 l2 : Z) :
In (l1, l2) (maj_filter w target ti tj i j) ->
exists sa sb,
  l1 = make_lit i sa /\ l2 = make_lit j sb
  /\ ternary_majority (sign w sa ti) (sign w sb tj) target = target.
Proof.
unfold maj_filter.
destruct (equal (ternary_majority ti tj target) target) eqn:E1.
{ intros [H | []]. injection H as <- <-. exists false, false. apply equal_eq in E1. auto. }
destruct (equal (ternary_majority (tt_not w ti) tj target) target) eqn:E2.
{ intros [H | []]. injection H as <- <-. exists true, false. apply equal_eq in E2. auto. }
destruct (equal (ternary_majority ti (tt_not w tj) target) target) eqn:E3.
{ intros [H | []]. injection H as <- <-. exists false, true. apply equal_eq in E3. auto. }
destruct (equal (ternary_majority (tt_not w ti) (tt_not w tj) target) target) eqn:E4.
{ intros [H | []]. injection H as <- <-. exists true, true. apply equal_eq in E4. auto. }
intros [].
Qed.

Lemma imp_filter_sound (target ti i l1 l2 : Z) :
In (l1, l2) (imp_filter w target ti i) ->
exists s,
  l1 = make_lit i s
  /\ ((l2 = 1 /\ implies w (sign w s ti) target = true)
      \/ (l2 = 0 /\ implies w target (sign w s ti) = true)).
Proof.
unfold imp_filter.
destruct (implies w ti target) eqn:E1.
{ intros [H | []]. injection H as <- <-. exists false. auto. }
destruct (implies w (tt_not w ti) target) eqn:E2.
{ intros [H | []]. injection H as <- <-. exists true. auto. }
destruct (implies w target ti) eqn:E3.
{ intros [H | []]. injection H as <- <-. exists false. auto. }
destruct (implies w target (tt_not w ti)) eqn:E4.
{ intros [H | []]. injection H as <- <-. exists true. auto. }
intros [].
Qed.

Lemma collect_inner_inv (target ti i : Z) (jts : list K) :
forall (pre : list K) (j : Z) (p : Z * Z),
  u32 j = u32 (Z.of_nat (length pre)) ->
  In p (collect_inner w tts target ti i jts j) ->
  exists k b,
    jts !! k = Some b
    /\ In p (maj_filter w target ti (tts b) i (Z.of_nat (length pre + k))).
Proof.
induction jts as [| jt jts IH]; intros pre j p Hj Hp; [contradiction |].
simpl in Hp. apply in_app_or in Hp as [Hp | Hp].
- exists 0%nat, jt. split; [reflexivity |]. rewrite Nat.add_0_r.
  rewrite <- (maj_filter_congr w target ti (tts jt) i i j _ eq_refl Hj). exact Hp.
- destruct (IH (pre ++ [jt]) _ p (counter_next _ _ _ Hj) Hp) as (k & b & Hk & Hin).
  exists (S k), b. split; [exact Hk |].
  rewrite length_app in Hin. simpl in Hin.
  replace (length pre + S k)%nat with (length pre + 1 + k)%nat by lia. exact Hin.
Qed.

Lemma collect_maj1pairs_inv (target : Z) (its : list K) :
forall (pre : list K) (i0 : Z) (p : Z * Z),
  u32 i0 = u32 (Z.of_nat (length pre)) ->
  In p (collect_maj1pairs w tts target its i0) ->
  (exists (i j : nat) (a b : K),
      (i < j)%nat /\ its !! i = Some a /\ its !! j = Some b
      /\ In p (maj_filter w target (tts a) (tts b)
                 (Z.of_nat (length pre + i)) (Z.of_nat (length pre + j))))
  \/ (exists (i : nat) (a : K),
         its !! i = Some a
         /\ In p (imp_filter w target (tts a) (Z.of_nat (length pre + i)))).
Proof.
induction its as [| it its IH]; intros pre i0 p Hi0 Hp; [contradiction |].
simpl in Hp. apply in_app_or in Hp as [Hp | Hp]; [| apply in_app_or in Hp as [Hp | Hp]].
- left.
  destruct (collect_inner_inv _ _ _ _ (pre ++ [it]) _ p (counter_next _ _ _ Hi0) Hp)
    as (k & b & Hk & Hin).
  exists 0%nat, (S k), it, b. split; [lia |]. split; [reflexivity |].
  split; [exact Hk |]. rewrite Nat.add_0_r.
  rewrite length_app in Hin. simpl in Hin.
  replace (length pre + S k)%nat with (length pre + 1 + k)%nat by lia.
  rewrite <- (maj_filter_congr w target (tts it) (tts b) i0 _ _ _ Hi0 eq_refl).
  exact Hin.
- right. exists 0%nat, it. split; [reflexivity |]. rewrite Nat.add_0_r.
  rewrite <- (imp_filter_congr w target (tts it) i0 _ Hi0). exact Hp.
- destruct (IH (pre ++ [it]) _ p (counter_next _ _ _ Hi0) Hp)
    as [(i & j & a & b & Hij & Ha & Hb & Hin) | (i & a & Ha & Hin)].
  + left. exists (S i), (S j), a, b. split; [lia |]. split; [exact Ha |].
    split; [exact Hb |]. rewrite length_app in Hin. simpl in Hin.
    replace (length pre + S i)%nat with (length pre + 1 + i)%nat by lia.
    replace (length pre + S j)%nat with (length pre + 1 + j)%nat by lia. exact Hin.
  + right. exists (S i), a. split; [exact Ha |].
    rewrite length_app in Hin. simpl in Hin.
    replace (length pre + S i)%nat with (length pre + 1 + i)%nat by lia. exact Hin.
Qed.

(** X8.  Every recorded relation holds: the first literal reads a table [x];
  with the constant slot 1 [x] implies the target, with the constant
  slot 0 the target implies [x], and otherwise the second literal reads
  a table [y] with majority(x, y, target) = target. *)
Theorem prefilter_sound (target : Z) (cands : list K) (l1 l2 : Z) :
Z.of_nat (length cands) < 2 ^ 31 ->
In (l1, l2) (collect_maj1pairs w tts target cands 0) ->
exists x,
  get_tt_from_lit w tts l1 cands = Some x
  /\ ((l2 = 1 /\ implies w x target = true)
      \/ (l2 = 0 /\ implies w target x = true)
      \/ (2 <= l2
          /\ exists y, get_tt_from_lit w tts l2 cands = Some y
                       /\ ternary_majority x y target = target)).
Proof.
intros Hn Hp.
destruct (collect_maj1pairs_inv target cands [] 0 _ eq_refl Hp)
  as [(i & j & a & b & Hij & Ha & Hb & Hin) | (i & a & Ha & Hin)]; simpl in Hin.
- apply maj_filter_sound in Hin as (sa & sb & -> & -> & Hmaj).
  exists (sign w sa (tts a)). split; [apply get_tt_make_lit; assumption |].
  right. right. split.
  + assert (Hj : (j < length cands)%nat) by (eapply lookup_lt_Some; exact Hb).
    rewrite make_lit_small by lia. destruct sb; simpl; lia.
  + exists (sign w sb (tts b)). split; [apply get_tt_make_lit; assumption | exact Hmaj].
- apply imp_filter_sound in Hin as (s & -> & Himp).
  exists (sign w s (tts a)). split; [apply get_tt_make_lit; assumption |].
  destruct Himp as [H | H]; auto.
Qed.

End engine_more.

Lemma land_absorb_l (x y : Z) : Z.land x (Z.land x y) = Z.land x y.
Proof. rewrite Z.land_assoc, Z.land_diag. reflexivity. Qed.

Lemma land_absorb_r (x y : Z) : Z.land y (Z.land x y) = Z.land x y.
Proof. rewrite (Z.land_comm x y), Z.land_assoc, Z.land_diag. reflexivity. Qed.

Lemma land_not_self (w : nat) (x y : Z) : Z.land (tt_not w x) (Z.land x y) = 0.
Proof.
  bitwise n Hn. destruct (Z.testbit x n); simpl; [| apply andb_false_r].
  reflexivity.
Qed.

Lemma land_const1 (w : nat) (x : Z) : wf w x -> Z.land x (const1 w) = x.
Proof.
  intros Hx. bitwise n Hn.
  destruct (Z.ltb_spec n (Z.of_nat w)) as [Hlt | Hge]; [apply andb_true_r |].
  rewrite (wf_high_bits w x Hx n Hge). reflexivity.
Qed.

Lemma implies_land (w : nat) (x y : Z) :
  wf w x -> (implies w x y = true <-> Z.land x y = x).
Proof.
  intros Hx. unfold implies. rewrite is_const0_eq. split; intros H.
  - bitwise n Hn.
    assert (Hb := f_equal (fun z => Z.testbit z n) H). cbv beta in Hb.
    rewrite Z.land_spec, testbit_tt_not, Z.bits_0 in Hb by exact Hn.
    destruct (Z.ltb_spec n (Z.of_nat w)) as [Hlt | Hge].
    + destruct (Z.testbit x n), (Z.testbit y n); simpl in *; congruence.
    + rewrite (wf_high_bits w x Hx n Hge). reflexivity.
  - bitwise n Hn.
    assert (Hb := f_equal (fun z => Z.testbit z n) H). cbv beta in Hb.
    rewrite Z.land_spec in Hb.
    destruct (Z.testbit x n), (Z.testbit y n); simpl in *; congruence.
Qed.

Lemma maj_and_absorbs (x y : Z) : ternary_majority x y (Z.land x y) = Z.land x y.
Proof. bitwise n Hn. destruct (Z.testbit x n), (Z.testbit y n); reflexivity. Qed.

Lemma maj_repeat (x y : Z) : ternary_majority x y x = x.
Proof. bitwise n Hn. destruct (Z.testbit x n), (Z.testbit y n); reflexivity. Qed.

Lemma wf_land (w : nat) (x y : Z) : wf w x -> wf w (Z.land x y).
Proof.
  intros Hx. assert (H0 : 0 <= Z.land x y) by (apply Z.land_nonneg; left; apply Hx).
  split; [exact H0 |].
  apply (Z.bounded_iff_bits_nonneg (Z.of_nat w) _ ltac:(lia) H0).
  intros n Hn. rewrite Z.land_spec, (wf_high_bits w x Hx n Hn). reflexivity.
Qed.

Lemma and_tests (w : nat) (x y : Z) :
  wf w x -> wf w y ->
  Z.land x y <> 0 -> Z.land x y <> x -> Z.land x y <> y ->
  is_const0 (tt_not w (Z.land x y)) = false
  /\ equal (tt_not w (Z.land x y)) x = false
  /\ implies w x (Z.land x y) = false
  /\ implies w (tt_not w x) (Z.land x y) = false
  /\ implies w (Z.land x y) x = true.
Proof.
  intros Hx Hy H0 Hnx Hny.
  pose proof (wf_land w x y Hx) as Hwf.
  repeat split.
  - apply not_true_is_false. intros H. apply is_const0_eq in H.
    apply tt_not_zero_all_true in H; [| exact Hwf].
    apply Hnx. rewrite <- (land_const1 w x Hx) at 2. rewrite <- H.
    symmetry. apply land_absorb_l.
  - apply not_true_is_false. intros H. apply equal_eq in H.
    apply H0.
    transitivity (Z.land (tt_not w (Z.land x y)) (Z.land (Z.land x y) (Z.land x y))).
    + rewrite H, Z.land_diag. symmetry. apply land_absorb_l.
    + apply land_not_self.
  - apply not_true_is_false. intros H. apply (implies_land w _ _ Hx) in H.
    rewrite land_absorb_l in H. contradiction.
  - apply not_true_is_false. intros H. apply (implies_land w _ _ (wf_tt_not w x)) in H.
    rewrite land_not_self in H. symmetry in H.
    apply tt_not_zero_all_true in H; [| exact Hx].
    apply Hny. rewrite H. rewrite Z.land_comm. apply land_const1. exact Hy.
  - apply (implies_land w _ _ Hwf). rewrite Z.land_comm. apply land_absorb_l.
Qed.

Lemma maj_or_absorbs (x y : Z) : ternary_majority x y (Z.lor x y) = Z.lor x y.
Proof. bitwise n Hn. destruct (Z.testbit x n), (Z.testbit y n); reflexivity. Qed.

Lemma wf_lor (w : nat) (x y : Z) : wf w x -> wf w y -> wf w (Z.lor x y).
Proof.
  intros Hx Hy.
  assert (H0 : 0 <= Z.lor x y) by (apply Z.lor_nonneg; split; [apply Hx | apply Hy]).
  split; [exact H0 |].
  apply (Z.bounded_iff_bits_nonneg (Z.of_nat w) _ ltac:(lia) H0).
  intros n Hn.
  rewrite Z.lor_spec, (wf_high_bits w x Hx n Hn), (wf_high_bits w y Hy n Hn). reflexivity.
Qed.

Lemma land_lor_absorb (x y : Z) : Z.land x (Z.lor x y) = x.
Proof. bitwise n Hn. destruct (Z.testbit x n), (Z.testbit y n); reflexivity. Qed.

Lemma or_tests (w : nat) (x y : Z) :
  wf w x -> wf w y ->
  Z.lor x y <> const1 w -> Z.lor x y <> x -> Z.lor x y <> y ->
  is_const0 (Z.lor x y) = false
  /\ is_const0 (tt_not w (Z.lor x y)) = false
  /\ equal (tt_not w (Z.lor x y)) x = false
  /\ implies w x (Z.lor x y) = true.
Proof.
  intros Hx Hy H1 Hnx Hny.
  pose proof (wf_lor w x y Hx Hy) as Hwf.
  repeat split.
  - apply not_true_is_false. intros H. apply is_const0_eq in H.
    apply Hnx. rewrite H. apply Z.lor_eq_0_iff in H as [-> _]. reflexivity.
  - apply not_true_is_false. intros H. apply is_const0_eq in H.
    apply tt_not_zero_all_true in H; [| exact Hwf]. contradiction.
  - apply not_true_is_false. intros H. apply equal_eq in H.
    apply Hnx.
    assert (Hx0 : x = 0).
    { rewrite <- (land_lor_absorb x y). rewrite <- H at 1.
      rewrite <- (Z.land_diag (Z.lor x y)) at 2. apply land_not_self. }
    assert (Hy1 : tt_not w y = 0).
    { rewrite Hx0 in H. rewrite Z.lor_0_l in H. rewrite H. reflexivity. }
    apply tt_not_zero_all_true in Hy1; [| exact Hy].
    exfalso. apply Hny. rewrite Hx0, Z.lor_0_l. reflexivity.
  - apply (implies_land w _ _ Hx). apply land_lor_absorb.
Qed.

Section engine_and.
Context {K : Type}.
Variable w : nat.
Variable tts : K -> Z.

(** X9.  The AND of two candidates.  When the target is the conjunction
  of the tables of the two candidates [a] and [b], is not constant false
  and is neither of the two tables, every positive budget gives the index
  list with the single gate [(2, 4, 0)], the majority of [a], [b] and the
  constant false, and the output literal 6 of that gate. *)
Theorem resyn_and_of_two (a b : K) (max_size : Z) :
wf w (tts a) -> wf w (tts b) ->
tt_and (tts a) (tts b) <> 0 ->
tt_and (tts a) (tts b) <> tts a ->
tt_and (tts a) (tts b) <> tts b ->
max_size <> 0 ->
mig_enumerative_resyn w tts (tt_and (tts a) (tts b)) (const1 w) [a; b] max_size
= Returns (Some {| num_pis := 2; gates := [(2, 4, 0)]; outputs := [6] |}).
Proof.
unfold tt_and. intros Ha Hb H0 Hna Hnb Hm.
destruct (and_tests w (tts a) (tts b) Ha Hb H0 Hna Hnb) as (N0 & Na & Ia1 & Ia2 & Ia3).
rewrite (Z.land_comm (tts a) (tts b)) in H0, Hna, Hnb.
destruct (and_tests w (tts b) (tts a) Hb Ha H0 Hnb Hna) as (_ & Nb & Ib1 & Ib2 & Ib3).
rewrite (Z.land_comm (tts b) (tts a)) in H0, Hna, Hnb, Nb, Ib1, Ib2, Ib3.
set (t := Z.land (tts a) (tts b)) in *.
assert (Et : forall x, x <> t -> equal t x = false).
{ intros x Hx. apply not_true_is_false. intros H. apply equal_eq in H. congruence. }
unfold mig_enumerative_resyn. rewrite tt_not_all_true.
unfold is_const0 at 1. simpl negb. cbv iota. cbv zeta.
rewrite N0. replace (is_const0 t) with false
  by (symmetry; apply not_true_is_false; intros H; apply is_const0_eq in H; contradiction).
unfold resub0.
rewrite (Et (tts a)) by congruence. rewrite Na.
rewrite (Et (tts b)) by congruence. rewrite Nb.
destruct (Z.eqb_spec max_size 0) as [| _]; [contradiction |].
unfold collect_maj1pairs, collect_inner, maj_filter, imp_filter.
unfold t at 1. rewrite maj_and_absorbs. fold t.
replace (equal t t) with true by (symmetry; apply equal_eq; reflexivity).
rewrite Ia1, Ia2, Ia3, Ib1, Ib2, Ib3.
assert (Eand : tt_and (tts a) (tts b) = t) by reflexivity.
assert (Emaj : equal t (ternary_majority (tts a) (tts b) (tts a)) = false).
{ rewrite maj_repeat. apply Et. congruence. }
clearbody t.
change (make_lit 0 false) with 2. change (make_lit (u32 (0 + 1)) false) with 4.
cbn [app resub1].
change (get_tt_from_lit w tts 2 [a; b]) with (Some (tts a)).
change (get_tt_from_lit w tts 4 [a; b]) with (Some (tts b)).
cbn [deref mbind outcome_bind]. change (4 <? 2) with false. cbv iota.
cbn [mbind outcome_bind resub1_maj].
change (get_tt_from_lit w tts 2 [a; b]) with (Some (tts a)).
cbn [deref mbind outcome_bind]. rewrite Emaj, Eand.
replace (equal t t) with true by (symmetry; apply equal_eq; reflexivity).
reflexivity.
Qed.
(** X22.  The OR of two candidates.  When the target is the disjunction
  of the tables of the two candidates [a] and [b], is not constant true
  and is neither of the two tables, every positive budget gives the index
  list with the single gate [(2, 4, 1)], the majority of [a], [b] and the
  constant true, and the output literal 6 of that gate. *)
Theorem resyn_or_of_two (a b : K) (max_size : Z) :
wf w (tts a) -> wf w (tts b) ->
tt_or (tts a) (tts b) <> const1 w ->
tt_or (tts a) (tts b) <> tts a ->
tt_or (tts a) (tts b) <> tts b ->
max_size <> 0 ->
mig_enumerative_resyn w tts (tt_or (tts a) (tts b)) (const1 w) [a; b] max_size
= Returns (Some {| num_pis := 2; gates := [(2, 4, 1)]; outputs := [6] |}).
Proof.
unfold tt_or. intros Ha Hb H1 Hna Hnb Hm.
destruct (or_tests w (tts a) (tts b) Ha Hb H1 Hna Hnb) as (Z0 & N0 & Na & Ia1).
rewrite (Z.lor_comm (tts a) (tts b)) in H1, Hna, Hnb.
destruct (or_tests w (tts b) (tts a) Hb Ha H1 Hnb Hna) as (_ & _ & Nb & Ib1).
rewrite (Z.lor_comm (tts b) (tts a)) in H1, Hna, Hnb, Nb, Ib1.
set (t := Z.lor (tts a) (tts b)) in *.
assert (Et : forall x, x <> t -> equal t x = false).
{ intros x Hx. apply not_true_is_false. intros H. apply equal_eq in H. congruence. }
unfold mig_enumerative_resyn. rewrite tt_not_all_true.
unfold is_const0 at 1. simpl negb. cbv iota. cbv zeta.
rewrite N0, Z0.
unfold resub0.
rewrite (Et (tts a)) by congruence. rewrite Na.
rewrite (Et (tts b)) by congruence. rewrite Nb.
destruct (Z.eqb_spec max_size 0) as [| _]; [contradiction |].
unfold collect_maj1pairs, collect_inner, maj_filter, imp_filter.
unfold t at 1. rewrite maj_or_absorbs. fold t.
replace (equal t t) with true by (symmetry; apply equal_eq; reflexivity).
rewrite Ia1, Ib1.
assert (Eor : tt_or (tts a) (tts b) = t) by reflexivity.
assert (Emaj : equal t (ternary_majority (tts a) (tts b) (tts a)) = false).
{ rewrite maj_repeat. apply Et. congruence. }
clearbody t.
change (make_lit 0 false) with 2. change (make_lit (u32 (0 + 1)) false) with 4.
cbn [app resub1].
change (get_tt_from_lit w tts 2 [a; b]) with (Some (tts a)).
change (get_tt_from_lit w tts 4 [a; b]) with (Some (tts b)).
cbn [deref mbind outcome_bind]. change (4 <? 2) with false. cbv iota.
cbn [mbind outcome_bind resub1_maj].
change (get_tt_from_lit w tts 2 [a; b]) with (Some (tts a)).
cbn [deref mbind outcome_bind]. rewrite Emaj, Eor.
replace (equal t t) with true by (symmetry; apply equal_eq; reflexivity).
reflexivity.
Qed.

End engine_and.

(** * The prefilter records the first passing test, and only it *)

Lemma maj_filter_first (w : nat) (target ti tj i j l1 l2 : Z) :
  In (l1, l2) (maj_filter w target ti tj i j) ->
  exists s,
    first_sign_combination w target ti tj = Some s
    /\ l1 = make_lit i (fst s) /\ l2 = make_lit j (snd s).
Proof.
  unfold maj_filter, first_sign_combination, sign_combinations, passes_maj, sign. simpl.
  destruct (equal (ternary_majority ti tj target) target).
  { intros [H | []]. injection H as <- <-. exists (false, false). auto. }
  destruct (equal (ternary_majority (tt_not w ti) tj target) target).
  { intros [H | []]. injection H as <- <-. exists (true, false). auto. }
  destruct (equal (ternary_majority ti (tt_not w tj) target) target).
  { intros [H | []]. injection H as <- <-. exists (false, true). auto. }
  destruct (equal (ternary_majority (tt_not w ti) (tt_not w tj) target) target).
  { intros [H | []]. injection H as <- <-. exists (true, true). auto. }
  intros [].
Qed.

Lemma imp_filter_first (w : nat) (target ti i l1 l2 : Z) :
  In (l1, l2) (imp_filter w target ti i) ->
  exists s,
    first_implication w target ti = Some s
    /\ l1 = make_lit i (fst s) /\ l2 = snd s.
Proof.
  unfold imp_filter, first_implication, implications, passes_imp, sign. simpl.
  destruct (implies w ti target).
  { intros [H | []]. injection H as <- <-. exists (false, 1). auto. }
  destruct (implies w (tt_not w ti) target).
  { intros [H | []]. injection H as <- <-. exists (true, 1). auto. }
  destruct (implies w target ti).
  { intros [H | []]. injection H as <- <-. exists (false, 0). auto. }
  destruct (implies w target (tt_not w ti)).
  { intros [H | []]. injection H as <- <-. exists (true, 0). auto. }
  intros [].
Qed.

Lemma first_implication_slot (w : nat) (target ti : Z) (s : bool * Z) :
  first_implication w target ti = Some s -> snd s = 0 \/ snd s = 1.
Proof.
  unfold first_implication. intros H. apply find_some in H as [H _].
  unfold implications in H. simpl in H.
  destruct H as [<- | [<- | [<- | [<- | []]]]]; simpl; auto.
Qed.

Lemma make_lit_inj (n : Z) (i i' : nat) (s s' : bool) :
  n < 2 ^ 31 -> Z.of_nat i < n -> Z.of_nat i' < n ->
  make_lit (Z.of_nat i) s = make_lit (Z.of_nat i') s' -> i = i' /\ s = s'.
Proof.
  intros Hn Hi Hi'. rewrite !make_lit_small by lia.
  destruct s, s'; simpl; intros H; split; try reflexivity; lia.
Qed.

(** C4, as amended.  For every candidate pair [i < j] the first sign
    combination that passes the majority test, in the order (a, b),
    (~a, b), (a, ~b), (~a, ~b), is recorded as a literal pair; for every
    candidate the first passing implication, in the order a => t,
    ~a => t, t => a, t => ~a, is recorded with its constant slot, 1 for the
    first two and 0 for the last two.  Nothing else is recorded for them
    (for fewer than [2^31] candidates, whose literals are distinct): a
    literal pair of the candidates [i < j] is in the list only with the
    signs of that first passing combination, and a literal of a candidate
    with a constant slot only as that first passing implication; later
    passing combinations and implications are left out. *)
Theorem prefilter_records_first_only {K : Type} (w : nat) (tts : K -> Z)
  (target : Z) (cands : list K) :
  (forall (i j : nat) (a b : K) (s : bool * bool),
      (i < j)%nat -> cands !! i = Some a -> cands !! j = Some b ->
      first_sign_combination w target (tts a) (tts b) = Some s ->
      In (make_lit (Z.of_nat i) (fst s), make_lit (Z.of_nat j) (snd s))
         (collect_maj1pairs w tts target cands 0))
  /\ (forall (i : nat) (a : K) (s : bool * Z),
         cands !! i = Some a ->
         first_implication w target (tts a) = Some s ->
         In (make_lit (Z.of_nat i) (fst s), snd s)
            (collect_maj1pairs w tts target cands 0))
  /\ (Z.of_nat (length cands) < 2 ^ 31 ->
      (forall (i j : nat) (a b : K) (s : bool * bool),
          (i < j)%nat -> cands !! i = Some a -> cands !! j = Some b ->
          In (make_lit (Z.of_nat i) (fst s), make_lit (Z.of_nat j) (snd s))
             (collect_maj1pairs w tts target cands 0) ->
          first_sign_combination w target (tts a) (tts b) = Some s)
      /\ (forall (i : nat) (a : K) (s : bool * Z),
             cands !! i = Some a -> In s implications ->
             In (make_lit (Z.of_nat i) (fst s), snd s)
                (collect_maj1pairs w tts target cands 0) ->
             first_implication w target (tts a) = Some s)).
Proof.
  split; [| split].
  - intros i j a b s Hij Ha Hb Hs.
    apply (collect_maj1pairs_In_pair w tts target cands [] 0 i j a b _
             eq_refl Hij Ha Hb).
    simpl. revert Hs.
    unfold first_sign_combination, sign_combinations, passes_maj, maj_filter, sign.
    simpl.
    repeat match goal with
           | |- context [if ?c then _ else _] => destruct c
           end;
      intros Hs; try discriminate; injection Hs as <-; simpl; auto.
  - intros i a s Ha Hs.
    apply (collect_maj1pairs_In_single w tts target cands [] 0 i a _ eq_refl Ha).
    simpl. revert Hs.
    unfold first_implication, implications, passes_imp, imp_filter, sign. simpl.
    repeat match goal with
           | |- context [if ?c then _ else _] => destruct c
           end;
      intros Hs; try discriminate; injection Hs as <-; simpl; auto.
  - intros Hn.
    assert (Hlt : forall (k : nat) (c : K), cands !! k = Some c ->
              Z.of_nat k < Z.of_nat (length cands)).
    { intros k c Hk. apply lookup_lt_Some in Hk. lia. }
    split.
    + intros i j a b s Hij Ha Hb Hin.
      destruct (collect_maj1pairs_inv w tts target cands [] 0 _ eq_refl Hin)
        as [(i' & j' & a' & b' & Hij' & Ha' & Hb' & Hin') | (i' & a' & Ha' & Hin')];
        simpl in Hin'.
      * apply maj_filter_first in Hin' as (s' & Hs' & E1 & E2).
        apply (make_lit_inj _ _ _ _ _ Hn (Hlt _ _ Ha) (Hlt _ _ Ha')) in E1 as [<- E1].
        apply (make_lit_inj _ _ _ _ _ Hn (Hlt _ _ Hb) (Hlt _ _ Hb')) in E2 as [<- E2].
        rewrite Ha in Ha'. injection Ha' as <-. rewrite Hb in Hb'. injection Hb' as <-.
        rewrite Hs'. f_equal. destruct s, s'. simpl in *. congruence.
      * apply imp_filter_first in Hin' as (s' & Hs' & _ & E2).
        apply first_implication_slot in Hs'. pose proof (Hlt _ _ Hb).
        rewrite make_lit_small in E2 by lia.
        destruct (snd s); simpl in E2; lia.
    + intros i a s Ha Hs Hin.
      destruct (collect_maj1pairs_inv w tts target cands [] 0 _ eq_refl Hin)
        as [(i' & j' & a' & b' & Hij' & Ha' & Hb' & Hin') | (i' & a' & Ha' & Hin')];
        simpl in Hin'.
      * apply maj_filter_first in Hin' as (s' & _ & _ & E2).
        pose proof (Hlt _ _ Hb'). rewrite make_lit_small in E2 by lia.
        unfold implications in Hs. simpl in Hs.
        destruct Hs as [<- | [<- | [<- | [<- | []]]]]; simpl in E2;
          destruct (snd s'); simpl in E2; lia.
      * apply imp_filter_first in Hin' as (s' & Hs' & E1 & E2).
        apply (make_lit_inj _ _ _ _ _ Hn (Hlt _ _ Ha) (Hlt _ _ Ha')) in E1 as [<- E1].
        rewrite Ha in Ha'. injection Ha' as <-.
        rewrite Hs'. f_equal. destruct s, s'. simpl in *. congruence.
Qed.

#[local] Close Scope Z_scope.

Import network coi.

(** * The cone-of-influence view *)

Lemma bind_returns {A B : Type} (m : outcome A) (f : A -> outcome B) (b : B) :
  m ≫= f = Returns b -> exists a, m = Returns a /\ f a = Returns b.
Proof. destruct m; simpl; intros H; try discriminate. eexists. split; [reflexivity | exact H]. Qed.

(** A preorder kept by every call of the callback is kept by the loop. *)
Lemma foreach_element_preorder {A S : Type} (fn : A -> S -> outcome (bool * S))
  (R : S -> S -> Prop) (xs : list A) :
  (forall s, R s s) ->
  (forall s1 s2 s3, R s1 s2 -> R s2 s3 -> R s1 s3) ->
  (forall x s b s', In x xs -> fn x s = Returns (b, s') -> R s s') ->
  forall s s', foreach_element fn xs s = Returns s' -> R s s'.
Proof.
  intros Hrefl Htrans. induction xs as [| x xs IH]; intros Hfn s s' H; simpl in H.
  - injection H as <-. apply Hrefl.
  - apply bind_returns in H as [[b s1] [H1 H2]]. simpl in H2.
    assert (R s s1) by (eapply Hfn; [left; reflexivity | exact H1]).
    destruct b.
    + eapply Htrans; [eassumption |]. apply IH; [| exact H2].
      intros y t b' t' Hy. apply Hfn. right. exact Hy.
    + injection H2 as <-. assumption.
Qed.

Section collect.
Variable ntk : network.t.

Lemma collect_recurse_grows (fuel : nat) :
  forall n nodes nodes',
    collect_recurse fuel ntk n nodes = Returns nodes' ->
    forall x, x ∈ nodes -> x ∈ nodes'.
Proof.
  induction fuel as [| fuel IH]; intros n nodes nodes' H; [discriminate |].
  simpl in H.
  apply bind_returns in H as [c [_ H]]. destruct c; [injection H as <-; auto |].
  apply bind_returns in H as [p [_ H]]. destruct p.
  { injection H as <-. intros x Hx. case_bool_decide; [exact Hx |].
    apply elem_of_app. left. exact Hx. }
  apply bind_returns in H as [fs [_ H]].
  revert H. apply (foreach_element_preorder _ (fun s s' => forall x, x ∈ s -> x ∈ s')).
  - auto.
  - auto.
  - intros f s b s' _ Hf. case_bool_decide.
    + injection Hf as _ <-. auto.
    + apply bind_returns in Hf as [s1 [Hf1 Hf2]]. injection Hf2 as _ <-.
      intros x Hx. apply (IH _ _ _ Hf1). apply elem_of_app. left. exact Hx.
Qed.

Lemma root_settled_mono (nodes nodes' : list node) (n : node) :
  (forall x, x ∈ nodes -> x ∈ nodes') ->
  root_settled ntk nodes n -> root_settled ntk nodes' n.
Proof.
  intros Hsub [d [Hd H]]. exists d. split; [exact Hd |].
  destruct (kind d); [exact I | auto |].
  destruct (children d); [exact I | auto].
Qed.

Lemma collect_recurse_settles (fuel : nat) (n : node) (nodes nodes' : list node) :
  collect_recurse fuel ntk n nodes = Returns nodes' ->
  root_settled ntk nodes' n.
Proof.
  destruct fuel as [| fuel]; [discriminate |]. simpl.
  unfold is_constant, is_pi, fanins, node_at.
  destruct (storage ntk !! n) as [d |] eqn:Hd; simpl; [| discriminate].
  intros H. exists d. split; [exact Hd |].
  destruct (kind d); simpl in H.
  - exact I.
  - injection H as <-. case_bool_decide; [assumption |].
    apply elem_of_app. right. apply list_elem_of_singleton. reflexivity.
  - destruct (children d) as [| f fs]; [exact I |]. simpl in H.
    case_bool_decide as Hin.
    + simpl in H. injection H as <-. exact Hin.
    + apply bind_returns in H as [[b s1] [H1 H2]].
      apply bind_returns in H1 as [s2 [H1 H3]]. injection H3 as <- <-. simpl in H2.
      assert (Hf : get_node f ∈ s2).
      { apply (collect_recurse_grows _ _ _ _ H1). apply elem_of_app. right.
        apply list_elem_of_singleton. reflexivity. }
      revert H2 Hf.
      apply (foreach_element_preorder _
               (fun s s' => get_node f ∈ s -> get_node f ∈ s')); [auto | auto |].
      intros g s b s' _ Hg. case_bool_decide.
      * injection Hg as _ <-. auto.
      * apply bind_returns in Hg as [s3 [Hg1 Hg2]]. injection Hg2 as _ <-.
        intros Hx. apply (collect_recurse_grows _ _ _ _ Hg1). apply elem_of_app.
        left. exact Hx.
Qed.

Lemma collect_recurse_settled (fuel : nat) (n : node) (nodes : list node) :
  root_settled ntk nodes n ->
  collect_recurse (S fuel) ntk n nodes = Returns nodes.
Proof.
  intros [d [Hd H]]. simpl. unfold is_constant, is_pi, fanins, node_at.
  rewrite Hd. simpl. destruct (kind d); simpl.
  - reflexivity.
  - rewrite bool_decide_eq_true_2 by exact H. reflexivity.
  - destruct (children d) as [| f fs]; [reflexivity |]. simpl.
    rewrite bool_decide_eq_true_2 by exact H. reflexivity.
Qed.

Lemma collect_pivots_cons (p : node) (ps nodes : list node) :
  collect_pivots ntk (p :: ps) nodes
  = collect_recurse (fuel_for p) ntk p nodes ≫= fun nodes' => collect_pivots ntk ps nodes'.
Proof. reflexivity. Qed.

Lemma collect_pivots_grows (ps : list node) :
  forall nodes nodes',
    collect_pivots ntk ps nodes = Returns nodes' ->
    forall x, x ∈ nodes -> x ∈ nodes'.
Proof.
  induction ps as [| p ps IH]; intros nodes nodes' H.
  - injection H as <-. auto.
  - rewrite collect_pivots_cons in H.
    apply bind_returns in H as [s1 [H1 H2]]. intros x Hx.
    apply (IH _ _ H2). apply (collect_recurse_grows _ _ _ _ H1). exact Hx.
Qed.

Lemma collect_pivots_settles (ps : list node) :
  forall nodes nodes',
    collect_pivots ntk ps nodes = Returns nodes' ->
    Forall (root_settled ntk nodes') ps.
Proof.
  induction ps as [| p ps IH]; intros nodes nodes' H.
  - constructor.
  - rewrite collect_pivots_cons in H.
    apply bind_returns in H as [s1 [H1 H2]]. constructor.
    + apply (root_settled_mono s1); [apply (collect_pivots_grows _ _ _ H2) |].
      apply (collect_recurse_settles _ _ _ _ H1).
    + apply (IH _ _ H2).
Qed.

Lemma collect_pivots_settled (ps : list node) (nodes : list node) :
  Forall (root_settled ntk nodes) ps ->
  collect_pivots ntk ps nodes = Returns nodes.
Proof.
  induction 1 as [| p ps Hp Hps IH]; [reflexivity |].
  rewrite collect_pivots_cons. unfold fuel_for.
  rewrite (collect_recurse_settled _ _ _ Hp). exact IH.
Qed.

End collect.

(** ** Reads of the index map and marks *)

Lemma same_reads_refl (m : gmap node nat) : same_reads m m.
Proof. split; [reflexivity | reflexivity]. Qed.

Lemma same_reads_trans (m1 m2 m3 : gmap node nat) :
  same_reads m1 m2 -> same_reads m2 m3 -> same_reads m1 m3.
Proof.
  intros [H1 L1] [H2 L2]. split; [etransitivity; eassumption |].
  intros n. rewrite L2. apply L1.
Qed.

Lemma index_of_fst (m : gmap node nat) (n : node) : fst (index_of m n) = lookup0 m n.
Proof. unfold index_of, lookup0. destruct (m !! n); reflexivity. Qed.

Lemma index_of_snd (m : gmap node nat) (n : node) : same_reads m (snd (index_of m n)).
Proof.
  unfold index_of. destruct (m !! n) as [i |] eqn:Hn; simpl; [apply same_reads_refl |].
  split; [apply insert_subseteq; exact Hn |].
  intros k. unfold lookup0. destruct (decide (n = k)) as [-> | Hne].
  - rewrite lookup_insert_eq, Hn. reflexivity.
  - rewrite lookup_insert_ne by exact Hne. reflexivity.
Qed.

Lemma index_of_known (m mf : gmap node nat) (n : node) :
  snd (index_of m n) ⊆ mf -> index_of mf n = (lookup0 m n, mf).
Proof.
  unfold index_of, lookup0. destruct (m !! n) as [i |] eqn:Hn; simpl; intros Hsub.
  - rewrite (lookup_weaken _ _ _ _ Hn Hsub). reflexivity.
  - rewrite (lookup_weaken _ mf n 0 (lookup_insert_eq _ _ _) Hsub). reflexivity.
Qed.

Lemma set_color_returns (colors colors' : list nat) (i c : nat) :
  set_color colors i c = Returns colors' ->
  colors' = <[i := c]> colors /\ i < length colors.
Proof.
  unfold set_color. destruct (Nat.ltb_spec i (length colors)) as [Hlt | Hge];
    [| discriminate].
  intros H. injection H as <-. split; [reflexivity | exact Hlt].
Qed.

Lemma blocked_insert (colors : list nat) (i j c : nat) :
  blocked colors j -> (i = j -> c = 2) -> blocked (<[i := c]> colors) j.
Proof.
  unfold blocked. intros Hj Hc. destruct (decide (i = j)) as [-> | Hne].
  - rewrite list_lookup_insert_eq by (eapply lookup_lt_Some; exact Hj).
    rewrite (Hc eq_refl). reflexivity.
  - rewrite list_lookup_insert_ne by exact Hne. exact Hj.
Qed.

Lemma blocked_insert_inv (colors : list nat) (i j c : nat) :
  c <> 2 -> blocked (<[i := c]> colors) j -> blocked colors j.
Proof.
  unfold blocked. intros Hc. destruct (decide (i = j)) as [-> | Hne].
  - intros H. destruct (decide (j < length colors)) as [Hlt | Hge].
    + rewrite list_lookup_insert_eq in H by exact Hlt. congruence.
    + rewrite list_insert_ge in H by lia. exact H.
  - rewrite list_lookup_insert_ne by exact Hne. exact (fun H => H).
Qed.

(** ** The preorder of [topo_sort_rec] *)

Ltac topo_le_parts := unfold topo_le; refine (conj _ (conj _ (conj _ (conj _ _)))).

Lemma topo_le_refl (b : nat) (st : topo_state) : topo_le b st st.
Proof.
  topo_le_parts; auto.
  - apply same_reads_refl.
  - exists []. rewrite app_nil_r. split; [reflexivity | constructor].
Qed.

Lemma topo_le_trans (b : nat) (s1 s2 s3 : topo_state) :
  topo_le b s1 s2 -> topo_le b s2 s3 -> topo_le b s1 s3.
Proof.
  intros (R1 & L1 & B1 & (a1 & T1 & F1) & I1) (R2 & L2 & B2 & (a2 & T2 & F2) & I2).
  topo_le_parts.
  - apply (same_reads_trans _ _ _ R1 R2).
  - congruence.
  - auto.
  - exists (a1 ++ a2). split; [rewrite T2, T1, app_assoc; reflexivity |].
    apply Forall_app. split; [exact F1 |].
    eapply Forall_impl; [exact F2 |]. intros x [Hx Hnb]. split; [exact Hx |].
    intros Hb. apply Hnb. destruct R1 as [_ R1]. rewrite R1. apply B1. exact Hb.
  - auto.
Qed.

Lemma topo_le_bound (b b' : nat) (s1 s2 : topo_state) :
  b <= b' -> topo_le b s1 s2 -> topo_le b' s1 s2.
Proof.
  intros Hb (R1 & L1 & B1 & (a1 & T1 & F1) & I1). topo_le_parts; auto.
  exists a1. split; [exact T1 |]. eapply Forall_impl; [exact F1 |].
  intros x [Hx Hnb]. split; [lia | exact Hnb].
Qed.

Section topo.
Variable ntk : network.t.

Lemma topo_sort_rec_S (fuel : nat) (n : node) (st : topo_state) :
  topo_sort_rec (S fuel) ntk n st
  = let idx := lookup0 (t_index st) n in
    let m := snd (index_of (t_index st) n) in
    get_color (t_colors st) idx ≫= fun c =>
      if Nat.eqb c 2 then Returns (mk_topo m (t_colors st) (t_topo st))
      else
        set_color (t_colors st) idx 1 ≫= fun colors =>
        fanins ntk n ≫= fun fs =>
        foreach_element
          (fun f st => topo_sort_rec fuel ntk (get_node f) st ≫= fun st' =>
                       Returns (true, st'))
          fs (mk_topo m colors (t_topo st)) ≫= fun st' =>
        set_color (t_colors st') idx 2 ≫= fun colors' =>
        Returns (mk_topo (t_index st') colors' (t_topo st' ++ [n])).
Proof.
  simpl. unfold index_of, lookup0. destruct (t_index st !! n); reflexivity.
Qed.

Lemma topo_sort_pivots_cons (p : node) (ps : list node) (st : topo_state) :
  topo_sort_pivots ntk (p :: ps) st
  = topo_sort_rec (fuel_for p) ntk p st ≫= fun st' => topo_sort_pivots ntk ps st'.
Proof. reflexivity. Qed.

Lemma fanins_below (n : node) (fs : list signal) (f : signal) :
  dag_ordered ntk -> fanins ntk n = Returns fs -> In f fs -> get_node f < n.
Proof.
  intros Hdag. unfold fanins, node_at.
  destruct (storage ntk !! n) as [d |] eqn:Hd; simpl; [| discriminate].
  intros H Hf. injection H as <-. destruct (kind d); try contradiction.
  exact (Hdag n d f Hd Hf).
Qed.

Hypothesis ordered : dag_ordered ntk.

Lemma topo_sort_rec_le (fuel : nat) :
  forall n st st',
    topo_sort_rec fuel ntk n st = Returns st' -> topo_le (S n) st st'.
Proof.
  induction fuel as [| fuel IH]; intros n st st' H; [discriminate |].
  rewrite topo_sort_rec_S in H. cbv zeta in H.
  pose proof (index_of_snd (t_index st) n) as Hm.
  set (idx := lookup0 (t_index st) n) in *.
  set (m := snd (index_of (t_index st) n)) in *.
  apply bind_returns in H as [c [Hc H]].
  unfold get_color in Hc.
  destruct (t_colors st !! idx) as [c0 |] eqn:Hidx; [| discriminate].
  injection Hc as ->.
  destruct (Nat.eqb_spec c 2) as [-> | Hc2].
  { injection H as <-. topo_le_parts; simpl; auto.
    - exists []. rewrite app_nil_r. split; [reflexivity | constructor].
    - intros [Hnd Hall]. split; [exact Hnd |]. simpl. intros x Hx.
      destruct Hm as [_ Hm]. rewrite Hm. apply Hall. exact Hx. }
  apply bind_returns in H as [colors1 [H1 H]].
  apply set_color_returns in H1 as [-> Hlt].
  apply bind_returns in H as [fs [Hfs H]].
  apply bind_returns in H as [st2 [Hloop H]].
  apply bind_returns in H as [colors2 [H2 H]].
  apply set_color_returns in H2 as [-> Hlt2].
  injection H as <-.
  assert (Hle : topo_le n (mk_topo m (<[idx := 1]> (t_colors st)) (t_topo st)) st2).
  { revert Hloop. apply foreach_element_preorder.
    - apply topo_le_refl.
    - apply topo_le_trans.
    - intros f s b s' Hf Hcall. apply bind_returns in Hcall as [s1 [Hcall Hr]].
      injection Hr as _ <-. apply (topo_le_bound (S (get_node f))).
      + apply (fanins_below n fs f ordered Hfs Hf).
      + apply (IH _ _ _ Hcall). }
  destruct Hle as (R & L & B & (added & T & F) & I). simpl in R, L, B, T, F, I.
  assert (Hnb : ~ blocked (t_colors st) idx).
  { unfold blocked. rewrite Hidx. congruence. }
  assert (Hreads : same_reads (t_index st) (t_index st2)).
  { apply (same_reads_trans _ m); assumption. }
  topo_le_parts; simpl.
  { exact Hreads. }
  { rewrite length_insert, L, length_insert. reflexivity. }
  { intros i Hi. apply blocked_insert; [| reflexivity]. apply B.
    apply blocked_insert; [exact Hi |]. intros ->. contradiction. }
  { exists (added ++ [n]). split; [rewrite T, app_assoc; reflexivity |].
    apply Forall_app. split.
    - eapply Forall_impl; [exact F |]. intros x [Hx Hb]. split; [lia |].
      intros Hbl. apply Hb. destruct Hm as [_ Hm]. rewrite Hm.
      apply blocked_insert; [exact Hbl |]. intros ->. contradiction.
    - constructor; [| constructor]. split; [lia | exact Hnb]. }
  intros [Hnd Hall].
  assert (Hinv2 : topo_inv st2).
  { apply I. split; [exact Hnd |]. simpl. intros x Hx.
    destruct Hm as [_ Hm]. rewrite Hm.
    apply blocked_insert; [apply Hall; exact Hx |].
    intros Heq. exfalso. apply Hnb. rewrite Heq. apply Hall. exact Hx. }
  destruct Hinv2 as [Hnd2 Hall2]. split; simpl.
  - apply NoDup_app. split; [exact Hnd2 |]. split; [| apply NoDup_singleton].
    intros x Hx Hxn. apply list_elem_of_singleton in Hxn. subst x.
    rewrite T in Hx. apply elem_of_app in Hx as [Hx | Hx].
    + apply Hnb. apply Hall. apply list_elem_of_In. exact Hx.
    + rewrite Forall_forall in F. destruct (F n Hx) as [Hlt' _]. lia.
  - intros x Hx. apply in_app_or in Hx as [Hx | [<- | []]].
    + apply blocked_insert; [apply Hall2; exact Hx | reflexivity].
    + destruct Hreads as [_ Hr]. rewrite Hr. fold idx. unfold blocked.
      apply list_lookup_insert_eq. exact Hlt2.
Qed.

Lemma topo_sort_pivots_le (ps : list node) (b : nat) :
  Forall (fun p => p < b) ps ->
  forall st st', topo_sort_pivots ntk ps st = Returns st' -> topo_le b st st'.
Proof.
  induction 1 as [| p ps Hp Hps IH]; intros st st' H.
  - injection H as <-. apply topo_le_refl.
  - rewrite topo_sort_pivots_cons in H. apply bind_returns in H as [s1 [H1 H2]].
    apply (topo_le_trans _ _ s1); [| apply IH; exact H2].
    apply (topo_le_bound (S p)); [lia |]. apply (topo_sort_rec_le _ _ _ _ H1).
Qed.

End topo.

(** ** The index map under [emplace] *)

Lemma emplace_subseteq (m : gmap node nat) (n : node) : m ⊆ emplace m n.
Proof.
  unfold emplace. destruct (m !! n) eqn:Hn; [reflexivity |].
  apply insert_subseteq. exact Hn.
Qed.

Lemma emplace_has (m : gmap node nat) (n : node) : is_Some (emplace m n !! n).
Proof.
  unfold emplace. destruct (m !! n) eqn:Hn; [rewrite Hn; eauto |].
  rewrite lookup_insert_eq. eauto.
Qed.

Lemma emplace_known (m : gmap node nat) (n : node) :
  is_Some (m !! n) -> emplace m n = m.
Proof. intros [i Hi]. unfold emplace. rewrite Hi. reflexivity. Qed.

Lemma emplace_dom (m : gmap node nat) (n x : node) :
  is_Some (emplace m n !! x) -> is_Some (m !! x) \/ x = n.
Proof.
  unfold emplace. destruct (m !! n) eqn:Hn; [auto |].
  destruct (decide (n = x)) as [-> | Hne]; [auto |].
  rewrite lookup_insert_ne by exact Hne. auto.
Qed.

Lemma fold_emplace_subseteq (ks : list node) :
  forall m, m ⊆ fold_left emplace ks m.
Proof.
  induction ks as [| k ks IH]; intros m; simpl; [reflexivity |].
  etransitivity; [apply (emplace_subseteq m k) | apply IH].
Qed.

Lemma fold_emplace_has (ks : list node) :
  forall m x, In x ks -> is_Some (fold_left emplace ks m !! x).
Proof.
  induction ks as [| k ks IH]; intros m x Hx; [contradiction |]. simpl.
  destruct Hx as [-> | Hx]; [| apply IH; exact Hx].
  destruct (emplace_has m x) as [i Hi]. exists i.
  apply (lookup_weaken _ _ _ _ Hi (fold_emplace_subseteq ks _)).
Qed.

Lemma fold_emplace_dom (ks : list node) :
  forall m x, is_Some (fold_left emplace ks m !! x) -> is_Some (m !! x) \/ In x ks.
Proof.
  induction ks as [| k ks IH]; intros m x Hx; simpl in *; [auto |].
  destruct (IH _ _ Hx) as [H | H]; [| auto].
  destruct (emplace_dom _ _ _ H) as [H' | ->]; auto.
Qed.

Lemma fold_emplace_known (ks : list node) (m : gmap node nat) :
  (forall x, In x ks -> is_Some (m !! x)) -> fold_left emplace ks m = m.
Proof.
  induction ks as [| k ks IH]; intros Hks; simpl; [reflexivity |].
  rewrite emplace_known by (apply Hks; left; reflexivity).
  apply IH. intros x Hx. apply Hks. right. exact Hx.
Qed.

(** ** Marking the leaves and the constants *)

Lemma color_leaves_spec (ls : list node) :
  forall m colors m' colors',
    color_leaves ls m colors = Returns (m', colors') ->
    same_reads m m'
    /\ length colors' = length colors
    /\ (forall i, blocked colors i -> blocked colors' i)
    /\ (forall l, In l ls -> blocked colors' (lookup0 m l)).
Proof.
  induction ls as [| l ls IH]; intros m colors m' colors' H; simpl in H.
  - injection H as <- <-. split; [apply same_reads_refl |]. repeat split; auto.
    intros l [].
  - pose proof (index_of_fst m l) as Hfst. pose proof (index_of_snd m l) as Hsnd.
    destruct (index_of m l) as [idx m1]. simpl in Hfst, Hsnd. subst idx.
    apply bind_returns in H as [colors1 [H1 H]].
    apply set_color_returns in H1 as [-> Hlt].
    destruct (IH _ _ _ _ H) as (R & L & B & A).
    split; [apply (same_reads_trans _ m1); assumption |].
    split; [rewrite L, length_insert; reflexivity |].
    split; [intros i Hi; apply B; apply blocked_insert; [exact Hi | reflexivity] |].
    intros x [<- | Hx].
    + apply B. unfold blocked. apply list_lookup_insert_eq. exact Hlt.
    + destruct Hsnd as [_ Hsnd]. rewrite <- Hsnd. apply A. exact Hx.
Qed.

Lemma color_leaves_replay (ls : list node) :
  forall m colors m' colors' mf,
    color_leaves ls m colors = Returns (m', colors') ->
    m' ⊆ mf ->
    color_leaves ls mf colors = Returns (mf, colors').
Proof.
  induction ls as [| l ls IH]; intros m colors m' colors' mf H Hsub; simpl in H |- *.
  - injection H as <- <-. reflexivity.
  - pose proof (index_of_fst m l) as Hfst.
    pose proof (index_of_known m mf l) as Hknown.
    destruct (index_of m l) as [idx m1]. simpl in Hfst, Hknown. subst idx.
    apply bind_returns in H as [colors1 [H1 H]].
    destruct (color_leaves_spec _ _ _ _ _ H) as ([Hm1 _] & _).
    rewrite Hknown by (etransitivity; eassumption).
    rewrite H1. simpl. apply (IH _ _ _ _ _ H Hsub).
Qed.

Lemma color_constants_spec (idxs : list nat) :
  forall colors colors',
    color_constants idxs colors = Returns colors' ->
    length colors' = length colors
    /\ (forall i, blocked colors i -> blocked colors' i)
    /\ (forall i, In i idxs -> blocked colors' i).
Proof.
  induction idxs as [| k idxs IH]; intros colors colors' H; simpl in H.
  - injection H as <-. repeat split; auto. intros i [].
  - apply bind_returns in H as [colors1 [H1 H]].
    apply set_color_returns in H1 as [-> Hlt].
    destruct (IH _ _ H) as (L & B & A).
    split; [rewrite L, length_insert; reflexivity |].
    split; [intros i Hi; apply B; apply blocked_insert; [exact Hi | reflexivity] |].
    intros i [<- | Hi]; [| apply A; exact Hi].
    apply B. unfold blocked. apply list_lookup_insert_eq. exact Hlt.
Qed.

(** ** Running [topo_sort_rec] again over the grown map *)

Section topo_replay.
Variable ntk : network.t.

Lemma topo_sort_rec_index_grows (fuel : nat) :
  forall n st st',
    topo_sort_rec fuel ntk n st = Returns st' -> t_index st ⊆ t_index st'.
Proof.
  induction fuel as [| fuel IH]; intros n st st' H; [discriminate |].
  rewrite topo_sort_rec_S in H. cbv zeta in H.
  destruct (index_of_snd (t_index st) n) as [Hm _].
  apply bind_returns in H as [c [_ H]].
  destruct (Nat.eqb c 2); [injection H as <-; exact Hm |].
  apply bind_returns in H as [colors1 [_ H]].
  apply bind_returns in H as [fs [_ H]].
  apply bind_returns in H as [st2 [Hloop H]].
  apply bind_returns in H as [colors2 [_ H]].
  injection H as <-. simpl. etransitivity; [exact Hm |].
  revert Hloop.
  apply (foreach_element_preorder _ (fun s s' => t_index s ⊆ t_index s')).
  - reflexivity.
  - intros s1 s2 s3 H1 H2. etransitivity; eassumption.
  - intros f s b s' _ Hcall. apply bind_returns in Hcall as [s1 [Hcall Hr]].
    injection Hr as _ <-. apply (IH _ _ _ Hcall).
Qed.

Lemma topo_sort_rec_replay (fuel : nat) :
  forall n st st' mf,
    topo_sort_rec fuel ntk n st = Returns st' ->
    t_index st' ⊆ mf ->
    topo_sort_rec fuel ntk n (with_index mf st) = Returns (with_index mf st').
Proof.
  induction fuel as [| fuel IH]; intros n st st' mf H Hsub; [discriminate |].
  pose proof (topo_sort_rec_index_grows _ _ _ _ H) as Hgrow.
  rewrite topo_sort_rec_S in H. rewrite topo_sort_rec_S. cbv zeta in H |- *.
  unfold with_index at 1 2 3 4 5 6. simpl t_index. simpl t_colors. simpl t_topo.
  assert (Hloop_grow : forall fs s s',
             foreach_element
               (fun f st => topo_sort_rec fuel ntk (get_node f) st ≫= fun st' =>
                            Returns (true, st')) fs s = Returns s' ->
             t_index s ⊆ t_index s').
  { intros fs. apply (foreach_element_preorder _ (fun s s' => t_index s ⊆ t_index s')).
    - reflexivity.
    - intros s1 s2 s3 H1 H2. etransitivity; eassumption.
    - intros f s b s' _ Hcall. apply bind_returns in Hcall as [s1 [Hcall Hr]].
      injection Hr as _ <-. apply (topo_sort_rec_index_grows _ _ _ _ Hcall). }
  assert (Hloop : forall fs s s',
             foreach_element
               (fun f st => topo_sort_rec fuel ntk (get_node f) st ≫= fun st' =>
                            Returns (true, st')) fs s = Returns s' ->
             t_index s' ⊆ mf ->
             foreach_element
               (fun f st => topo_sort_rec fuel ntk (get_node f) st ≫= fun st' =>
                            Returns (true, st')) fs (with_index mf s)
             = Returns (with_index mf s')).
  { induction fs as [| f fs IHfs]; intros s s' Hl Hs'; simpl in Hl |- *.
    - injection Hl as <-. reflexivity.
    - apply bind_returns in Hl as [[b s1] [Hcall Hl]].
      apply bind_returns in Hcall as [s2 [Hcall Hr]]. injection Hr as <- <-.
      simpl in Hl.
      rewrite (IH _ _ _ mf Hcall) by (etransitivity; [apply (Hloop_grow _ _ _ Hl) | exact Hs']).
      simpl. apply IHfs; assumption. }
  apply bind_returns in H as [c [Hc H]].
  destruct (Nat.eqb c 2) eqn:Hc2.
  { injection H as <-. simpl in Hsub.
    rewrite (index_of_known _ _ _ Hsub). simpl.
    assert (Hl : lookup0 mf n = lookup0 (t_index st) n).
    { pose proof (index_of_known _ _ n Hsub) as Hk.
      rewrite <- index_of_fst, Hk. reflexivity. }
    rewrite Hl, Hc. simpl. rewrite Hc2. reflexivity. }
  apply bind_returns in H as [colors1 [H1 H]].
  apply bind_returns in H as [fs [Hfs H]].
  apply bind_returns in H as [st2 [Hl H]].
  apply bind_returns in H as [colors2 [H2 H]].
  injection H as <-. simpl in Hsub.
  assert (Hm : snd (index_of (t_index st) n) ⊆ mf).
  { etransitivity; [apply (Hloop_grow _ _ _ Hl) | exact Hsub]. }
  assert (Hlk : lookup0 mf n = lookup0 (t_index st) n).
  { pose proof (index_of_known _ _ n Hm) as Hk.
    rewrite <- index_of_fst, Hk. reflexivity. }
  rewrite (index_of_known _ _ _ Hm). simpl.
  rewrite Hlk, Hc. simpl. rewrite Hc2, H1. simpl. rewrite Hfs. simpl.
  pose proof (Hloop _ _ _ Hl Hsub) as Hl'. unfold with_index at 1 in Hl'. simpl in Hl'.
  rewrite Hl'. simpl. rewrite H2. reflexivity.
Qed.

Lemma topo_sort_pivots_index_grows (ps : list node) :
  forall st st', topo_sort_pivots ntk ps st = Returns st' -> t_index st ⊆ t_index st'.
Proof.
  induction ps as [| p ps IH]; intros st st' H.
  - injection H as <-. reflexivity.
  - rewrite topo_sort_pivots_cons in H. apply bind_returns in H as [s1 [H1 H2]].
    etransitivity; [apply (topo_sort_rec_index_grows _ _ _ _ H1) | apply (IH _ _ H2)].
Qed.

Lemma topo_sort_pivots_replay (ps : list node) :
  forall st st' mf,
    topo_sort_pivots ntk ps st = Returns st' ->
    t_index st' ⊆ mf ->
    topo_sort_pivots ntk ps (with_index mf st) = Returns (with_index mf st').
Proof.
  induction ps as [| p ps IH]; intros st st' mf H Hsub.
  - injection H as <-. reflexivity.
  - rewrite topo_sort_pivots_cons in H. rewrite topo_sort_pivots_cons.
    apply bind_returns in H as [s1 [H1 H2]].
    rewrite (topo_sort_rec_replay _ _ _ _ mf H1)
      by (etransitivity; [apply (topo_sort_pivots_index_grows _ _ _ H2) | exact Hsub]).
    simpl. apply (IH _ _ _ H2 Hsub).
Qed.

End topo_replay.

(** ** [compute_sets], step by step *)

Lemma merge_sort_sorted (l : list node) : merge_sort le (merge_sort le l) = merge_sort le l.
Proof.
  apply (Sorted_unique le).
  - apply Sorted_merge_sort. apply _.
  - apply Sorted_merge_sort. apply _.
  - apply merge_sort_Permutation.
Qed.

Lemma compute_sets_steps (v v1 : coi_view) :
  compute_sets v = Returns v1 <->
  exists leaves inner0 m' colorsL colors st,
    split_nodes (ntk v) (merge_sort le (_nodes v)) (_leaves v) (_inner v)
    = Returns (leaves, inner0)
    /\ color_leaves leaves
         (fold_left emplace (_pivots v)
            (fold_left emplace inner0 (fold_left emplace leaves (_node_to_index v))))
         (replicate (_num_constants v + length (inner0 ++ _pivots v) + length leaves) 0)
       = Returns (m', colorsL)
    /\ color_constants (seq 0 (_num_constants v)) colorsL = Returns colors
    /\ topo_sort_pivots (ntk v) (_pivots v) (mk_topo m' colors []) = Returns st
    /\ length (inner0 ++ _pivots v) = length (t_topo st)
    /\ v1 = {| ntk := ntk v;
               _constants := _constants v;
               _nodes := merge_sort le (_nodes v);
               _leaves := leaves;
               _pivots := _pivots v;
               _inner := t_topo st;
               _topo := t_topo st;
               _colors := t_colors st;
               _node_to_index := t_index st;
               _num_constants := _num_constants v;
               _sequential_wrap_around := _sequential_wrap_around v |}.
Proof.
  unfold compute_sets. split.
  - intros H.
    apply bind_returns in H as [[leaves inner0] [Hs H]]. cbv zeta in H. simpl fst in H.
    simpl snd in H.
    apply bind_returns in H as [[m' colorsL] [Hl H]]. simpl fst in H. simpl snd in H.
    apply bind_returns in H as [colors [Hc H]].
    apply bind_returns in H as [st [Ht H]].
    destruct (Nat.eqb_spec (length (inner0 ++ _pivots v)) (length (t_topo st))) as [He | Hne];
      simpl in H; [| discriminate].
    injection H as <-. exists leaves, inner0, m', colorsL, colors, st. auto 10.
  - intros (leaves & inner0 & m' & colorsL & colors & st & Hs & Hl & Hc & Ht & He & ->).
    rewrite Hs. simpl. rewrite Hl. simpl. rewrite Hc. simpl. rewrite Ht. simpl.
    rewrite He, Nat.eqb_refl. reflexivity.
Qed.

Lemma update_twice (v v1 : coi_view) : update v = Returns v1 -> update v1 = Returns v1.
Proof.
  unfold update at 1. intros H.
  apply bind_returns in H as [nodes [Hcollect H]].
  apply compute_sets_steps in H
    as (leaves & inner0 & m' & colorsL & colors & st & Hs & Hl & Hc & Ht & He & ->).
  simpl in Hs, Hl, Hc, Ht, He.
  unfold update. simpl.
  assert (Hsettled : Forall (root_settled (ntk v) (merge_sort le nodes)) (_pivots v)).
  { eapply Forall_impl; [apply (collect_pivots_settles _ _ _ _ Hcollect) |].
    intros p. apply root_settled_mono. intros x Hx.
    rewrite merge_sort_Permutation. exact Hx. }
  rewrite (collect_pivots_settled _ _ _ Hsettled). simpl.
  apply compute_sets_steps. simpl.
  exists leaves, inner0, (t_index st), colorsL, colors, st.
  rewrite merge_sort_sorted.
  set (m1 := fold_left emplace leaves (_node_to_index v)) in *.
  set (m2 := fold_left emplace inner0 m1) in *.
  set (m3 := fold_left emplace (_pivots v) m2) in *.
  assert (H12 : m1 ⊆ m2) by apply fold_emplace_subseteq.
  assert (H23 : m2 ⊆ m3) by apply fold_emplace_subseteq.
  assert (H3m : m3 ⊆ m') by (apply (color_leaves_spec _ _ _ _ _ Hl)).
  assert (Hmst : m' ⊆ t_index st) by (apply (topo_sort_pivots_index_grows _ _ _ _ Ht)).
  assert (Hkeys : forall (ks : list node) (m : gmap node nat),
             fold_left emplace ks m ⊆ t_index st ->
             forall x, In x ks -> is_Some (t_index st !! x)).
  { intros ks m Hsub x Hx. destruct (fold_emplace_has ks m x Hx) as [i Hi].
    exists i. apply (lookup_weaken _ _ _ _ Hi Hsub). }
  split; [exact Hs |].
  rewrite (fold_emplace_known leaves (t_index st)).
  2:{ apply (Hkeys leaves (_node_to_index v)). fold m1.
      repeat (etransitivity; [eassumption |]). reflexivity. }
  rewrite (fold_emplace_known inner0 (t_index st)).
  2:{ apply (Hkeys inner0 m1). fold m2.
      repeat (etransitivity; [eassumption |]). reflexivity. }
  rewrite (fold_emplace_known (_pivots v) (t_index st)).
  2:{ apply (Hkeys (_pivots v) m2). fold m3.
      repeat (etransitivity; [eassumption |]). reflexivity. }
  split; [apply (color_leaves_replay _ _ _ _ _ _ Hl Hmst) |].
  split; [exact Hc |].
  split.
  { pose proof (topo_sort_pivots_replay _ _ _ _ (t_index st) Ht (reflexivity _)) as Hr.
    unfold with_index in Hr. simpl in Hr. rewrite Hr. destruct st; reflexivity. }
  split; [exact He | reflexivity].
Qed.

(** ** The view the constructor builds *)

Lemma dag_orderedb_ordered (ntk : network.t) :
  dag_orderedb ntk = true -> dag_ordered ntk.
Proof.
  unfold dag_orderedb, dag_ordered. intros H n d f Hd Hf.
  rewrite forallb_forall in H.
  assert (Hin : In (n, d) (combine (seq 0 (length (storage ntk))) (storage ntk))).
  { apply list_elem_of_In. apply list_elem_of_lookup. exists n.
    assert (Hlt : n < length (storage ntk)) by (eapply lookup_lt_Some; exact Hd).
    apply (proj2 (lookup_zip_with_Some pair _ _ n (n, d))).
    exists n, d. split; [reflexivity |]. split; [| exact Hd].
    apply lookup_seq. split; [reflexivity | exact Hlt]. }
  specialize (H _ Hin). simpl in H. rewrite forallb_forall in H.
  apply Nat.ltb_lt. apply H. exact Hf.
Qed.

Lemma constants_index_bound (c0 c1 x j : node) :
  let two := negb (Nat.eqb c1 c0) in
  (if two then emplace (emplace ∅ c0) c1 else emplace ∅ c0) !! x = Some j ->
  j < (if two then 2 else 1).
Proof.
  cbv zeta. unfold emplace at 2 3. rewrite !lookup_empty, map_size_empty.
  destruct (Nat.eqb_spec c1 c0) as [-> | Hne]; simpl.
  - intros H. apply lookup_insert_Some in H as [[_ <-] | [_ H]]; [lia |].
    rewrite lookup_empty in H. discriminate.
  - unfold emplace. rewrite lookup_insert_ne by congruence. rewrite lookup_empty.
    rewrite map_size_insert_None by apply lookup_empty. rewrite map_size_empty.
    intros H. apply lookup_insert_Some in H as [[_ <-] | [_ H]]; [lia |].
    apply lookup_insert_Some in H as [[_ <-] | [_ H]]; [lia |].
    rewrite lookup_empty in H. discriminate.
Qed.

Tactic Notation "view_fields" "in" hyp(H) :=
  cbn [ntk _constants _nodes _leaves _pivots _inner _topo _colors _node_to_index
       _num_constants _sequential_wrap_around] in H.

Tactic Notation "view_fields" :=
  cbn [ntk _constants _nodes _leaves _pivots _inner _topo _colors _node_to_index
       _num_constants _sequential_wrap_around].


(** ** The fuel is enough *)

Lemma bind_fuel {A B : Type} (m : outcome A) (f : A -> outcome B) :
  m <> OutOfFuel ->
  (forall a, m = Returns a -> f a <> OutOfFuel) ->
  m ≫= f <> OutOfFuel.
Proof.
  intros Hm Hf. destruct m; simpl; try discriminate; [| contradiction].
  apply Hf. reflexivity.
Qed.

Lemma deref_fuel {A : Type} (o : option A) : deref o <> OutOfFuel.
Proof. destruct o; discriminate. Qed.

Lemma node_query_fuel {A : Type} (ntk : network.t) (n : node) (f : node_data -> A) :
  node_at ntk n ≫= (fun d => Returns (f d)) <> OutOfFuel.
Proof. unfold node_at. destruct (storage ntk !! n); discriminate. Qed.

Lemma set_color_fuel (colors : list nat) (i c : nat) : set_color colors i c <> OutOfFuel.
Proof. unfold set_color. destruct (Nat.ltb i (length colors)); discriminate. Qed.

Lemma foreach_element_fuel {A S : Type} (fn : A -> S -> outcome (bool * S))
  (xs : list A) :
  (forall x s, In x xs -> fn x s <> OutOfFuel) ->
  forall s, foreach_element fn xs s <> OutOfFuel.
Proof.
  induction xs as [| x xs IH]; intros Hfn s; simpl; [discriminate |].
  apply bind_fuel; [apply Hfn; left; reflexivity |].
  intros [b s1] _. simpl. destruct b; [| discriminate].
  apply IH. intros y t Hy. apply Hfn. right. exact Hy.
Qed.

Section fuel.
Variable ntk : network.t.
Hypothesis ordered : dag_ordered ntk.

Lemma collect_recurse_fuel (fuel : nat) :
  forall n nodes, n < fuel -> collect_recurse fuel ntk n nodes <> OutOfFuel.
Proof.
  induction fuel as [| fuel IH]; intros n nodes Hn; [lia |]. simpl.
  apply bind_fuel; [apply node_query_fuel |]. intros c _.
  destruct c; [discriminate |].
  apply bind_fuel; [apply node_query_fuel |]. intros p _.
  destruct p; [discriminate |].
  apply bind_fuel; [apply node_query_fuel |]. intros fs Hfs.
  apply foreach_element_fuel. intros f s Hf.
  case_bool_decide; [discriminate |].
  apply bind_fuel; [| discriminate].
  apply IH. pose proof (fanins_below ntk n fs f ordered Hfs Hf). lia.
Qed.

Lemma topo_sort_rec_fuel (fuel : nat) :
  forall n st, n < fuel -> topo_sort_rec fuel ntk n st <> OutOfFuel.
Proof.
  induction fuel as [| fuel IH]; intros n st Hn; [lia |].
  rewrite topo_sort_rec_S. cbv zeta.
  apply bind_fuel; [apply deref_fuel |]. intros c _.
  destruct (Nat.eqb c 2); [discriminate |].
  apply bind_fuel; [apply set_color_fuel |]. intros colors1 _.
  apply bind_fuel; [apply node_query_fuel |]. intros fs Hfs.
  apply bind_fuel.
  - apply foreach_element_fuel. intros f s Hf.
    apply bind_fuel; [| discriminate].
    apply IH. pose proof (fanins_below ntk n fs f ordered Hfs Hf). lia.
  - intros st2 _. apply bind_fuel; [apply set_color_fuel | discriminate].
Qed.

Lemma collect_pivots_fuel (ps : list node) :
  forall nodes, collect_pivots ntk ps nodes <> OutOfFuel.
Proof.
  induction ps as [| p ps IH]; intros nodes; [discriminate |].
  rewrite collect_pivots_cons.
  apply bind_fuel; [apply collect_recurse_fuel; unfold fuel_for; lia |].
  intros s _. apply IH.
Qed.

Lemma topo_sort_pivots_fuel (ps : list node) :
  forall st, topo_sort_pivots ntk ps st <> OutOfFuel.
Proof.
  induction ps as [| p ps IH]; intros st; [discriminate |].
  rewrite topo_sort_pivots_cons.
  apply bind_fuel; [apply topo_sort_rec_fuel; unfold fuel_for; lia |].
  intros s _. apply IH.
Qed.

Lemma split_nodes_fuel (ns : list node) :
  forall leaves inner, split_nodes ntk ns leaves inner <> OutOfFuel.
Proof.
  induction ns as [| n ns IH]; intros leaves inner; simpl; [discriminate |].
  apply bind_fuel; [apply node_query_fuel |]. intros c _.
  destruct c; [apply IH |].
  apply bind_fuel; [apply node_query_fuel |]. intros ci _.
  destruct ci; apply IH.
Qed.

End fuel.

Lemma color_leaves_fuel (ls : list node) :
  forall m colors, color_leaves ls m colors <> OutOfFuel.
Proof.
  induction ls as [| l ls IH]; intros m colors; simpl; [discriminate |].
  destruct (index_of m l) as [idx m1].
  apply bind_fuel; [apply set_color_fuel |]. intros c _. apply IH.
Qed.

Lemma color_constants_fuel (idxs : list nat) :
  forall colors, color_constants idxs colors <> OutOfFuel.
Proof.
  induction idxs as [| i idxs IH]; intros colors; simpl; [discriminate |].
  apply bind_fuel; [apply set_color_fuel |]. intros c _. apply IH.
Qed.

(** On a network whose fan-ins precede their node neither [update] nor the
    constructor runs out of fuel: the outcomes of the model are those of
    the source. *)
Lemma update_fuel (v : coi_view) : dag_ordered (coi.ntk v) -> update v <> OutOfFuel.
Proof.
  intros Hdag. unfold update.
  apply bind_fuel; [apply collect_pivots_fuel; exact Hdag |]. intros nodes _.
  unfold compute_sets. view_fields.
  apply bind_fuel; [apply split_nodes_fuel |]. intros li _. cbv zeta.
  apply bind_fuel; [apply color_leaves_fuel |]. intros mc _.
  apply bind_fuel; [apply color_constants_fuel |]. intros colors _.
  apply bind_fuel; [apply topo_sort_pivots_fuel; exact Hdag |]. intros st _.
  destruct (negb _); discriminate.
Qed.

Lemma create_fuel (ntk : network.t) (pivots : list node) (wrap : bool) :
  dag_ordered ntk -> create ntk pivots wrap <> OutOfFuel.
Proof. intros Hdag. unfold create. cbv zeta. apply update_fuel. exact Hdag. Qed.

(** * Properties of the cone-of-influence view *)

(** C5.  A second [update()] on a view (network and pivots unchanged)
    returns and leaves the exposed surface as the first left it: [size],
    [num_pis], [num_gates], the leaves, the inner nodes and the
    node-to-index map. *)
Theorem coi_update_again (ntk : network.t) (pivots : list node) (wrap : bool)
  (v : coi_view) :
  create ntk pivots wrap = Returns v ->
  exists v',
    update v = Returns v'
    /\ coi.size v' = coi.size v
    /\ num_pis v' = num_pis v
    /\ coi.num_gates v' = coi.num_gates v
    /\ _leaves v' = _leaves v
    /\ _inner v' = _inner v
    /\ (forall n, node_to_index v' n = node_to_index v n).
Proof.
  intros H. exists v. unfold create in H. cbv zeta in H.
  split; [exact (update_twice _ _ H) |]. repeat split; reflexivity.
Qed.

(** C6, on the code.  In the network of the test suite gate 8 is a
    fan-in of gate 10, and gate 6 a fan-in of gate 8.  From the pivots
    [10; 8] [collect_recurse] collects the pivot 8 as a fan-in of 10,
    [compute_sets] appends it to the inner nodes a second time, and the
    check [_inner.size() == _topo.size()] fails: no view is built, so the
    ancestor pivot does not occur once among the inner nodes of a view.
    The same happens with the pivots 6 and 8, in either order.  From
    [8; 10] a view is built, because the walk from 10 ends at its first
    fan-in, which is collected already, and never reaches 8. *)
Lemma coi_ancestor_pivot_aborts :
  ancestor examples.coi_test_aig 8 10
  /\ collect_pivots examples.coi_test_aig [10; 8] [] = Returns [6; 1; 2; 8]
  /\ create examples.coi_test_aig [10; 8] false = AssertFails
  /\ ancestor examples.coi_test_aig 6 8
  /\ create examples.coi_test_aig [6; 8] false = AssertFails
  /\ create examples.coi_test_aig [8; 6] false = AssertFails
  /\ collect_pivots examples.coi_test_aig [8; 10] [] = Returns [6; 1; 2; 7; 3; 4].
Proof.
  split.
  { apply (ancestor_fanin _ 8 10 [mk_signal 6 false; mk_signal 8 false] (mk_signal 8 false));
      [reflexivity | right; left; reflexivity | reflexivity]. }
  split; [vm_compute; reflexivity |].
  split; [vm_compute; reflexivity |].
  split.
  { apply (ancestor_fanin _ 6 8 [mk_signal 6 false; mk_signal 7 false] (mk_signal 6 false));
      [reflexivity | left; reflexivity | reflexivity]. }
  split; [vm_compute; reflexivity |].
  split; vm_compute; reflexivity.
Qed.

(** C2, on the code.  In the view of the network [a & (b & a)] built from
    its output gate, the inner gate [b & a] has the fan-in [b], which is
    neither a constant, a leaf nor an inner node of the view: the nodes of
    the view are not closed under fan-in, and no position of [b] precedes
    the gate. *)
Lemma coi_view_misses_fanin :
  exists v,
    create examples.refactor_test_aig [4] false = Returns v
    /\ foreach_node v = [0; 1; 3; 4]
    /\ fanins examples.refactor_test_aig 3 = Returns [mk_signal 1 false; mk_signal 2 false]
    /\ ~ fanin_closed v
    /\ ~ topologically_ordered v.
Proof.
  assert (Hv : exists v, create examples.refactor_test_aig [4] false = Returns v).
  { vm_compute. eexists. reflexivity. }
  destruct Hv as [v Hv]. exists v. split; [exact Hv |].
  assert (Hn : create examples.refactor_test_aig [4] false
               ≫= (fun v => Returns (coi.ntk v, _inner v, foreach_node v))
               = Returns (examples.refactor_test_aig, [3; 4], [0; 1; 3; 4])).
  { vm_compute. reflexivity. }
  rewrite Hv in Hn. simpl in Hn. injection Hn as Hntk Hinner Hnodes.
  split; [exact Hnodes |]. split; [reflexivity |].
  assert (H3 : In 3 (_inner v)) by (rewrite Hinner; simpl; auto).
  assert (Hf : fanins (coi.ntk v) 3 = Returns [mk_signal 1 false; mk_signal 2 false]).
  { rewrite Hntk. reflexivity. }
  split.
  - intros Hclosed.
    specialize (Hclosed 3 _ (mk_signal 2 false) H3 Hf (or_intror (or_introl eq_refl))).
    rewrite Hnodes in Hclosed. simpl in Hclosed.
    repeat (destruct Hclosed as [Hclosed | Hclosed]; [discriminate |]). exact Hclosed.
  - intros Horder.
    assert (Hpos : foreach_node v !! 2 = Some 3) by (rewrite Hnodes; reflexivity).
    destruct (Horder 2 3 _ (mk_signal 2 false) Hpos H3 Hf (or_intror (or_introl eq_refl)))
      as [j [Hj Hat]].
    rewrite Hnodes in Hat.
    destruct j as [| [| j]]; simpl in Hat; [discriminate | discriminate | lia].
Qed.

(** * Properties of the refactor driver *)

Section refactor_properties.
Import refactor.
Variable cut_manager : Type.
Variable make_cut_manager : nat -> cut_manager.
Variable reconv_driven_cut :
  cut_manager -> network.t -> node -> cut_manager * list node.

Local Abbreviation visit := (refactor.visit cut_manager reconv_driven_cut).
Local Abbreviation run := (refactor.run cut_manager make_cut_manager reconv_driven_cut).
Local Abbreviation refactor :=
  (refactor.refactor cut_manager make_cut_manager reconv_driven_cut).

Lemma gate_range_in_storage (ntk : network.t) (ni : node * nat) :
  In ni (gate_range ntk) -> fst ni < length (storage ntk).
Proof.
  unfold gate_range. destruct ni as [n i]. intros H. apply in_combine_l in H.
  apply filter_In in H as [H _]. apply in_seq in H. simpl. lia.
Qed.

Lemma sweep_keeps (ps : refactor_params) (size : nat) (xs : list (node * nat)) :
  forall s,
    (forall ni, In ni xs -> fst ni < length (storage (i_ntk _ s))) ->
    exists s',
      foreach_element (visit ps size) xs s = Returns s'
      /\ i_ntk _ s' = i_ntk _ s /\ i_st _ s' = i_st _ s.
Proof.
  induction xs as [| [n i] xs IH]; intros s Hin; simpl.
  - exists s. auto.
  - unfold refactor.visit at 1.
    destruct (Nat.leb size i); simpl; [exists s; auto |].
    unfold is_dead, fanout_size, node_at.
    assert (Hn : n < length (storage (i_ntk _ s))) by (apply (Hin (n, i)); left; reflexivity).
    destruct (storage (i_ntk _ s) !! n) as [d |] eqn:Hd;
      [| apply lookup_ge_None in Hd; lia].
    simpl.
    destruct (dead d); simpl.
    { apply IH. intros ni Hni. apply Hin. right. exact Hni. }
    destruct (Nat.ltb (skip_fanout_limit_for_roots ps) (fanout d)); simpl.
    { apply IH. intros ni Hni. apply Hin. right. exact Hni. }
    destruct (reconv_driven_cut (i_mgr _ s) (i_ntk _ s) n) as [mgr leaves]. simpl.
    unfold node_refactor.
    destruct (IH {| i_ntk := i_ntk _ s; i_mgr := mgr; i_st := i_st _ s;
                    i_candidates := i_candidates _ s |}) as [s' [Hs' [Hn' Hst']]].
    { intros ni Hni. apply Hin. right. exact Hni. }
    exists s'. auto.
Qed.

(** Shared by the theorems below: the sweep returns the network it was
    given and the initial statistics. *)
Lemma refactor_result (ntk : network.t) (ps : refactor_params) :
  refactor ntk ps = Returns (ntk, {| estimated_gain := 0 |}).
Proof.
  unfold refactor.refactor, refactor.run.
  destruct (sweep_keeps ps (network.size ntk) (gate_range ntk)
              {| i_ntk := ntk; i_mgr := make_cut_manager (max_pis ps);
                 i_st := {| estimated_gain := 0 |}; i_candidates := 0 |}
              (gate_range_in_storage ntk)) as [s' [Hs' [Hn Hst]]].
  rewrite Hs'. simpl. simpl in Hn, Hst. rewrite Hn, Hst. reflexivity.
Qed.

(** C3.  [refactor()] returns a network whose simulation agrees with
    that of the given network at every primary output, for every gate
    function and every input assignment; the returned network is the
    given one unless it has strictly fewer live gates. *)
Theorem refactor_preserves_simulation (ntk : network.t) (ps : refactor_params) :
  exists ntk' st,
    refactor ntk ps = Returns (ntk', st)
    /\ (forall gate_fn pis, simulate gate_fn ntk' pis = simulate gate_fn ntk pis)
    /\ (ntk' = ntk \/ network.num_gates ntk' < network.num_gates ntk).
Proof.
  exists ntk, {| estimated_gain := 0 |}.
  split; [apply refactor_result |]. split; [reflexivity | left; reflexivity].
Qed.

(** C9.  For every network and every parameter setting [refactor()]
    returns the very network it was given: storage (no gate created, no
    node marked dead), outputs and constants are those of the input, and
    the estimated gain stays 0. *)
Theorem refactor_leaves_network_unchanged (ntk : network.t) (ps : refactor_params) :
  refactor ntk ps = Returns (ntk, {| estimated_gain := 0 |})
  /\ (forall r leaves s, node_refactor cut_manager s r leaves = s).
Proof.
  split; [apply refactor_result | reflexivity].
Qed.

End refactor_properties.

(** * Further properties of the cone-of-influence view *)

(** ** The order of [topo_sort_rec] *)

Lemma foreach_element_invariant {A S : Type} (fn : A -> S -> outcome (bool * S))
  (P : S -> Prop) (xs : list A) :
  (forall x s b s', In x xs -> P s -> fn x s = Returns (b, s') -> P s') ->
  forall s s', P s -> foreach_element fn xs s = Returns s' -> P s'.
Proof.
  induction xs as [| x xs IH]; intros Hfn s s' Hs H; simpl in H.
  - injection H as <-. exact Hs.
  - apply bind_returns in H as [[b s1] [H1 H2]]. simpl in H2.
    assert (P s1) by (eapply Hfn; [left; reflexivity | exact Hs | exact H1]).
    destruct b.
    + eapply IH; [| eassumption | exact H2].
      intros y t b' t' Hy. apply Hfn. right. exact Hy.
    + injection H2 as <-. assumption.
Qed.

Lemma snoc_split {A : Type} (l pre post : list A) (n x : A) :
  l ++ [n] = pre ++ x :: post ->
  (post = [] /\ x = n /\ pre = l)
  \/ exists post', post = post' ++ [n] /\ l = pre ++ x :: post'.
Proof.
  destruct post as [| y post _] using rev_ind; intros H.
  - left. apply app_inj_tail in H as [-> ->]. auto.
  - right. exists post. rewrite app_comm_cons, app_assoc in H.
    apply app_inj_tail in H as [-> ->]. auto.
Qed.

Section topo_order.
Variable ntk : network.t.
Hypothesis ordered : dag_ordered ntk.

Local Abbreviation visit_fanin fuel :=
(fun (f : signal) (st : topo_state) =>
   topo_sort_rec fuel ntk (get_node f) st ≫= fun st' => Returns (true, st')).

Lemma topo_children_le (fuel : nat) (n : node) (fs : list signal) (s s' : topo_state) :
fanins ntk n = Returns fs ->
foreach_element (visit_fanin fuel) fs s = Returns s' ->
topo_le n s s'.
Proof.
intros Hfs. apply foreach_element_preorder.
- apply topo_le_refl.
- apply topo_le_trans.
- intros f t b t' Hf Hcall. apply bind_returns in Hcall as [s1 [Hcall Hr]].
  injection Hr as _ <-. apply (topo_le_bound (S (get_node f))).
  + apply (fanins_below ntk n fs f ordered Hfs Hf).
  + apply (topo_sort_rec_le ntk ordered _ _ _ _ Hcall).
Qed.

Lemma topo_sort_rec_marks (fuel : nat) (n : node) (st st' : topo_state) :
topo_sort_rec fuel ntk n st = Returns st' ->
blocked (t_colors st') (lookup0 (t_index st') n).
Proof.
destruct fuel as [| fuel]; [discriminate |]. intros H.
rewrite topo_sort_rec_S in H. cbv zeta in H.
pose proof (index_of_snd (t_index st) n) as [_ Hm].
apply bind_returns in H as [c [Hc H]]. unfold get_color in Hc.
destruct (t_colors st !! lookup0 (t_index st) n) as [c0 |] eqn:Hidx; [| discriminate].
injection Hc as ->.
destruct (Nat.eqb_spec c 2) as [-> | Hc2].
{ injection H as <-. simpl. rewrite Hm. exact Hidx. }
apply bind_returns in H as [colors1 [H1 H]].
apply bind_returns in H as [fs [Hfs H]].
apply bind_returns in H as [st2 [Hloop H]].
apply bind_returns in H as [colors2 [H2 H]].
apply set_color_returns in H2 as [-> Hlt2].
injection H as <-. simpl.
destruct (topo_children_le _ _ _ _ _ Hfs Hloop) as ([_ R] & _). simpl in R.
rewrite R, Hm. unfold blocked. apply list_lookup_insert_eq. exact Hlt2.
Qed.

Lemma topo_children_marks (fuel : nat) (n : node) (fs0 : list signal) :
fanins ntk n = Returns fs0 ->
forall fs s s',
  (forall f, In f fs -> In f fs0) ->
  foreach_element (visit_fanin fuel) fs s = Returns s' ->
  forall f, In f fs -> blocked (t_colors s') (lookup0 (t_index s') (get_node f)).
Proof.
intros Hfs0. induction fs as [| g fs IH]; intros s s' Hsub H f Hf; [contradiction |].
simpl in H. apply bind_returns in H as [[b s1] [Hcall H]].
apply bind_returns in Hcall as [s2 [Hcall Hr]]. injection Hr as <- <-. simpl in H.
destruct Hf as [<- | Hf].
- pose proof (topo_sort_rec_marks _ _ _ _ Hcall) as Hm.
  assert (Hle : topo_le n s2 s').
  { revert H. apply foreach_element_preorder.
    - apply topo_le_refl.
    - apply topo_le_trans.
    - intros h t b t' Hh Hc. apply bind_returns in Hc as [t1 [Hc Hr]].
      injection Hr as _ <-. apply (topo_le_bound (S (get_node h))).
      + apply (fanins_below ntk n fs0 h ordered Hfs0). apply Hsub. right. exact Hh.
      + apply (topo_sort_rec_le ntk ordered _ _ _ _ Hc). }
  destruct Hle as ([_ R] & _ & B & _). rewrite R. apply B. exact Hm.
- apply (IH s2 s'); [| exact H | exact Hf].
  intros h Hh. apply Hsub. right. exact Hh.
Qed.

Lemma topo_order_inv_weaken (st : topo_state) (m : gmap node nat) (colors : list nat) :
(forall k, lookup0 m k = lookup0 (t_index st) k) ->
(forall i, blocked (t_colors st) i -> blocked colors i) ->
topo_order_inv ntk st ->
topo_order_inv ntk (mk_topo m colors (t_topo st)).
Proof.
intros Hm Hb Hinv pre x post fs f Hsplit Hfs Hf. simpl in *.
destruct (Hinv pre x post fs f Hsplit Hfs Hf) as [Hbl Hord].
split; [rewrite Hm; apply Hb; exact Hbl | exact Hord].
Qed.

Lemma topo_sort_rec_order (fuel : nat) :
forall n st st',
  topo_order_inv ntk st ->
  topo_sort_rec fuel ntk n st = Returns st' ->
  topo_order_inv ntk st'.
Proof.
induction fuel as [| fuel IH]; intros n st st' Hinv H; [discriminate |].
rewrite topo_sort_rec_S in H. cbv zeta in H.
pose proof (index_of_snd (t_index st) n) as [Hsub Hm].
set (idx := lookup0 (t_index st) n) in *.
set (m := snd (index_of (t_index st) n)) in *.
apply bind_returns in H as [c [Hc H]]. unfold get_color in Hc.
destruct (t_colors st !! idx) as [c0 |] eqn:Hidx; [| discriminate].
injection Hc as ->.
destruct (Nat.eqb_spec c 2) as [-> | Hc2].
{ injection H as <-. apply topo_order_inv_weaken; auto. }
assert (Hnb : ~ blocked (t_colors st) idx).
{ unfold blocked. rewrite Hidx. congruence. }
apply bind_returns in H as [colors1 [H1 H]].
apply set_color_returns in H1 as [-> Hlt].
apply bind_returns in H as [fs [Hfs H]].
apply bind_returns in H as [st2 [Hloop H]].
apply bind_returns in H as [colors2 [H2 H]].
apply set_color_returns in H2 as [-> Hlt2].
injection H as <-.
set (st1 := mk_topo m (<[idx := 1]> (t_colors st)) (t_topo st)) in *.
assert (Hinv1 : topo_order_inv ntk st1).
{ apply topo_order_inv_weaken; [exact Hm | | exact Hinv].
  intros i Hi. apply blocked_insert; [exact Hi |]. intros ->. contradiction. }
assert (Hinv2 : topo_order_inv ntk st2).
{ revert Hloop. apply foreach_element_invariant; [| exact Hinv1].
  intros f s b s' _ Hs Hcall. apply bind_returns in Hcall as [s1 [Hcall Hr]].
  injection Hr as _ <-. apply (IH _ _ _ Hs Hcall). }
pose proof (topo_children_le _ _ _ _ _ Hfs Hloop) as Hle.
destruct Hle as (_ & _ & _ & (added & T & F) & _). simpl in T, F.
pose proof (topo_children_marks _ _ _ Hfs fs _ _ (fun f Hf => Hf) Hloop) as Hmarks.
intros pre x post fs' f Hsplit Hfs' Hf. simpl in Hsplit |- *.
apply snoc_split in Hsplit as [(-> & -> & ->) | (post' & -> & Hsplit)].
- rewrite Hfs in Hfs'. injection Hfs' as <-. split.
  + apply blocked_insert; [apply Hmarks; exact Hf | reflexivity].
  + intros Hin. apply in_app_or in Hin as [Hin | [Heq | []]]; [exact Hin |].
    pose proof (fanins_below ntk n fs f ordered Hfs Hf). lia.
- destruct (Hinv2 pre x post' fs' f Hsplit Hfs' Hf) as [Hbl Hord]. split.
  + apply blocked_insert; [exact Hbl | reflexivity].
  + intros Hin. apply in_app_or in Hin as [Hin | [Heq | []]]; [apply Hord; exact Hin |].
    exfalso.
    assert (Hx : In x (t_topo st ++ added)).
    { rewrite <- T, Hsplit. apply in_or_app. right. left. reflexivity. }
    pose proof (fanins_below ntk x fs' f ordered Hfs' Hf) as Hlt'.
    rewrite <- Heq in Hlt'.
    apply in_app_or in Hx as [Hx | Hx].
    * apply in_split in Hx as (p1 & p2 & Hx).
      destruct (Hinv p1 x p2 fs' f Hx Hfs' Hf) as [Hb _].
      rewrite <- Heq in Hb. contradiction.
    * rewrite Forall_forall in F. apply list_elem_of_In in Hx.
      destruct (F x Hx) as [Hxn _]. lia.
Qed.

Lemma topo_sort_pivots_order (ps : list node) :
forall st st',
  topo_order_inv ntk st ->
  topo_sort_pivots ntk ps st = Returns st' ->
  topo_order_inv ntk st'.
Proof.
induction ps as [| p ps IH]; intros st st' Hinv H.
- injection H as <-. exact Hinv.
- rewrite topo_sort_pivots_cons in H. apply bind_returns in H as [s1 [H1 H2]].
  apply (IH _ _ (topo_sort_rec_order _ _ _ _ Hinv H1) H2).
Qed.

End topo_order.

(** ** The nodes [collect_recurse] gathers *)

Lemma in_cone_fanin (ntk : network.t) (n : node) (fs : list signal) (f : signal) (x : node) :
  fanins ntk n = Returns fs -> In f fs -> in_cone ntk (get_node f) x -> in_cone ntk n x.
Proof.
  intros Hfs Hf [-> | Hx]; right.
  - apply (ancestor_fanin ntk _ n fs f Hfs Hf). reflexivity.
  - apply (ancestor_trans ntk x (get_node f) n Hx).
    apply (ancestor_fanin ntk _ n fs f Hfs Hf). reflexivity.
Qed.

Lemma collect_recurse_cone (ntk : network.t) (fuel : nat) :
  forall n nodes nodes',
    collect_recurse fuel ntk n nodes = Returns nodes' ->
    forall x, x ∈ nodes' -> x ∈ nodes \/ in_cone ntk n x.
Proof.
  induction fuel as [| fuel IH]; intros n nodes nodes' H; [discriminate |].
  simpl in H.
  apply bind_returns in H as [c [_ H]]. destruct c.
  { injection H as <-. auto. }
  apply bind_returns in H as [p [_ H]]. destruct p.
  { injection H as <-. case_bool_decide; [auto |].
    intros x Hx. apply elem_of_app in Hx as [Hx | Hx]; [auto |].
    apply list_elem_of_singleton in Hx as ->. right. left. reflexivity. }
  apply bind_returns in H as [fs [Hfs H]].
  revert H.
  apply (foreach_element_invariant _
           (fun s => forall x, x ∈ s -> x ∈ nodes \/ in_cone ntk n x)); [| auto].
  intros f s b s' Hf Hs Hcall.
  case_bool_decide.
  { injection Hcall as _ <-. exact Hs. }
  apply bind_returns in Hcall as [s1 [Hcall Hr]]. injection Hr as _ <-.
  intros x Hx. destruct (IH _ _ _ Hcall x Hx) as [Hin | Hc].
  - apply elem_of_app in Hin as [Hin | Hin]; [apply Hs; exact Hin |].
    apply list_elem_of_singleton in Hin as ->. right.
    apply (in_cone_fanin ntk n fs f _ Hfs Hf). left. reflexivity.
  - right. apply (in_cone_fanin ntk n fs f _ Hfs Hf Hc).
Qed.

Lemma collect_pivots_cone (ntk : network.t) (ps : list node) :
  forall nodes nodes',
    collect_pivots ntk ps nodes = Returns nodes' ->
    forall x, x ∈ nodes' -> x ∈ nodes \/ exists p, In p ps /\ in_cone ntk p x.
Proof.
  induction ps as [| p ps IH]; intros nodes nodes' H x Hx.
  - injection H as <-. auto.
  - rewrite collect_pivots_cons in H. apply bind_returns in H as [n1 [H1 H2]].
    destruct (IH _ _ H2 x Hx) as [Hin | (q & Hq & Hc)].
    + destruct (collect_recurse_cone _ _ _ _ _ H1 x Hin) as [Hn | Hc]; [auto |].
      right. exists p. split; [left; reflexivity | exact Hc].
    + right. exists q. split; [right; exact Hq | exact Hc].
Qed.

Lemma collect_recurse_pi (ntk : network.t) (fuel : nat) (n : node) (nodes nodes' : list node) :
  is_pi ntk n = Returns true ->
  collect_recurse fuel ntk n nodes = Returns nodes' ->
  n ∈ nodes'.
Proof.
  intros Hpi H. destruct fuel as [| fuel]; [discriminate |]. simpl in H.
  unfold is_pi, is_constant, node_at in *.
  destruct (storage ntk !! n) as [d |]; [| discriminate]. simpl in *.
  destruct (kind d); try discriminate. simpl in H.
  injection H as <-. case_bool_decide; [assumption |].
  apply elem_of_app. right. apply list_elem_of_singleton. reflexivity.
Qed.

Lemma collect_pivots_pi (ntk : network.t) (ps : list node) :
  forall nodes nodes' p,
    collect_pivots ntk ps nodes = Returns nodes' ->
    In p ps -> is_pi ntk p = Returns true -> p ∈ nodes'.
Proof.
  induction ps as [| q ps IH]; intros nodes nodes' p H Hp Hpi; [contradiction |].
  rewrite collect_pivots_cons in H. apply bind_returns in H as [n1 [H1 H2]].
  destruct Hp as [-> | Hp].
  - apply (collect_pivots_grows ntk ps _ _ H2).
    apply (collect_recurse_pi _ _ _ _ _ Hpi H1).
  - apply (IH _ _ _ H2 Hp Hpi).
Qed.

(** ** Splitting the sorted nodes *)

Lemma push_back_unless_last_In (l : list node) (n x : node) :
  In x (push_back_unless_last l n) <-> In x l \/ x = n.
Proof.
  unfold push_back_unless_last. destruct (last l) as [m |] eqn:Hl.
  - destruct (decide (m = n)) as [-> | Hne].
    + split; [auto |]. intros [H | ->]; [exact H |].
      apply last_Some in Hl as [l' ->]. apply in_or_app. right. left. reflexivity.
    + rewrite in_app_iff. simpl. intuition.
  - rewrite in_app_iff. simpl. intuition.
Qed.

Lemma split_nodes_In (ntk : network.t) (ns : list node) :
  forall leaves inner leaves' inner',
    split_nodes ntk ns leaves inner = Returns (leaves', inner') ->
    (forall x, In x leaves' <->
       In x leaves \/ (In x ns /\ is_constant ntk x = Returns false
                       /\ is_pi ntk x = Returns true))
    /\ (forall x, In x inner' <->
          In x inner \/ (In x ns /\ is_constant ntk x = Returns false
                         /\ is_pi ntk x = Returns false)).
Proof.
  induction ns as [| n ns IH]; intros leaves inner leaves' inner' H; simpl in H.
  - injection H as <- <-. split; intros x; simpl; intuition.
  - apply bind_returns in H as [c [Hc H]]. destruct c.
    { destruct (IH _ _ _ _ H) as [HL HI]. split; intros x.
      - rewrite HL. simpl. split; [intuition |].
        intros [Hx | ([-> | Hx] & Hcx & Hpx)]; [auto | congruence | auto].
      - rewrite HI. simpl. split; [intuition |].
        intros [Hx | ([-> | Hx] & Hcx & Hpx)]; [auto | congruence | auto]. }
    apply bind_returns in H as [p [Hp H]]. unfold is_ci in Hp. destruct p.
    + destruct (IH _ _ _ _ H) as [HL HI]. split; intros x.
      * rewrite HL, push_back_unless_last_In. simpl. split.
        -- intros [[Hx | ->] | Hx]; [auto | auto 6 | intuition].
        -- intros [Hx | ([-> | Hx] & Hcx & Hpx)]; auto.
      * rewrite HI. simpl. split; [intuition |].
        intros [Hx | ([-> | Hx] & Hcx & Hpx)]; [auto | congruence | auto].
    + destruct (IH _ _ _ _ H) as [HL HI]. split; intros x.
      * rewrite HL. simpl. split; [intuition |].
        intros [Hx | ([-> | Hx] & Hcx & Hpx)]; [auto | congruence | auto].
      * rewrite HI, push_back_unless_last_In. simpl. split.
        -- intros [[Hx | ->] | Hx]; [auto | auto 6 | intuition].
        -- intros [Hx | ([-> | Hx] & Hcx & Hpx)]; auto.
Qed.

Lemma StronglySorted_snoc {A : Type} (R : A -> A -> Prop) (l : list A) (n : A) :
  StronglySorted R l -> Forall (fun x => R x n) l -> StronglySorted R (l ++ [n]).
Proof.
  induction 1 as [| a l Hs IH Ha]; intros Hn; simpl.
  - constructor; constructor.
  - apply List.Forall_cons_iff in Hn as [Han Hn]. constructor; [apply IH; exact Hn |].
    apply Forall_app. split; [exact Ha | constructor; [exact Han | constructor]].
Qed.

Lemma StronglySorted_lt_last (l : list node) (m : node) :
  StronglySorted lt l -> last l = Some m -> Forall (fun x => x <= m) l.
Proof.
  induction 1 as [| a l Hs IH Ha]; intros Hl; [constructor |].
  destruct l as [| b l].
  - injection Hl as ->. constructor; [lia | constructor].
  - change (last (b :: l) = Some m) in Hl. specialize (IH Hl).
    constructor; [| exact IH].
    assert (Hm : m ∈ b :: l).
    { apply last_Some in Hl as [l' ->]. apply elem_of_app. right.
      apply list_elem_of_singleton. reflexivity. }
    rewrite Forall_forall in Ha. specialize (Ha m Hm). lia.
Qed.

Lemma push_back_unless_last_sorted (l : list node) (n : node) :
  StronglySorted lt l -> Forall (fun x => x <= n) l ->
  StronglySorted lt (push_back_unless_last l n).
Proof.
  intros Hs Hn. unfold push_back_unless_last. destruct (last l) as [m |] eqn:Hl.
  - destruct (decide (m = n)) as [-> | Hne]; [exact Hs |].
    apply StronglySorted_snoc; [exact Hs |].
    assert (Hmn : m < n).
    { assert (Hm : m ∈ l).
      { apply last_Some in Hl as [l' ->]. apply elem_of_app. right.
        apply list_elem_of_singleton. reflexivity. }
      rewrite Forall_forall in Hn. specialize (Hn m Hm). lia. }
    eapply Forall_impl; [apply (StronglySorted_lt_last l m Hs Hl) |].
    intros x Hx. simpl in Hx. lia.
  - apply last_None in Hl as ->. constructor; constructor.
Qed.

Lemma split_nodes_sorted (ntk : network.t) (ns : list node) :
  forall leaves inner leaves' inner',
    StronglySorted le ns ->
    StronglySorted lt leaves -> StronglySorted lt inner ->
    (forall x n, In x leaves -> In n ns -> x <= n) ->
    (forall x n, In x inner -> In n ns -> x <= n) ->
    split_nodes ntk ns leaves inner = Returns (leaves', inner') ->
    StronglySorted lt leaves' /\ StronglySorted lt inner'.
Proof.
  induction ns as [| n ns IH]; intros leaves inner leaves' inner' Hns HL HI HLn HIn H;
    simpl in H.
  - injection H as <- <-. auto.
  - apply StronglySorted_inv in Hns as [Hns Hn].
    assert (Hle : forall x, In x ns -> n <= x).
    { intros x Hx. rewrite Forall_forall in Hn. apply Hn. apply list_elem_of_In. exact Hx. }
    assert (Hpush : forall l, StronglySorted lt l ->
              (forall x k, In x l -> In k (n :: ns) -> x <= k) ->
              StronglySorted lt (push_back_unless_last l n)
              /\ forall x k, In x (push_back_unless_last l n) -> In k ns -> x <= k).
    { intros l Hl Hln. split.
      - apply push_back_unless_last_sorted; [exact Hl |].
        apply Forall_forall. intros x Hx. apply Hln; [| left; reflexivity].
        apply list_elem_of_In. exact Hx.
      - intros x k Hx Hk. apply push_back_unless_last_In in Hx as [Hx | ->].
        + apply Hln; [exact Hx | right; exact Hk].
        + apply Hle. exact Hk. }
    apply bind_returns in H as [c [_ H]]. destruct c.
    { apply (IH _ _ _ _ Hns HL HI); [| | exact H]; intros x k Hx Hk.
      - apply HLn; [exact Hx | right; exact Hk].
      - apply HIn; [exact Hx | right; exact Hk]. }
    apply bind_returns in H as [p [_ H]]. destruct p.
    + destruct (Hpush leaves HL HLn) as [Hs Hb].
      apply (IH _ _ _ _ Hns Hs HI Hb); [| exact H].
      intros x k Hx Hk. apply HIn; [exact Hx | right; exact Hk].
    + destruct (Hpush inner HI HIn) as [Hs Hb].
      apply (IH _ _ _ _ Hns HL Hs); [| exact Hb | exact H].
      intros x k Hx Hk. apply HLn; [exact Hx | right; exact Hk].
Qed.

(** ** Indices handed out by [emplace] *)

Lemma dense_index_empty : dense_index ∅.
Proof. intros k i H. rewrite lookup_empty in H. discriminate. Qed.

Lemma emplace_dense (m : gmap node nat) (n : node) :
  dense_index m -> dense_index (emplace m n).
Proof.
  intros Hm. unfold emplace. destruct (m !! n) eqn:Hn; [exact Hm |].
  intros k i Hk. rewrite map_size_insert_None by exact Hn.
  apply lookup_insert_Some in Hk as [[<- <-] | [Hne Hk]].
  - split; [lia |]. intros k' Hk'.
    apply lookup_insert_Some in Hk' as [[<- _] | [_ Hk']]; [reflexivity |].
    destruct (Hm _ _ Hk') as [Hlt _]. lia.
  - destruct (Hm _ _ Hk) as [Hlt Hinj]. split; [lia |]. intros k' Hk'.
    apply lookup_insert_Some in Hk' as [[<- <-] | [_ Hk']]; [lia |].
    apply Hinj. exact Hk'.
Qed.

Lemma fold_emplace_dense (ks : list node) :
  forall m, dense_index m -> dense_index (fold_left emplace ks m).
Proof.
  induction ks as [| k ks IH]; intros m Hm; simpl; [exact Hm |].
  apply IH. apply emplace_dense. exact Hm.
Qed.

Lemma emplace_size (m : gmap node nat) (n : node) :
  base.size (emplace m n) <= S (base.size m).
Proof.
  unfold emplace. destruct (m !! n) eqn:Hn; [lia |].
  rewrite map_size_insert_None by exact Hn. lia.
Qed.

Lemma fold_emplace_size (ks : list node) :
  forall m, base.size (fold_left emplace ks m) <= base.size m + length ks.
Proof.
  induction ks as [| k ks IH]; intros m; simpl; [lia |].
  specialize (IH (emplace m k)). pose proof (emplace_size m k). lia.
Qed.

Lemma fold_emplace_fresh (ks : list node) :
  forall m,
    NoDup ks -> (forall k, In k ks -> m !! k = None) ->
    base.size (fold_left emplace ks m) = base.size m + length ks
    /\ forall i k, ks !! i = Some k ->
         fold_left emplace ks m !! k = Some (base.size m + i).
Proof.
  induction ks as [| a ks IH]; intros m Hnd Hfresh; simpl.
  - split; [lia |]. intros i k H. rewrite lookup_nil in H. discriminate.
  - apply NoDup_cons in Hnd as [Ha Hnd].
    assert (Hma : m !! a = None) by (apply Hfresh; left; reflexivity).
    assert (He : emplace m a = <[a := base.size m]> m).
    { unfold emplace. rewrite Hma. reflexivity. }
    destruct (IH (emplace m a) Hnd) as [Hsz Hidx].
    { intros k Hk. rewrite He. rewrite lookup_insert_ne.
      - apply Hfresh. right. exact Hk.
      - intros ->. apply Ha. apply list_elem_of_In. exact Hk. }
    rewrite He in Hsz, Hidx. rewrite map_size_insert_None in Hsz, Hidx by exact Hma.
    rewrite He. split; [lia |].
    intros [| i] k Hk; simpl in Hk.
    + injection Hk as ->.
      apply (lookup_weaken (<[k := base.size m]> m)); [| apply fold_emplace_subseteq].
      rewrite lookup_insert_eq. f_equal. lia.
    + rewrite (Hidx i k Hk). f_equal. lia.
Qed.

(** ** The constructor, step by step *)

Local Abbreviation c0_of ntk := (get_node (get_constant ntk false)).
Local Abbreviation c1_of ntk := (get_node (get_constant ntk true)).
Local Abbreviation two_of ntk := (negb (Nat.eqb (c1_of ntk) (c0_of ntk))).
Local Abbreviation m0_of ntk :=
  (if two_of ntk then emplace (emplace ∅ (c0_of ntk)) (c1_of ntk) else emplace ∅ (c0_of ntk)).
Local Abbreviation nc_of ntk := (if two_of ntk then 2 else 1).
Local Abbreviation constants_of ntk :=
  (if two_of ntk then [c0_of ntk; c1_of ntk] else [c0_of ntk]).

Lemma create_steps (ntk : network.t) (pivots : list node) (wrap : bool) (v : coi_view) :
  create ntk pivots wrap = Returns v ->
  exists nodes inner0 m' colorsL colors st,
    collect_pivots ntk pivots [] = Returns nodes
    /\ split_nodes ntk (merge_sort le nodes) [] [] = Returns (_leaves v, inner0)
    /\ color_leaves (_leaves v)
         (fold_left emplace pivots
            (fold_left emplace inner0 (fold_left emplace (_leaves v) (m0_of ntk))))
         (replicate (nc_of ntk + length (inner0 ++ pivots) + length (_leaves v)) 0)
       = Returns (m', colorsL)
    /\ color_constants (seq 0 (nc_of ntk)) colorsL = Returns colors
    /\ topo_sort_pivots ntk pivots (mk_topo m' colors []) = Returns st
    /\ length (inner0 ++ pivots) = length (t_topo st)
    /\ coi.ntk v = ntk
    /\ _constants v = constants_of ntk
    /\ _num_constants v = nc_of ntk
    /\ _pivots v = pivots
    /\ _inner v = t_topo st
    /\ _node_to_index v = t_index st.
Proof.
  intros H. unfold create in H. cbv zeta in H.
  set (c0 := get_node (get_constant ntk false)) in *.
  set (c1 := get_node (get_constant ntk true)) in *.
  set (two := negb (Nat.eqb c1 c0)) in *.
  unfold update in H. view_fields in H.
  apply bind_returns in H as [nodes [Hcollect H]].
  apply compute_sets_steps in H
    as (leaves & inner0 & m' & colorsL & colors & st & Hs & Hl & Hc & Ht & He & ->).
  view_fields in Hs. view_fields in Hl. view_fields in Hc. view_fields in Ht.
  view_fields in He. view_fields.
  exists nodes, inner0, m', colorsL, colors, st. auto 15.
Qed.

Lemma constants_of_index (ntk : network.t) :
  dense_index (m0_of ntk)
  /\ base.size (m0_of ntk) = nc_of ntk
  /\ length (constants_of ntk) = nc_of ntk
  /\ (forall i c, constants_of ntk !! i = Some c -> m0_of ntk !! c = Some i)
  /\ (forall x, is_Some (m0_of ntk !! x) -> In x (constants_of ntk)).
Proof.
  set (c0 := get_node (get_constant ntk false)).
  set (c1 := get_node (get_constant ntk true)).
  assert (H0 : emplace ∅ c0 = {[ c0 := 0 ]}).
  { unfold emplace. rewrite lookup_empty, map_size_empty. reflexivity. }
  split.
  { destruct (negb (Nat.eqb c1 c0)); repeat apply emplace_dense; apply dense_index_empty. }
  destruct (Nat.eqb_spec c1 c0) as [He | Hne]; simpl.
  - rewrite H0. rewrite map_size_singleton. repeat split.
    + intros [| i] c Hc; [| discriminate]. injection Hc as <-. apply lookup_singleton_eq.
    + intros x [i Hx]. apply lookup_singleton_Some in Hx as [-> _]. left. reflexivity.
  - assert (H1 : emplace (emplace ∅ c0) c1 = <[c1 := 1]> {[ c0 := 0 ]}).
    { rewrite H0. unfold emplace. rewrite lookup_singleton_ne by congruence.
      rewrite map_size_singleton. reflexivity. }
    rewrite H1. rewrite map_size_insert_None by (apply lookup_singleton_ne; congruence).
    rewrite map_size_singleton. repeat split.
    + intros [| [| i]] c Hc; try discriminate; injection Hc as <-.
      * rewrite lookup_insert_ne by congruence. apply lookup_singleton_eq.
      * apply lookup_insert_eq.
    + intros x [i Hx]. apply lookup_insert_Some in Hx as [[<- _] | [_ Hx]].
      * right. left. reflexivity.
      * apply lookup_singleton_Some in Hx as [-> _]. left. reflexivity.
Qed.

Lemma create_facts (ntk : network.t) (pivots : list node) (wrap : bool) (v : coi_view) :
  dag_ordered ntk ->
  create ntk pivots wrap = Returns v ->
  exists nodes inner0,
    collect_pivots ntk pivots [] = Returns nodes
    /\ split_nodes ntk (merge_sort le nodes) [] [] = Returns (_leaves v, inner0)
    /\ NoDup (_inner v)
    /\ _inner v ≡ₚ inner0 ++ pivots
    /\ (forall x, In x (_inner v) -> ~ In x (_leaves v) /\ ~ In x (_constants v))
    /\ fanins_first ntk (_inner v).
Proof.
  intros Hdag H.
  destruct (create_steps _ _ _ _ H)
    as (nodes & inner0 & m' & colorsL & colors & st
        & Hcollect & Hs & Hl & Hc & Ht & He & _ & Hconsts & _ & _ & Hinner & _).
  exists nodes, inner0. rewrite Hinner, Hconsts.
  split; [exact Hcollect |]. split; [exact Hs |].
  destruct (constants_of_index ntk) as (_ & _ & _ & Hcidx & _).
  set (m0 := m0_of ntk) in *. set (nc := nc_of ntk) in *.
  set (m1 := fold_left emplace (_leaves v) m0) in *.
  set (m2 := fold_left emplace inner0 m1) in *.
  set (m3 := fold_left emplace pivots m2) in *.
  destruct (color_leaves_spec _ _ _ _ _ Hl) as ([H3m Hreads] & _ & _ & Hleaves).
  destruct (color_constants_spec _ _ _ Hc) as (_ & Hperm & Hconst).
  pose proof (topo_sort_pivots_le ntk Hdag pivots (S (list_max pivots))) as Hle.
  assert (Hb : Forall (fun p => p < S (list_max pivots)) pivots).
  { pose proof (proj1 (list_max_le pivots (list_max pivots)) (Nat.le_refl _)) as Hm.
    eapply Forall_impl; [exact Hm |]. intros p Hp. simpl in Hp. lia. }
  specialize (Hle Hb _ _ Ht).
  destruct Hle as (_ & _ & _ & (added & Hadd & Hnew) & Hinv). simpl in Hadd, Hnew.
  destruct Hinv as [Hnd _]; [split; [constructor | intros x []] |].
  assert (H03 : m0 ⊆ m3).
  { etransitivity; [apply (fold_emplace_subseteq (_leaves v)) |].
    etransitivity; [apply (fold_emplace_subseteq inner0) |].
    apply (fold_emplace_subseteq pivots). }
  assert (Hunmarked : forall x, x ∈ t_topo st ->
            ~ In x (_leaves v) /\ forall j, m0 !! x = Some j -> False).
  { intros x Hx. rewrite Hadd in Hx. rewrite Forall_forall in Hnew.
    destruct (Hnew x Hx) as [_ Hnb]. split.
    - intros Hlf. apply Hnb. apply Hperm. rewrite Hreads. apply Hleaves. exact Hlf.
    - intros j Hj. apply Hnb. rewrite Hreads. unfold lookup0.
      rewrite (lookup_weaken _ _ _ _ Hj H03). simpl.
      apply Hconst. apply in_seq.
      pose proof (constants_index_bound (c0_of ntk) (c1_of ntk) x j Hj) as Hjb.
      cbv zeta in Hjb. fold nc in Hjb. lia. }
  assert (Hsub : forall x, x ∈ t_topo st -> x ∈ inner0 ++ pivots).
  { intros x Hx. destruct (Hunmarked x Hx) as [Hnl Hn0].
    rewrite Hadd in Hx. rewrite Forall_forall in Hnew.
    destruct (Hnew x Hx) as [_ Hnb].
    destruct (decide (x ∈ inner0 ++ pivots)) as [Hin | Hout]; [exact Hin |].
    exfalso. apply Hnb. rewrite Hreads.
    assert (H0 : blocked colors 0).
    { apply Hconst. apply in_seq. unfold nc. destruct (two_of ntk); lia. }
    unfold lookup0. destruct (m3 !! x) as [i |] eqn:Hx3; [| exact H0]. exfalso.
    destruct (fold_emplace_dom pivots m2 x (mk_is_Some _ _ Hx3)) as [Hx2 | Hp].
    2:{ apply Hout. apply elem_of_app. right. apply list_elem_of_In. exact Hp. }
    destruct (fold_emplace_dom inner0 m1 x Hx2) as [Hx1 | Hi].
    2:{ apply Hout. apply elem_of_app. left. apply list_elem_of_In. exact Hi. }
    destruct (fold_emplace_dom (_leaves v) m0 x Hx1) as [[j Hx0] | Hlf].
    - exact (Hn0 j Hx0).
    - exact (Hnl Hlf). }
  assert (Hperm' : t_topo st ≡ₚ inner0 ++ pivots).
  { apply submseteq_length_Permutation; [| lia].
    apply NoDup_submseteq; assumption. }
  split; [exact Hnd |]. split; [exact Hperm' |]. split.
  - intros x Hx. apply list_elem_of_In in Hx. destruct (Hunmarked x Hx) as [Hnl Hn0].
    split; [exact Hnl |]. intros Hcx.
    apply list_elem_of_In, list_elem_of_lookup in Hcx as [i Hi].
    exact (Hn0 i (Hcidx i x Hi)).
  - assert (Hord : topo_order_inv ntk st).
    { apply (topo_sort_pivots_order ntk Hdag pivots _ _) in Ht; [exact Ht |].
      intros pre x post fs f Hsplit. simpl in Hsplit.
      destruct pre; discriminate. }
    intros pre x post fs f Hsplit Hfs Hf Hin.
    destruct (Hord pre x post fs f Hsplit Hfs Hf) as [_ Ho]. apply Ho. exact Hin.
Qed.

Lemma collect_pivots_in_storage (ntk : network.t) (ps : list node) :
  forall nodes nodes' p,
    collect_pivots ntk ps nodes = Returns nodes' ->
    In p ps -> exists d, storage ntk !! p = Some d.
Proof.
  induction ps as [| q ps IH]; intros nodes nodes' p H Hp; [contradiction |].
  rewrite collect_pivots_cons in H. apply bind_returns in H as [n1 [H1 H2]].
  destruct Hp as [-> | Hp]; [| apply (IH _ _ _ H2 Hp)].
  unfold fuel_for in H1. simpl in H1.
  apply bind_returns in H1 as [c [Hc _]]. unfold is_constant, node_at in Hc.
  destruct (storage ntk !! p) as [d |]; [eauto | discriminate].
Qed.

Lemma merge_sort_In (l : list node) (x : node) : In x (merge_sort le l) <-> In x l.
Proof.
  rewrite <- !list_elem_of_In. rewrite merge_sort_Permutation. reflexivity.
Qed.

Lemma merge_sort_strongly_sorted (l : list node) : StronglySorted le (merge_sort le l).
Proof.
  apply Sorted_StronglySorted; [intros x y z; apply Nat.le_trans |].
  apply Sorted_merge_sort. apply _.
Qed.

Lemma pivot_not_input (ntk : network.t) (pivots : list node) (wrap : bool) (v : coi_view)
  (p : node) :
  dag_ordered ntk ->
  create ntk pivots wrap = Returns v ->
  In p pivots ->
  is_pi ntk p = Returns false.
Proof.
  intros Hdag H Hp.
  destruct (create_facts _ _ _ _ Hdag H)
    as (nodes & inner0 & Hcollect & Hs & Hnd & Hperm & Hdisj & _).
  destruct (collect_pivots_in_storage _ _ _ _ p Hcollect Hp) as [d Hd].
  destruct (split_nodes_In _ _ _ _ _ _ Hs) as [HL _].
  assert (Hin : In p (_inner v)).
  { apply list_elem_of_In. rewrite Hperm. apply elem_of_app. right.
    apply list_elem_of_In. exact Hp. }
  destruct (Hdisj p Hin) as [Hnl _].
  destruct (kind d) eqn:Hk.
  - unfold is_pi, node_at. rewrite Hd. simpl. rewrite Hk. reflexivity.
  - exfalso. apply Hnl. apply HL. right.
    assert (Hpi : is_pi ntk p = Returns true).
    { unfold is_pi, node_at. rewrite Hd. simpl. rewrite Hk. reflexivity. }
    split; [| split; [| exact Hpi]].
    + apply merge_sort_In. apply list_elem_of_In.
      apply (collect_pivots_pi _ _ _ _ _ Hcollect Hp Hpi).
    + unfold is_constant, node_at. rewrite Hd. simpl. rewrite Hk. reflexivity.
  - unfold is_pi, node_at. rewrite Hd. simpl. rewrite Hk. reflexivity.
Qed.

(** X10.  The leaves of a built view are primary inputs of the network,
    none of them a constant, in strictly ascending order of their node
    ids. *)
Theorem coi_leaves_ascending_inputs (ntk : network.t) (pivots : list node) (wrap : bool)
  (v : coi_view) :
  create ntk pivots wrap = Returns v ->
  StronglySorted lt (foreach_pi v)
  /\ forall l, In l (foreach_pi v) ->
       is_pi ntk l = Returns true /\ is_constant ntk l = Returns false.
Proof.
  intros H. unfold foreach_pi.
  destruct (create_steps _ _ _ _ H) as (nodes & inner0 & _ & _ & _ & _ & _ & Hs & _).
  split.
  - apply (split_nodes_sorted ntk (merge_sort le nodes) [] [] (_leaves v) inner0);
      [apply merge_sort_strongly_sorted | constructor | constructor | | | exact Hs];
      intros x n [].
  - intros l Hl. destruct (split_nodes_In _ _ _ _ _ _ Hs) as [HL _].
    destruct (proj1 (HL l) Hl) as [[] | (_ & Hc & Hp)]. auto.
Qed.

(** X11.  A view is built only from pivots that are pairwise distinct;
    every pivot is then an inner node of the view and one of its outputs,
    and none is a primary input, a leaf of the view or one of its constant
    nodes.  (On any other pivot list the check
    [_inner.size() == _topo.size()] fails.) *)
Theorem coi_pivots_distinct_gates (ntk : network.t) (pivots : list node) (wrap : bool)
  (v : coi_view) :
  dag_ordered ntk ->
  create ntk pivots wrap = Returns v ->
  NoDup pivots
  /\ forall p, In p pivots ->
       In p (foreach_gate v)
       /\ In (make_signal p) (foreach_po v)
       /\ is_pi ntk p = Returns false
       /\ view_is_pi v p = false
       /\ ~ In p (_constants v).
Proof.
  intros Hdag H. unfold foreach_gate, foreach_po.
  destruct (create_steps _ _ _ _ H)
    as (nodes0 & inner00 & m' & colorsL & colors & st0
        & _ & _ & _ & _ & _ & _ & _ & _ & _ & Hpivots & _).
  destruct (create_facts _ _ _ _ Hdag H)
    as (nodes & inner0 & Hcollect & Hs & Hnd & Hperm & Hdisj & _).
  split.
  - rewrite Hperm in Hnd. apply NoDup_app in Hnd as (_ & _ & Hnd). exact Hnd.
  - intros p Hp.
    assert (Hin : In p (_inner v)).
    { apply list_elem_of_In. rewrite Hperm. apply elem_of_app. right.
      apply list_elem_of_In. exact Hp. }
    destruct (Hdisj p Hin) as [Hnl Hnc].
    split; [exact Hin |].
    split; [rewrite Hpivots; apply in_map; exact Hp |].
    split; [apply (pivot_not_input _ _ _ _ _ Hdag H Hp) |].
    split; [| exact Hnc]. unfold view_is_pi. apply bool_decide_eq_false.
    intros Hl. apply Hnl. apply list_elem_of_In. exact Hl.
Qed.

(** X12.  A view is built only when no pivot was collected while walking
    the fan-ins: a pivot that [collect_recurse] reaches from a pivot, and
    that is no constant, is counted twice among the inner nodes and the
    check [_inner.size() == _topo.size()] fails. *)
Theorem coi_pivot_never_collected (ntk : network.t) (pivots : list node) (wrap : bool)
  (v : coi_view) :
  dag_ordered ntk ->
  create ntk pivots wrap = Returns v ->
  exists nodes,
    collect_pivots ntk pivots [] = Returns nodes
    /\ forall p, In p pivots -> is_constant ntk p = Returns false -> ~ In p nodes.
Proof.
  intros Hdag H.
  destruct (create_facts _ _ _ _ Hdag H)
    as (nodes & inner0 & Hcollect & Hs & Hnd & Hperm & _).
  exists nodes. split; [exact Hcollect |]. intros p Hp Hc Hn.
  destruct (split_nodes_In _ _ _ _ _ _ Hs) as [_ HI].
  assert (Hi : In p inner0).
  { apply HI. right. split; [apply merge_sort_In; exact Hn |].
    split; [exact Hc | apply (pivot_not_input _ _ _ _ _ Hdag H Hp)]. }
  rewrite Hperm in Hnd. apply NoDup_app in Hnd as (_ & Hno & _).
  apply (Hno p); apply list_elem_of_In; assumption.
Qed.

(** X13.  The inner nodes of a built view are in topological order among
    themselves: no inner node occurs twice, and a fan-in of an inner node
    that is itself an inner node stands before it. *)
Theorem coi_inner_topological (ntk : network.t) (pivots : list node) (wrap : bool)
  (v : coi_view) :
  dag_ordered ntk ->
  create ntk pivots wrap = Returns v ->
  NoDup (foreach_gate v) /\ fanins_first ntk (foreach_gate v).
Proof.
  intros Hdag H. unfold foreach_gate.
  destruct (create_facts _ _ _ _ Hdag H) as (nodes & inner0 & _ & _ & Hnd & _ & _ & Hord).
  split; assumption.
Qed.

(** X14.  Every leaf and every inner node of a built view is a pivot or
    in the transitive fan-in of a pivot: the view holds nothing outside
    the cone of its pivots. *)
Theorem coi_nodes_in_cone (ntk : network.t) (pivots : list node) (wrap : bool)
  (v : coi_view) :
  dag_ordered ntk ->
  create ntk pivots wrap = Returns v ->
  forall x, In x (foreach_pi v ++ foreach_gate v) ->
    exists p, In p pivots /\ in_cone ntk p x.
Proof.
  intros Hdag H x Hx. unfold foreach_pi, foreach_gate in Hx.
  destruct (create_facts _ _ _ _ Hdag H)
    as (nodes & inner0 & Hcollect & Hs & _ & Hperm & _).
  destruct (split_nodes_In _ _ _ _ _ _ Hs) as [HL HI].
  assert (Hnodes : In x (merge_sort le nodes) -> exists p, In p pivots /\ in_cone ntk p x).
  { intros Hn. apply (proj1 (merge_sort_In _ _)) in Hn. apply list_elem_of_In in Hn.
    destruct (collect_pivots_cone _ _ _ _ Hcollect x Hn) as [Hnil | Hp]; [| exact Hp].
    apply elem_of_nil in Hnil. contradiction. }
  apply in_app_or in Hx as [Hx | Hx].
  - destruct (proj1 (HL x) Hx) as [[] | (Hn & _)]. apply Hnodes. exact Hn.
  - apply list_elem_of_In in Hx. rewrite Hperm in Hx.
    apply elem_of_app in Hx as [Hx | Hx]; apply list_elem_of_In in Hx.
    + destruct (proj1 (HI x) Hx) as [[] | (Hn & _)]. apply Hnodes. exact Hn.
    + exists x. split; [exact Hx | left; reflexivity].
Qed.

Lemma create_index_map (ntk : network.t) (pivots : list node) (wrap : bool) (v : coi_view) :
  create ntk pivots wrap = Returns v ->
  exists nodes inner0 st,
    collect_pivots ntk pivots [] = Returns nodes
    /\ split_nodes ntk (merge_sort le nodes) [] [] = Returns (_leaves v, inner0)
    /\ fold_left emplace pivots
         (fold_left emplace inner0 (fold_left emplace (_leaves v) (m0_of ntk)))
       ⊆ _node_to_index v
    /\ topo_sort_pivots ntk pivots
         (mk_topo (t_index st) (t_colors st) []) = Returns (mk_topo (_node_to_index v) (_colors v) (_inner v))
    /\ same_reads (fold_left emplace pivots
         (fold_left emplace inner0 (fold_left emplace (_leaves v) (m0_of ntk)))) (t_index st).
Proof.
  intros H. pose proof H as H'. unfold create in H'. cbv zeta in H'.
  set (c0 := get_node (get_constant ntk false)) in *.
  set (c1 := get_node (get_constant ntk true)) in *.
  set (two := negb (Nat.eqb c1 c0)) in *.
  unfold update in H'. view_fields in H'.
  apply bind_returns in H' as [nodes [Hcollect H']].
  apply compute_sets_steps in H'
    as (leaves & inner0 & m' & colorsL & colors & st & Hs & Hl & Hc & Ht & He & ->).
  view_fields in Hs. view_fields in Hl. view_fields in Hc. view_fields in Ht.
  view_fields in He. view_fields.
  exists nodes, inner0, (mk_topo m' colors []). simpl.
  destruct (color_leaves_spec _ _ _ _ _ Hl) as (Hreads & _).
  split; [exact Hcollect |]. split; [exact Hs |]. split.
  - etransitivity; [apply Hreads |]. apply (topo_sort_pivots_index_grows _ _ _ _ Ht).
  - split; [| exact Hreads]. rewrite Ht. destruct st; reflexivity.
Qed.

Lemma StronglySorted_lt_NoDup (l : list node) : StronglySorted lt l -> NoDup l.
Proof.
  induction 1 as [| a l Hs IH Ha]; constructor; [| exact IH].
  intros Hin. rewrite Forall_forall in Ha. specialize (Ha a Hin). lia.
Qed.

(** X15.  [index_to_node] of a built view enumerates the order of
    [foreach_node]: constants, leaves, inner nodes.  It answers exactly on
    the indices below [size()]; past them it reads outside [_inner]. *)
Theorem coi_index_to_node_enumerates (ntk : network.t) (pivots : list node) (wrap : bool)
  (v : coi_view) :
  create ntk pivots wrap = Returns v ->
  length (foreach_node v) = coi.size v
  /\ forall i, index_to_node v i = deref (foreach_node v !! i).
Proof.
  intros H.
  destruct (create_steps _ _ _ _ H)
    as (nodes & inner0 & m' & colorsL & colors & st
        & _ & _ & _ & _ & _ & _ & _ & Hconsts & Hnc & _).
  destruct (constants_of_index ntk) as (_ & _ & Hlen & _).
  rewrite <- Hconsts in Hlen. rewrite <- Hnc in Hlen.
  unfold foreach_node, coi.size, index_to_node. split.
  - rewrite !length_app. lia.
  - intros i. rewrite <- Hlen.
    destruct (Nat.ltb_spec i (length (_constants v))) as [Hi | Hi].
    + rewrite lookup_app_l by exact Hi. reflexivity.
    + rewrite lookup_app_r by exact Hi.
      destruct (Nat.ltb_spec i (length (_constants v) + length (_leaves v))) as [Hj | Hj].
      * rewrite lookup_app_l by lia. reflexivity.
      * rewrite lookup_app_r by lia. reflexivity.
Qed.

(** X16.  In a view built over a network whose constant nodes are
    constants, the constants and the leaves keep their position of
    [foreach_node] as index: the i-th constant has index i, the i-th leaf
    has index [_num_constants + i], and [index_to_node] leads back. *)
Theorem coi_leaf_index_round_trip (ntk : network.t) (pivots : list node) (wrap : bool)
  (v : coi_view) :
  is_constant ntk (get_node (get_constant ntk false)) = Returns true ->
  is_constant ntk (get_node (get_constant ntk true)) = Returns true ->
  create ntk pivots wrap = Returns v ->
  (forall i c, _constants v !! i = Some c ->
     node_to_index v c = Some i /\ index_to_node v i = Returns c)
  /\ (forall i l, foreach_pi v !! i = Some l ->
        node_to_index v l = Some (_num_constants v + i)
        /\ index_to_node v (_num_constants v + i) = Returns l).
Proof.
  intros Hc0 Hc1 H. unfold foreach_pi, node_to_index.
  destruct (create_steps _ _ _ _ H)
    as (nodes0 & inner00 & m' & colorsL & colors & st0
        & _ & Hs0 & _ & _ & _ & _ & _ & Hconsts & Hnc & _).
  destruct (create_index_map _ _ _ _ H) as (nodes & inner0 & st & _ & Hs & Hsub & _).
  destruct (constants_of_index ntk) as (_ & Hsize & Hlen & Hcidx & Hcdom).
  set (m0 := m0_of ntk) in *.
  set (m1 := fold_left emplace (_leaves v) m0) in *.
  assert (H1v : m1 ⊆ _node_to_index v).
  { etransitivity; [| exact Hsub].
    etransitivity; [apply (fold_emplace_subseteq inner0) |].
    apply (fold_emplace_subseteq pivots). }
  assert (Hsorted : StronglySorted lt (_leaves v)).
  { apply (split_nodes_sorted ntk (merge_sort le nodes) [] [] (_leaves v) inner0);
      [apply merge_sort_strongly_sorted | constructor | constructor | | | exact Hs];
      intros x n []. }
  destruct (split_nodes_In _ _ _ _ _ _ Hs) as [HL _].
  assert (Hfresh : forall k, In k (_leaves v) -> m0 !! k = None).
  { intros k Hk. destruct (m0 !! k) as [j |] eqn:Hj; [| reflexivity]. exfalso.
    destruct (proj1 (HL k) Hk) as [[] | (_ & Hck & _)].
    specialize (Hcdom k (mk_is_Some _ _ Hj)).
    destruct (two_of ntk); cbn [In] in Hcdom.
    - destruct Hcdom as [<- | [<- | []]]; congruence.
    - destruct Hcdom as [<- | []]; congruence. }
  destruct (fold_emplace_fresh (_leaves v) m0 (StronglySorted_lt_NoDup _ Hsorted) Hfresh)
    as [_ Hidx].
  rewrite Hsize in Hidx. rewrite <- Hnc in Hidx, Hlen. rewrite <- Hconsts in Hlen, Hcidx.
  split.
  - intros i c Hi. split.
    + apply (lookup_weaken m0); [apply Hcidx; exact Hi |].
      etransitivity; [apply (fold_emplace_subseteq (_leaves v)) | exact H1v].
    + unfold index_to_node.
      assert (Hlt : i < _num_constants v).
      { rewrite <- Hlen. eapply lookup_lt_Some. exact Hi. }
      apply Nat.ltb_lt in Hlt. rewrite Hlt, Hi. reflexivity.
  - intros i l Hi. split.
    + apply (lookup_weaken m1); [apply Hidx; exact Hi | exact H1v].
    + unfold index_to_node.
      assert (Hlt : i < length (_leaves v)) by (eapply lookup_lt_Some; exact Hi).
      destruct (Nat.ltb_spec (_num_constants v + i) (_num_constants v)) as [Ha | _]; [lia |].
      destruct (Nat.ltb_spec (_num_constants v + i) (_num_constants v + length (_leaves v)))
        as [_ | Hb]; [| lia].
      replace (_num_constants v + i - _num_constants v) with i by lia.
      rewrite Hi. reflexivity.
Qed.

(** X17.  The index map of a built view numbers the nodes of the view
    densely: every constant, leaf and inner node has an index below
    [size()], no two of them share one, and a key that is no node of the
    view (left behind by a read of [_node_to_index[n]]) has index 0. *)
Theorem coi_index_dense (ntk : network.t) (pivots : list node) (wrap : bool)
  (v : coi_view) :
  dag_ordered ntk ->
  create ntk pivots wrap = Returns v ->
  (forall x, In x (foreach_node v) ->
     exists i, node_to_index v x = Some i /\ i < coi.size v)
  /\ (forall x y i, In x (foreach_node v) -> In y (foreach_node v) ->
        node_to_index v x = Some i -> node_to_index v y = Some i -> x = y)
  /\ (forall x i, ~ In x (foreach_node v) -> node_to_index v x = Some i -> i = 0).
Proof.
  intros Hdag H. unfold node_to_index, foreach_node, coi.size.
  destruct (create_steps _ _ _ _ H)
    as (nodes0 & inner00 & m' & colorsL & colors & st0
        & _ & _ & _ & _ & _ & He & _ & Hconsts & Hnc & _ & Hinner & _).
  destruct (create_facts _ _ _ _ Hdag H)
    as (nodes1 & inner1 & Hcollect1 & Hs1 & _ & Hperm & _).
  destruct (create_index_map _ _ _ _ H)
    as (nodes & inner0 & st & Hcollect & Hs & Hsub & Ht & Hreads).
  rewrite Hcollect in Hcollect1. injection Hcollect1 as <-.
  rewrite Hs in Hs1. injection Hs1 as <-.
  destruct (constants_of_index ntk) as (Hdense0 & Hsize & Hlen & Hcidx & Hcdom).
  rewrite <- Hconsts in Hcidx, Hcdom.
  set (m0 := m0_of ntk) in *.
  set (m1 := fold_left emplace (_leaves v) m0) in *.
  set (m2 := fold_left emplace inner0 m1) in *.
  set (m3 := fold_left emplace pivots m2) in *.
  assert (Hdense : dense_index m3) by (repeat apply fold_emplace_dense; exact Hdense0).
  assert (Hsz : base.size m3 <= _num_constants v + length (_leaves v) + length (_inner v)).
  { assert (base.size m3 <= base.size m2 + length pivots) by apply fold_emplace_size.
    assert (base.size m2 <= base.size m1 + length inner0) by apply fold_emplace_size.
    assert (base.size m1 <= base.size m0 + length (_leaves v)) by apply fold_emplace_size.
    rewrite (Permutation_length Hperm), length_app. lia. }
  assert (Hkeys : forall x, In x (_constants v ++ _leaves v ++ _inner v) <-> is_Some (m3 !! x)).
  { intros x. split.
    - intros Hx. apply in_app_or in Hx as [Hx | Hx].
      + apply list_elem_of_In, list_elem_of_lookup in Hx as [i Hi].
        exists i. apply (lookup_weaken m0); [apply Hcidx; exact Hi |].
        etransitivity; [apply (fold_emplace_subseteq (_leaves v)) |].
        etransitivity; [apply (fold_emplace_subseteq inner0) |].
        apply (fold_emplace_subseteq pivots).
      + apply in_app_or in Hx as [Hx | Hx].
        * destruct (fold_emplace_has (_leaves v) m0 x Hx) as [i Hi]. exists i.
          apply (lookup_weaken m1); [exact Hi |].
          etransitivity; [apply (fold_emplace_subseteq inner0) |].
          apply (fold_emplace_subseteq pivots).
        * apply list_elem_of_In in Hx. rewrite Hperm in Hx.
          apply elem_of_app in Hx as [Hx | Hx]; apply list_elem_of_In in Hx.
          -- destruct (fold_emplace_has inner0 m1 x Hx) as [i Hi]. exists i.
             apply (lookup_weaken m2); [exact Hi |].
             apply (fold_emplace_subseteq pivots).
          -- apply (fold_emplace_has pivots m2 x Hx).
    - intros Hx. apply in_or_app.
      destruct (fold_emplace_dom pivots m2 x Hx) as [Hx2 | Hp].
      2:{ right. apply in_or_app. right. apply list_elem_of_In. rewrite Hperm.
          apply elem_of_app. right. apply list_elem_of_In. exact Hp. }
      destruct (fold_emplace_dom inner0 m1 x Hx2) as [Hx1 | Hi].
      2:{ right. apply in_or_app. right. apply list_elem_of_In. rewrite Hperm.
          apply elem_of_app. left. apply list_elem_of_In. exact Hi. }
      destruct (fold_emplace_dom (_leaves v) m0 x Hx1) as [Hx0 | Hl].
      + left. apply Hcdom. exact Hx0.
      + right. apply in_or_app. left. exact Hl. }
  assert (Hv : forall x i, m3 !! x = Some i -> _node_to_index v !! x = Some i).
  { intros x i Hi. apply (lookup_weaken _ _ _ _ Hi Hsub). }
  split; [| split].
  - intros x Hx. apply Hkeys in Hx as [i Hi]. exists i. split; [apply Hv; exact Hi |].
    destruct (Hdense x i Hi) as [Hlt _]. lia.
  - intros x y i Hx Hy Hxi Hyi.
    apply Hkeys in Hx as [ix Hix]. apply Hkeys in Hy as [iy Hiy].
    pose proof (Hv _ _ Hix) as Hx'. pose proof (Hv _ _ Hiy) as Hy'.
    rewrite Hxi in Hx'. rewrite Hyi in Hy'. injection Hx' as <-. injection Hy' as <-.
    destruct (Hdense x i Hix) as [_ Hinj]. symmetry. apply Hinj. exact Hiy.
  - intros x i Hx Hi.
    assert (Hnone : m3 !! x = None).
    { destruct (m3 !! x) as [j |] eqn:Hj; [| reflexivity].
      exfalso. apply Hx. apply Hkeys. rewrite Hj. eauto. }
    assert (Hb : Forall (fun p => p < S (list_max pivots)) pivots).
    { pose proof (proj1 (list_max_le pivots (list_max pivots)) (Nat.le_refl _)) as Hm.
      eapply Forall_impl; [exact Hm |]. intros p Hp. simpl in Hp. lia. }
    destruct (topo_sort_pivots_le ntk Hdag pivots (S (list_max pivots)) Hb _ _ Ht)
      as ([_ R] & _). simpl in R.
    destruct Hreads as [_ R0].
    specialize (R x). rewrite R0 in R. unfold lookup0 in R.
    rewrite Hi, Hnone in R. simpl in R. exact R.
Qed.

Lemma foreach_element_ext {A S : Type} (fn gn : A -> S -> outcome (bool * S))
  (xs : list A) :
  (forall x s, In x xs -> fn x s = gn x s) ->
  forall s, foreach_element fn xs s = foreach_element gn xs s.
Proof.
  induction xs as [| x xs IH]; intros Hext s; simpl; [reflexivity |].
  rewrite (Hext x s) by (left; reflexivity).
  destruct (gn x s) as [[b s'] | | |]; simpl; try reflexivity.
  destruct b; [| reflexivity]. apply IH. intros y t Hy. apply Hext. right. exact Hy.
Qed.

(** X18.  On a network whose fan-ins precede their node, the two
    recursions of the view end: from node [n] they are at most [n + 1]
    calls deep, and any deeper bound gives the same result. *)
Theorem coi_recursion_depth (ntk : network.t) (n fuel : nat) :
  dag_ordered ntk ->
  n < fuel ->
  (forall nodes,
     collect_recurse fuel ntk n nodes = collect_recurse (fuel_for n) ntk n nodes
     /\ collect_recurse fuel ntk n nodes <> OutOfFuel)
  /\ (forall st,
        topo_sort_rec fuel ntk n st = topo_sort_rec (fuel_for n) ntk n st
        /\ topo_sort_rec fuel ntk n st <> OutOfFuel).
Proof.
  intros Hdag Hn.
  assert (Hc : forall fuel fuel' n nodes, n < fuel -> n < fuel' ->
            collect_recurse fuel ntk n nodes = collect_recurse fuel' ntk n nodes).
  { clear n fuel Hn. induction fuel as [| fuel IH]; intros fuel' n nodes Hn Hn'; [lia |].
    destruct fuel' as [| fuel']; [lia |]. simpl.
    destruct (is_constant ntk n) as [c | | |]; simpl; try reflexivity.
    destruct c; [reflexivity |].
    destruct (is_pi ntk n) as [p | | |]; simpl; try reflexivity.
    destruct p; [reflexivity |].
    destruct (fanins ntk n) as [fs | | |] eqn:Hfs; simpl; try reflexivity.
    apply foreach_element_ext. intros f s Hf.
    case_bool_decide; [reflexivity |].
    pose proof (fanins_below ntk n fs f Hdag Hfs Hf).
    rewrite (IH fuel' (get_node f)) by lia. reflexivity. }
  assert (Ht : forall fuel fuel' n st, n < fuel -> n < fuel' ->
            topo_sort_rec fuel ntk n st = topo_sort_rec fuel' ntk n st).
  { clear n fuel Hn. induction fuel as [| fuel IH]; intros fuel' n st Hn Hn'; [lia |].
    destruct fuel' as [| fuel']; [lia |]. rewrite !topo_sort_rec_S. cbv zeta.
    destruct (get_color (t_colors st) (lookup0 (t_index st) n)) as [c | | |]; simpl;
      try reflexivity.
    destruct (Nat.eqb c 2); [reflexivity |].
    destruct (set_color (t_colors st) (lookup0 (t_index st) n) 1) as [c1 | | |]; simpl;
      try reflexivity.
    destruct (fanins ntk n) as [fs | | |] eqn:Hfs; simpl; try reflexivity.
    f_equal. apply foreach_element_ext. intros f s Hf.
    pose proof (fanins_below ntk n fs f Hdag Hfs Hf).
    rewrite (IH fuel' (get_node f)) by lia. reflexivity. }
  split; intros s; split.
  - apply Hc; [exact Hn | unfold fuel_for; lia].
  - apply collect_recurse_fuel; assumption.
  - apply Ht; [exact Hn | unfold fuel_for; lia].
  - apply topo_sort_rec_fuel; assumption.
Qed.

(** X19.  [update()] does not start from scratch: the collected nodes and
    the index map of the view are kept, so every node collected before is
    still among [_nodes] and every key of [_node_to_index] keeps its
    index; network, pivots and constants are left as they are. *)
Theorem coi_update_accumulates (v v' : coi_view) :
  update v = Returns v' ->
  (forall x, In x (_nodes v) -> In x (_nodes v'))
  /\ _node_to_index v ⊆ _node_to_index v'
  /\ coi.ntk v' = coi.ntk v
  /\ _pivots v' = _pivots v
  /\ _constants v' = _constants v
  /\ _num_constants v' = _num_constants v.
Proof.
  unfold update. intros H.
  apply bind_returns in H as [nodes [Hcollect H]].
  apply compute_sets_steps in H
    as (leaves & inner0 & m' & colorsL & colors & st & Hs & Hl & Hc & Ht & He & ->).
  view_fields in Hs. view_fields in Hl. view_fields in Hc. view_fields in Ht. view_fields.
  split; [| split; [| auto]].
  - intros x Hx. apply merge_sort_In. apply list_elem_of_In.
    apply (collect_pivots_grows _ _ _ _ Hcollect). apply list_elem_of_In. exact Hx.
  - etransitivity; [apply (fold_emplace_subseteq leaves) |].
    etransitivity; [apply (fold_emplace_subseteq inner0) |].
    etransitivity; [apply (fold_emplace_subseteq (_pivots v)) |].
    etransitivity; [apply (color_leaves_spec _ _ _ _ _ Hl) |].
    apply (topo_sort_pivots_index_grows _ _ _ _ Ht).
Qed.

(** X20.  [topo_sort_rec] tests the permanent mark only.  From a node
    whose chain of first fan-ins never meets a permanently marked node nor
    a node without fan-in (in a finite network: a cycle), the recursion
    never returns, whatever depth it is given: the temporary mark does not
    stop it. *)
Theorem topo_sort_rec_cycle_never_returns (ntk : network.t) (on_cycle : node -> Prop)
  (fuel : nat) (n : node) (st st' : topo_state) :
  (forall x, on_cycle x ->
     exists f fs, fanins ntk x = Returns (f :: fs) /\ on_cycle (get_node f)) ->
  (forall x, on_cycle x -> ~ blocked (t_colors st) (lookup0 (t_index st) x)) ->
  on_cycle n ->
  topo_sort_rec fuel ntk n st <> Returns st'.
Proof.
  intros Hnext. revert n st st'.
  induction fuel as [| fuel IH]; intros n st st' Hfree Hn H; [discriminate |].
  rewrite topo_sort_rec_S in H. cbv zeta in H.
  pose proof (index_of_snd (t_index st) n) as [_ Hm].
  apply bind_returns in H as [c [Hc H]]. unfold get_color in Hc.
  destruct (t_colors st !! lookup0 (t_index st) n) as [c0 |] eqn:Hidx; [| discriminate].
  injection Hc as ->.
  destruct (Nat.eqb_spec c 2) as [-> | Hc2].
  { apply (Hfree n Hn). exact Hidx. }
  apply bind_returns in H as [colors1 [H1 H]].
  apply set_color_returns in H1 as [-> _].
  apply bind_returns in H as [fs [Hfs H]].
  apply bind_returns in H as [st2 [Hloop _]].
  destruct (Hnext n Hn) as (f & fs' & Hfs' & Hf).
  rewrite Hfs in Hfs'. injection Hfs' as ->.
  simpl in Hloop. apply bind_returns in Hloop as [[b s1] [Hcall _]].
  apply bind_returns in Hcall as [s2 [Hcall _]].
  revert Hcall. apply IH; [| exact Hf].
  intros x Hx Hb. simpl in Hb. rewrite Hm in Hb.
  apply blocked_insert_inv in Hb; [| discriminate].
  exact (Hfree x Hx Hb).
Qed.

(** * Further properties of the refactor driver *)

Section refactor_sweep.
Import refactor.
Variable cut_manager : Type.
Variable make_cut_manager : nat -> cut_manager.
Variable reconv_driven_cut :
  cut_manager -> network.t -> node -> cut_manager * list node.

Local Abbreviation visit := (refactor.visit cut_manager reconv_driven_cut).
Local Abbreviation run := (refactor.run cut_manager make_cut_manager reconv_driven_cut).
Local Abbreviation cut_each := (refactor.cut_each cut_manager reconv_driven_cut).

Lemma gate_range_counter (ntk : network.t) (ni : node * nat) :
  In ni (gate_range ntk) -> snd ni < network.size ntk.
Proof.
  unfold gate_range, network.size. destruct ni as [n i]. intros H.
  apply in_combine_r in H. apply in_seq in H. simpl.
  match type of H with
  | _ <= _ < _ + length (List.filter ?f ?l) =>
      pose proof (List.filter_length_le f l) as Hle
  end.
  rewrite length_seq in Hle. lia.
Qed.

Lemma sweep_cuts (ps : refactor_params) (size : nat) (xs : list (node * nat)) :
  forall s,
    (forall ni, In ni xs -> snd ni < size) ->
    (forall ni, In ni xs -> fst ni < length (storage (i_ntk _ s))) ->
    exists s',
      foreach_element (visit ps size) xs s = Returns s'
      /\ i_ntk _ s' = i_ntk _ s
      /\ i_st _ s' = i_st _ s
      /\ i_candidates _ s' = i_candidates _ s
      /\ i_mgr _ s'
         = cut_each (i_ntk _ s) (List.filter (is_root ps (i_ntk _ s)) (map fst xs))
             (i_mgr _ s).
Proof.
  induction xs as [| [n i] xs IH]; intros s Hcnt Hin; simpl.
  - exists s. auto.
  - assert (Hi : i < size) by (apply (Hcnt (n, i)); left; reflexivity).
    assert (Hn : n < length (storage (i_ntk _ s))) by (apply (Hin (n, i)); left; reflexivity).
    assert (Hcnt' : forall ni, In ni xs -> snd ni < size)
      by (intros ni Hni; apply Hcnt; right; exact Hni).
    assert (Hin' : forall ni, In ni xs -> fst ni < length (storage (i_ntk _ s)))
      by (intros ni Hni; apply Hin; right; exact Hni).
    unfold refactor.visit at 1.
    destruct (Nat.leb_spec size i) as [Hle | _]; [lia |].
    unfold is_dead, fanout_size, node_at, is_root.
    destruct (storage (i_ntk _ s) !! n) as [d |] eqn:Hd;
      [| apply lookup_ge_None in Hd; lia].
    simpl.
    destruct (dead d); simpl; [apply (IH s Hcnt' Hin') |].
    destruct (Nat.ltb (skip_fanout_limit_for_roots ps) (fanout d)); simpl;
      [apply (IH s Hcnt' Hin') |].
    destruct (reconv_driven_cut (i_mgr _ s) (i_ntk _ s) n) as [mgr leaves] eqn:Hcut.
    simpl. unfold node_refactor.
    destruct (IH {| i_ntk := i_ntk _ s; i_mgr := mgr; i_st := i_st _ s;
                    i_candidates := i_candidates _ s |} Hcnt' Hin')
      as (s' & Hs' & Hn' & Hst' & Hc' & Hm').
    exists s'. simpl in *. auto.
Qed.

(** X21.  The sweep of [run] asks the cut collaborator for exactly one
    cut per gate that is alive and has at most
    [skip_fanout_limit_for_roots] fan-outs, in the order of the gates,
    each time over the network it was given and with the manager the
    previous cut left, starting from a manager for [max_pis]; dead gates
    and gates above the limit are passed over, the early exit
    [i >= size] is never taken, and no candidate is counted. *)
Theorem refactor_cuts_every_root (ntk : network.t) (ps : refactor_params) :
  exists s,
    run ps ntk = Returns s
    /\ i_ntk _ s = ntk
    /\ i_candidates _ s = 0
    /\ i_mgr _ s = cut_each ntk (roots ps ntk) (make_cut_manager (max_pis ps)).
Proof.
  unfold refactor.run.
  destruct (sweep_cuts ps (network.size ntk) (gate_range ntk)
              {| i_ntk := ntk; i_mgr := make_cut_manager (max_pis ps);
                 i_st := {| estimated_gain := 0 |}; i_candidates := 0 |}
              (gate_range_counter ntk) (gate_range_in_storage ntk))
    as (s' & Hs' & Hn & _ & Hc & Hm).
  exists s'. simpl in *. auto.
Qed.

End refactor_sweep.


(** The view of the test suite: pivots [f3] and [f5], [f3] a fan-in of
    [f5]. *)
Lemma coi_update_again_witness :
  exists v,
    create examples.coi_test_aig [8; 10] false = Returns v
    /\ exists v',
         update v = Returns v'
         /\ coi.size v' = coi.size v
         /\ num_pis v' = num_pis v
         /\ coi.num_gates v' = coi.num_gates v
         /\ _leaves v' = _leaves v
         /\ _inner v' = _inner v
         /\ (forall n, node_to_index v' n = node_to_index v n).
Proof.
  assert (Hv : exists v, create examples.coi_test_aig [8; 10] false = Returns v).
  { vm_compute. eexists. reflexivity. }
  destruct Hv as [v Hv]. exists v. split; [exact Hv |].
  exact (coi_update_again examples.coi_test_aig [8; 10] false v Hv).
Defined.


(** The view of the test suite again, and a network with a cycle. *)
Lemma coi_leaves_ascending_inputs_witness :
  exists v,
    create examples.coi_test_aig [8; 10] false = Returns v
    /\ StronglySorted lt (foreach_pi v)
    /\ forall l, In l (foreach_pi v) ->
         is_pi examples.coi_test_aig l = Returns true
         /\ is_constant examples.coi_test_aig l = Returns false.
Proof.
  assert (Hv : exists v, create examples.coi_test_aig [8; 10] false = Returns v).
  { vm_compute. eexists. reflexivity. }
  destruct Hv as [v Hv]. exists v. split; [exact Hv |].
  exact (coi_leaves_ascending_inputs examples.coi_test_aig [8; 10] false v Hv).
Defined.

Lemma coi_pivots_distinct_gates_witness :
  exists v,
    create examples.coi_test_aig [8; 10] false = Returns v
    /\ NoDup [8; 10]
    /\ forall p, In p [8; 10] ->
         In p (foreach_gate v)
         /\ In (make_signal p) (foreach_po v)
         /\ is_pi examples.coi_test_aig p = Returns false
         /\ view_is_pi v p = false
         /\ ~ In p (_constants v).
Proof.
  assert (Hv : exists v, create examples.coi_test_aig [8; 10] false = Returns v).
  { vm_compute. eexists. reflexivity. }
  destruct Hv as [v Hv]. exists v. split; [exact Hv |].
  apply (coi_pivots_distinct_gates examples.coi_test_aig [8; 10] false v).
  - apply dag_orderedb_ordered. reflexivity.
  - exact Hv.
Defined.

Lemma coi_pivot_never_collected_witness :
  exists v,
    create examples.coi_test_aig [8; 10] false = Returns v
    /\ exists nodes,
         collect_pivots examples.coi_test_aig [8; 10] [] = Returns nodes
         /\ forall p, In p [8; 10] ->
              is_constant examples.coi_test_aig p = Returns false -> ~ In p nodes.
Proof.
  assert (Hv : exists v, create examples.coi_test_aig [8; 10] false = Returns v).
  { vm_compute. eexists. reflexivity. }
  destruct Hv as [v Hv]. exists v. split; [exact Hv |].
  apply (coi_pivot_never_collected examples.coi_test_aig [8; 10] false v).
  - apply dag_orderedb_ordered. reflexivity.
  - exact Hv.
Defined.

Lemma coi_inner_topological_witness :
  exists v,
    create examples.coi_test_aig [8; 10] false = Returns v
    /\ NoDup (foreach_gate v)
    /\ fanins_first examples.coi_test_aig (foreach_gate v).
Proof.
  assert (Hv : exists v, create examples.coi_test_aig [8; 10] false = Returns v).
  { vm_compute. eexists. reflexivity. }
  destruct Hv as [v Hv]. exists v. split; [exact Hv |].
  apply (coi_inner_topological examples.coi_test_aig [8; 10] false v).
  - apply dag_orderedb_ordered. reflexivity.
  - exact Hv.
Defined.

Lemma coi_nodes_in_cone_witness :
  exists v,
    create examples.coi_test_aig [8; 10] false = Returns v
    /\ forall x, In x (foreach_pi v ++ foreach_gate v) ->
         exists p, In p [8; 10] /\ in_cone examples.coi_test_aig p x.
Proof.
  assert (Hv : exists v, create examples.coi_test_aig [8; 10] false = Returns v).
  { vm_compute. eexists. reflexivity. }
  destruct Hv as [v Hv]. exists v. split; [exact Hv |].
  apply (coi_nodes_in_cone examples.coi_test_aig [8; 10] false v).
  - apply dag_orderedb_ordered. reflexivity.
  - exact Hv.
Defined.

Lemma coi_index_to_node_enumerates_witness :
  exists v,
    create examples.coi_test_aig [8; 10] false = Returns v
    /\ length (foreach_node v) = coi.size v
    /\ forall i, index_to_node v i = deref (foreach_node v !! i).
Proof.
  assert (Hv : exists v, create examples.coi_test_aig [8; 10] false = Returns v).
  { vm_compute. eexists. reflexivity. }
  destruct Hv as [v Hv]. exists v. split; [exact Hv |].
  exact (coi_index_to_node_enumerates examples.coi_test_aig [8; 10] false v Hv).
Defined.

Lemma coi_leaf_index_round_trip_witness :
  exists v,
    create examples.coi_test_aig [8; 10] false = Returns v
    /\ (forall i c, _constants v !! i = Some c ->
          node_to_index v c = Some i /\ index_to_node v i = Returns c)
    /\ (forall i l, foreach_pi v !! i = Some l ->
          node_to_index v l = Some (_num_constants v + i)
          /\ index_to_node v (_num_constants v + i) = Returns l).
Proof.
  assert (Hv : exists v, create examples.coi_test_aig [8; 10] false = Returns v).
  { vm_compute. eexists. reflexivity. }
  destruct Hv as [v Hv]. exists v. split; [exact Hv |].
  apply (coi_leaf_index_round_trip examples.coi_test_aig [8; 10] false v).
  - reflexivity.
  - reflexivity.
  - exact Hv.
Defined.

Lemma coi_index_dense_witness :
  exists v,
    create examples.coi_test_aig [8; 10] false = Returns v
    /\ (forall x, In x (foreach_node v) ->
          exists i, node_to_index v x = Some i /\ i < coi.size v)
    /\ (forall x y i, In x (foreach_node v) -> In y (foreach_node v) ->
          node_to_index v x = Some i -> node_to_index v y = Some i -> x = y)
    /\ (forall x i, ~ In x (foreach_node v) -> node_to_index v x = Some i -> i = 0).
Proof.
  assert (Hv : exists v, create examples.coi_test_aig [8; 10] false = Returns v).
  { vm_compute. eexists. reflexivity. }
  destruct Hv as [v Hv]. exists v. split; [exact Hv |].
  apply (coi_index_dense examples.coi_test_aig [8; 10] false v).
  - apply dag_orderedb_ordered. reflexivity.
  - exact Hv.
Defined.

Lemma coi_recursion_depth_witness :
  (forall nodes,
     collect_recurse 20 examples.coi_test_aig 10 nodes
     = collect_recurse (fuel_for 10) examples.coi_test_aig 10 nodes
     /\ collect_recurse 20 examples.coi_test_aig 10 nodes <> OutOfFuel)
  /\ (forall st,
        topo_sort_rec 20 examples.coi_test_aig 10 st
        = topo_sort_rec (fuel_for 10) examples.coi_test_aig 10 st
        /\ topo_sort_rec 20 examples.coi_test_aig 10 st <> OutOfFuel).
Proof.
  apply (coi_recursion_depth examples.coi_test_aig 10 20).
  - apply dag_orderedb_ordered. reflexivity.
  - lia.
Defined.

Lemma coi_update_accumulates_witness :
  exists v v',
    create examples.coi_test_aig [8; 10] false = Returns v
    /\ update v = Returns v'
    /\ (forall x, In x (_nodes v) -> In x (_nodes v'))
    /\ _node_to_index v ⊆ _node_to_index v'
    /\ coi.ntk v' = coi.ntk v
    /\ _pivots v' = _pivots v
    /\ _constants v' = _constants v
    /\ _num_constants v' = _num_constants v.
Proof.
  assert (Hv : exists v, create examples.coi_test_aig [8; 10] false = Returns v).
  { vm_compute. eexists. reflexivity. }
  destruct Hv as [v Hv].
  assert (Hu : update v = Returns v).
  { unfold create in Hv. cbv zeta in Hv. apply update_twice in Hv. exact Hv. }
  exists v, v. split; [exact Hv |]. split; [exact Hu |].
  exact (coi_update_accumulates v v Hu).
Defined.

Lemma topo_sort_rec_cycle_never_returns_witness :
  fanins examples.cyclic_net 2 = Returns [mk_signal 3 false; mk_signal 1 false]
  /\ forall fuel st',
       topo_sort_rec fuel examples.cyclic_net 2 (mk_topo ∅ [0; 0; 0; 0] []) <> Returns st'.
Proof.
  split; [reflexivity |]. intros fuel st'.
  apply (topo_sort_rec_cycle_never_returns examples.cyclic_net (fun x => x = 2 \/ x = 3)).
  - intros x [-> | ->].
    + exists (mk_signal 3 false), [mk_signal 1 false]. split; [reflexivity | right; reflexivity].
    + exists (mk_signal 2 false), [mk_signal 1 false]. split; [reflexivity | left; reflexivity].
  - intros x [-> | ->] H; vm_compute in H; discriminate.
  - left. reflexivity.
Defined.

#[local] Open Scope Z_scope.

(** * Concrete instances *)

(** The engine on the target [x0 & x1] over the candidates [x0], [x1] of
    two variables. *)
Lemma resyn_replay_reproduces_target_witness :
  evaluate 4 (mk_index_list 2 [(2, 4, 0)] [6]) (map table [10; 12]) = Some [8].
Proof.
  apply (resyn_replay_reproduces_target 4 table 8 15 [10; 12] 10).
  - apply wfb_wf. reflexivity.
  - apply List.Forall_cons; [apply wfb_wf; reflexivity |].
    apply List.Forall_cons; [apply wfb_wf; reflexivity |].
    apply List.Forall_nil.
  - vm_compute. reflexivity.
  - reflexivity.
  - vm_compute. reflexivity.
Defined.



(** The same tables, once stored by value and once behind indices. *)
Lemma resyn_deterministic_witness :
  mig_enumerative_resyn 4 table 8 15 [10; 12] 3
  = mig_enumerative_resyn 4 (fun k : nat => nth k [10; 12] 0) 8 15 [0%nat; 1%nat] 3.
Proof.
  apply resyn_deterministic; reflexivity.
Defined.

(** C4, as stated, fails in both halves.  With the candidates [0],
    [a = 1010] and [b = 0101] and the target [1000] the engine reaches the
    prefilter.  For the pair (a, b) both (a, b) and (~a, ~b) pass the
    majority test, and only (a, b) is recorded; for the candidate [0] both
    [0 => t] and [t => ~0] pass, and only the first is recorded. *)
Lemma prefilter_skips_later_combinations :
  ~ records_every_combination 4 table 8 [0; 10; 5]
  /\ (passes_maj 4 8 (table 10) (table 5) (true, true) = true
      /\ ~ In (make_lit 1 true, make_lit 2 true)
             (collect_maj1pairs 4 table 8 [0; 10; 5] 0))
  /\ (In (true, 0) implications
      /\ passes_imp 4 8 (table 0) (true, 0) = true
      /\ ~ In (make_lit 0 true, 0) (collect_maj1pairs 4 table 8 [0; 10; 5] 0)).
Proof.
  assert (Hpair : ~ In (make_lit 1 true, make_lit 2 true)
                      (collect_maj1pairs 4 table 8 [0; 10; 5] 0)).
  { intros H. vm_compute in H. intuition discriminate. }
  assert (Himp : ~ In (make_lit 0 true, 0) (collect_maj1pairs 4 table 8 [0; 10; 5] 0)).
  { intros H. vm_compute in H. intuition discriminate. }
  split; [| split].
  - intros [H _]. apply Hpair.
    exact (H 1%nat 2%nat 10 5 (true, true) ltac:(lia) eq_refl eq_refl eq_refl).
  - split; [reflexivity | exact Hpair].
  - split; [right; right; right; left; reflexivity |]. split; [reflexivity | exact Himp].
Qed.

Lemma prefilter_records_first_only_witness :
  In (make_lit 1 false, make_lit 2 false) (collect_maj1pairs 4 table 8 [0; 10; 5] 0)
  /\ ~ In (make_lit 1 true, make_lit 2 true) (collect_maj1pairs 4 table 8 [0; 10; 5] 0)
  /\ In (make_lit 0 false, 1) (collect_maj1pairs 4 table 8 [0; 10; 5] 0)
  /\ ~ In (make_lit 0 true, 0) (collect_maj1pairs 4 table 8 [0; 10; 5] 0).
Proof.
  destruct (prefilter_records_first_only 4 table 8 [0; 10; 5]) as (P1 & P2 & P3).
  destruct (P3 ltac:(reflexivity)) as [Q1 Q2].
  split; [| split; [| split]].
  - apply (P1 1%nat 2%nat 10 5 (false, false)); [lia | reflexivity | reflexivity | reflexivity].
  - intros H.
    apply (Q1 1%nat 2%nat 10 5 (true, true) ltac:(lia) eq_refl eq_refl) in H.
    vm_compute in H. discriminate.
  - apply (P2 0%nat 0 (false, 1)); reflexivity.
  - intros H.
    apply (Q2 0%nat 0 (true, 0) eq_refl) in H.
    + vm_compute in H. discriminate.
    + right. right. right. left. reflexivity.
Defined.

(** The candidates [x0 = 1010] and [x1 = 1100] of two variables again. *)
Lemma literal_round_trip_witness :
  get_tt_from_lit 4 table (make_lit 1 true) [10; 12] = Some (sign 4 true (table 12)).
Proof.
  apply (literal_round_trip 4 table [10; 12] 1%nat 12 true).
  - reflexivity.
  - reflexivity.
Defined.

Lemma make_lit_range_witness :
  2 <= make_lit 0 false < 2 ^ 32
  /\ (make_lit 0 false = make_lit 1 true -> 0 = 1 /\ false = true)
  /\ make_lit (2 ^ 31 - 1) false = Z.b2z false.
Proof.
  apply (make_lit_range 0 1 false true); lia.
Defined.

Lemma resyn_within_budget_witness :
  Z.of_nat (length (gates (mk_index_list 2 [(2, 4, 0)] [6]))) <= 10.
Proof.
  apply (resyn_within_budget 4 table 8 15 [10; 12] 10).
  - lia.
  - vm_compute. reflexivity.
Defined.

Lemma resyn_direct_match_witness :
  mig_enumerative_resyn 4 table 12 15 ([10] ++ 12 :: []) 10
  = Returns (Some (mk_index_list 2 [] [4])).
Proof.
  apply (resyn_direct_match 4 table 12 15 [10] 12 [] 10).
  - reflexivity.
  - discriminate.
  - intros H. vm_compute in H. discriminate.
  - apply List.Forall_cons; [| apply List.Forall_nil].
    split; intros H; vm_compute in H; discriminate.
  - left. reflexivity.
Defined.

Lemma resyn_one_candidate_no_gate_witness :
  gates (mk_index_list 1 [] [2]) = [].
Proof.
  apply (resyn_one_candidate_no_gate 4 table 12 15 [12] 10).
  - simpl. lia.
  - vm_compute. reflexivity.
Defined.

Lemma prefilter_sound_witness :
  exists x,
    get_tt_from_lit 4 table 2 [10; 12] = Some x
    /\ ((0 = 1 /\ implies 4 x 8 = true)
        \/ (0 = 0 /\ implies 4 8 x = true)
        \/ (2 <= 0
            /\ exists y, get_tt_from_lit 4 table 0 [10; 12] = Some y
                         /\ ternary_majority x y 8 = 8)).
Proof.
  apply (prefilter_sound 4 table 8 [10; 12] 2 0).
  - reflexivity.
  - vm_compute. right. left. reflexivity.
Defined.

Lemma resyn_and_of_two_witness :
  mig_enumerative_resyn 4 table (tt_and (table 10) (table 12)) (const1 4) [10; 12] 1
  = Returns (Some (mk_index_list 2 [(2, 4, 0)] [6])).
Proof.
  apply (resyn_and_of_two 4 table 10 12 1).
  - apply wfb_wf. reflexivity.
  - apply wfb_wf. reflexivity.
  - intros H. vm_compute in H. discriminate.
  - intros H. vm_compute in H. discriminate.
  - intros H. vm_compute in H. discriminate.
  - discriminate.
Defined.

Lemma resyn_or_of_two_witness :
  mig_enumerative_resyn 4 table (tt_or (table 10) (table 12)) (const1 4) [10; 12] 1
  = Returns (Some (mk_index_list 2 [(2, 4, 1)] [6])).
Proof.
  apply (resyn_or_of_two 4 table 10 12 1).
  - apply wfb_wf. reflexivity.
  - apply wfb_wf. reflexivity.
  - intros H. vm_compute in H. discriminate.
  - intros H. vm_compute in H. discriminate.
  - intros H. vm_compute in H. discriminate.
  - discriminate.
Defined.
